(** * Byte-level model of the icon container encoders

    Shallow embedding of [createIco] and [createIcns] from
    [scripts/generate-all-icons.js], together with the part of Node's
    [Buffer] API the two functions call.

    A [Buffer] is a mutable object: the model keeps a heap of buffers and the
    encoders run in a state-and-exception monad over that heap, so that
    "which buffer was written" is a statement about the model.

    The orchestrator [generateIcons] of the same script runs over the heap
    and a file system; sharp's renderer and the permissions of the operating
    system are parameters of its model.  *)

From Stdlib Require Import ZArith String Ascii Sorted QArith Qround.
From stdpp Require Import base numbers list gmap strings.

Local Open Scope Z_scope.

(** ** Platform constants *)

(** [buffer.constants.MAX_LENGTH].  Its value depends on the Node version and
    on the architecture; the smallest value Node documents is [2^30 - 1]
    (32-bit builds). *)
Class Platform := {
  kMaxLength : Z;
  kMaxLength_lower : 2 ^ 30 - 1 ≤ kMaxLength
}.

(** ** Heap of buffers, exceptions *)

Inductive error :=
  | ERR_OUT_OF_RANGE
  | ERR_BUFFER_OUT_OF_BOUNDS
  | TypeError.

(** Contents of one buffer: its bytes, each an integer in [0, 255]. *)
Abbreviation bytes := (list Z).
(** A buffer object is identified by its position in the heap; allocation
    appends, so an existing reference never changes its meaning. *)
Abbreviation ref := nat.
Abbreviation heap := (list (list Z)).

Definition js (A : Type) : Type := heap → heap * (error + A).

Definition ret {A} (a : A) : js A := λ h, (h, inr a).
Definition throw {A} (e : error) : js A := λ h, (h, inl e).
Definition bind {A B} (c : js A) (k : A → js B) : js B :=
  λ h, match c h with
       | (h', inr a) => k a h'
       | (h', inl e) => (h', inl e)
       end.

Notation "'do' x <- c ; k" := (bind c (λ x, k))
  (at level 10, x binder, c at level 100, k at level 200).
Notation "'do' ' p <- c ; k" := (bind c (λ x, match x with p => k end))
  (at level 10, p pattern, c at level 100, k at level 200).
Notation "c ;; k" := (bind c (λ _, k))
  (at level 100, k at level 200, right associativity).

(** A [for] loop over the indices [idx], threading the loop-carried
    variables [s]. *)
Fixpoint for_ {S} (idx : list nat) (body : nat → S → js S) (s : S) : js S :=
  match idx with
  | [] => ret s
  | i :: idx' => do s' <- body i s; for_ idx' body s'
  end.

(** ** Node's [Buffer] on the contents of one buffer *)

Definition len (buf : bytes) : Z := Z.of_nat (length buf).

(** [buf[offset]]: [None] is [undefined]. *)
Definition at_ (buf : bytes) (offset : Z) : option Z :=
  if offset <? 0 then None else buf !! Z.to_nat offset.

(** [buf[offset] = value]: the store keeps the low eight bits, and a store
    outside the buffer is ignored. *)
Definition store (buf : bytes) (offset value : Z) : bytes :=
  if offset <? 0 then buf else <[Z.to_nat offset := Z.land value 255]> buf.

Definition boundsError (length : Z) : error :=
  if length <? 0 then ERR_BUFFER_OUT_OF_BOUNDS else ERR_OUT_OF_RANGE.

(** [value > max || value < min], where [None] is [NaN] (what [+undefined]
    gives): every comparison with [NaN] is false. *)
Definition out_of_range (value : option Z) (min max : Z) : bool :=
  match value with
  | Some v => (max <? v) || (v <? min)
  | None => false
  end.

Definition checkInt (value : option Z) (min max : Z) (buf : bytes)
    (offset byteLength : Z) : option error :=
  if out_of_range value min max then Some ERR_OUT_OF_RANGE
  else match at_ buf offset, at_ buf (offset + byteLength) with
       | Some _, Some _ => None
       | _, _ => Some (boundsError (len buf - (byteLength + 1)))
       end.

(** [NaN] is stored as 0, and [NaN >>> 8] is 0. *)
Definition writeU_Int8 (buf : bytes) (value : option Z) (offset min max : Z)
    : error + bytes :=
  if out_of_range value min max then inl ERR_OUT_OF_RANGE
  else match at_ buf offset with
       | None => inl (boundsError (len buf - 1))
       | Some _ => inr (store buf offset (default 0 value))
       end.

Definition writeU_Int16LE (buf : bytes) (value : option Z) (offset min max : Z)
    : error + bytes :=
  match checkInt value min max buf offset 1 with
  | Some e => inl e
  | None =>
      let value := default 0 value in
      let buf := store buf offset value in
      let buf := store buf (offset + 1) (Z.shiftr value 8) in
      inr buf
  end.

Definition writeU_Int32LE (buf : bytes) (value : option Z) (offset min max : Z)
    : error + bytes :=
  match checkInt value min max buf offset 3 with
  | Some e => inl e
  | None =>
      let value := default 0 value in
      let buf := store buf offset value in
      let value := Z.shiftr value 8 in
      let buf := store buf (offset + 1) value in
      let value := Z.shiftr value 8 in
      let buf := store buf (offset + 2) value in
      let value := Z.shiftr value 8 in
      let buf := store buf (offset + 3) value in
      inr buf
  end.

Definition writeU_Int32BE (buf : bytes) (value : option Z) (offset min max : Z)
    : error + bytes :=
  match checkInt value min max buf offset 3 with
  | Some e => inl e
  | None =>
      let value := default 0 value in
      let buf := store buf (offset + 3) value in
      let value := Z.shiftr value 8 in
      let buf := store buf (offset + 2) value in
      let value := Z.shiftr value 8 in
      let buf := store buf (offset + 1) value in
      let value := Z.shiftr value 8 in
      let buf := store buf offset value in
      inr buf
  end.

(** [TypedArray.prototype.set]: [source] overwrites [target] from
    [targetStart] on, cut to what fits. *)
Definition _copyActual (source target : bytes) (targetStart : Z) : bytes :=
  let nb := Z.min (len source) (len target - targetStart) in
  take (Z.to_nat targetStart) target
    ++ take (Z.to_nat nb) source
    ++ drop (Z.to_nat (targetStart + nb)) target.

Definition _copy (source target : bytes) (targetStart : Z) : error + bytes :=
  if targetStart <? 0 then inl ERR_OUT_OF_RANGE
  else if (len target <=? targetStart) || (len source <=? 0) then inr target
  else inr (_copyActual source target targetStart).

Definition charCodes (s : string) : bytes :=
  (λ c, Z.of_N (N_of_ascii c)) <$> list_ascii_of_string s.

(** [buf.write(string, offset, length, 'ascii')]. *)
Definition asciiWrite (buf : bytes) (s : string) (offset length : Z)
    : error + bytes :=
  if (offset <? 0) || (len buf <? offset) then inl ERR_OUT_OF_RANGE
  else if (length <? 0) || (len buf <? length) then inl ERR_OUT_OF_RANGE
  else
    let remaining := len buf - offset in
    let length := if remaining <? length then remaining else length in
    inr (_copyActual (take (Z.to_nat length) (charCodes s)) buf offset).

(** ** Node's [Buffer] on the heap *)

(** [Buffer.alloc(size)]: a new zero-filled buffer. *)
Definition Buffer_alloc `{Platform} (size : Z) : js ref := λ h,
  if (size <? 0) || (kMaxLength <? size) then (h, inl ERR_OUT_OF_RANGE)
  else (h ++ [replicate (Z.to_nat size) 0], inr (length h)).

(** [this.length]; a reference to no buffer is [undefined]. *)
Definition Buffer_length (this : ref) : js Z := λ h,
  match h !! this with
  | None => (h, inl TypeError)
  | Some buf => (h, inr (len buf))
  end.

(** Run a method that writes into [this]. *)
Definition method (this : ref) (f : bytes → error + bytes) : js unit := λ h,
  match h !! this with
  | None => (h, inl TypeError)
  | Some buf =>
      match f buf with
      | inl e => (h, inl e)
      | inr buf' => (<[this := buf']> h, inr ())
      end
  end.

Definition writeUInt8 (this : ref) (value : option Z) (offset : Z) : js unit :=
  method this (λ buf, writeU_Int8 buf value offset 0 255).
Definition writeUInt16LE (this : ref) (value : option Z) (offset : Z) : js unit :=
  method this (λ buf, writeU_Int16LE buf value offset 0 65535).
Definition writeUInt32LE (this : ref) (value : option Z) (offset : Z) : js unit :=
  method this (λ buf, writeU_Int32LE buf value offset 0 4294967295).
Definition writeUInt32BE (this : ref) (value : option Z) (offset : Z) : js unit :=
  method this (λ buf, writeU_Int32BE buf value offset 0 4294967295).
Definition write (this : ref) (s : string) (offset length : Z) : js unit :=
  method this (λ buf, asciiWrite buf s offset length).

(** [this.copy(target, targetStart)]: reads [this], writes [target]. *)
Definition copy (this target : ref) (targetStart : Z) : js unit := λ h,
  match h !! this with
  | None => (h, inl TypeError)
  | Some source => method target (λ buf, _copy source buf targetStart) h
  end.

(** ** [createIco] *)

Record image := Image {
  width : option Z;
  height : option Z;
  data : ref
}.

(** [x >= 256 ? 0 : x]; [undefined >= 256] is false. *)
Definition clampDim (x : option Z) : option Z :=
  match x with
  | Some v => if 256 <=? v then Some 0 else Some v
  | None => None
  end.

Definition headerSize : Z := 6.
Definition dirEntrySize : Z := 16.

(** [for (const img of images) { imageOffsets.push(dataOffset);
    dataOffset += img.data.length; }] *)
Fixpoint offsetsLoop (images : list image) (imageOffsets : list Z)
    (dataOffset : Z) : js (list Z * Z) :=
  match images with
  | [] => ret (imageOffsets, dataOffset)
  | img :: images' =>
      do n <- Buffer_length (data img);
      offsetsLoop images' (imageOffsets ++ [dataOffset]) (dataOffset + n)
  end.

(** Body of the directory loop; [offset] is the loop-carried variable. *)
Definition writeDirEntry (buffer : ref) (images : list image)
    (imageOffsets : list Z) (i : nat) (offset : Z) : js Z :=
  match images !! i with
  | None => throw TypeError
  | Some img =>
      let width := clampDim (width img) in
      let height := clampDim (height img) in
      writeUInt8 buffer width offset;;
      writeUInt8 buffer height (offset + 1);;
      writeUInt8 buffer (Some 0) (offset + 2);;
      writeUInt8 buffer (Some 0) (offset + 3);;
      writeUInt16LE buffer (Some 1) (offset + 4);;
      writeUInt16LE buffer (Some 32) (offset + 6);;
      do n <- Buffer_length (data img);
      writeUInt32LE buffer (Some n) (offset + 8);;
      writeUInt32LE buffer (imageOffsets !! i) (offset + 12);;
      ret (offset + dirEntrySize)
  end.

(** Body of the data loop: [images[i].data.copy(buffer, imageOffsets[i])];
    an [undefined] start is taken as 0. *)
Definition copyImage (buffer : ref) (images : list image)
    (imageOffsets : list Z) (i : nat) (_ : unit) : js unit :=
  match images !! i with
  | None => throw TypeError
  | Some img => copy (data img) buffer (default 0 (imageOffsets !! i))
  end.

(** [images] is what the first loop pushes, one record per element of
    [pngBuffers] with [sizes[i]] ([undefined] past the end of [sizes]); the
    two later loops run over the indices of [images]. *)
Definition createIco `{Platform} (pngBuffers : list ref) (sizes : list Z)
    : js ref :=
  let images :=
    imap (λ i png, {| width := sizes !! i; height := sizes !! i; data := png |})
         pngBuffers in
  let numImages := Z.of_nat (length images) in
  do '(imageOffsets, dataOffset) <-
    offsetsLoop images [] (headerSize + dirEntrySize * numImages);
  do buffer <- Buffer_alloc dataOffset;
  writeUInt16LE buffer (Some 0) 0;;
  writeUInt16LE buffer (Some 1) 2;;
  writeUInt16LE buffer (Some numImages) 4;;
  for_ (seq 0 (length images)) (writeDirEntry buffer images imageOffsets)
       headerSize;;
  for_ (seq 0 (length images)) (copyImage buffer images imageOffsets) ();;
  ret buffer.

(** ** [createIcns] *)

(** The object literal [icnsTypes], as [Object.entries] lists it: the keys
    are integer indices, enumerated in ascending numeric order and handed out
    as decimal strings. *)
Definition icnsTypes : list (string * string) :=
  [ ("16", "icp4"); ("32", "icp5"); ("64", "icp6"); ("128", "ic07");
    ("256", "ic08"); ("512", "ic09"); ("1024", "ic10") ]%string.

Definition digit (c : ascii) : option Z :=
  let n := Z.of_N (N_of_ascii c) in
  if (48 <=? n) && (n <=? 57) then Some (n - 48) else None.

Fixpoint parseDigits (s : string) (acc : option Z) : option Z :=
  match s with
  | EmptyString => acc
  | String c s' =>
      match digit c with
      | Some d => parseDigits s' (Some (10 * default 0 acc + d))
      | None => acc
      end
  end.

(** [parseInt] on an unsigned decimal numeral (what the keys of
    [icnsTypes] are): the value of the leading digits, [None] ([NaN]) when
    there is none. *)
Definition parseInt (s : string) : option Z := parseDigits s None.

(** [for (const [size, typeCode] of Object.entries(icnsTypes))]; the
    property [pngsBySize[NaN]] does not exist in a mapping keyed by sizes.
    The values of the mapping are references to PNG buffers ([validRefs] in
    the statements), so that [if (png)] is the test that the size is a key. *)
Fixpoint chunksLoop `{Platform} (entries : list (string * string))
    (pngsBySize : gmap Z ref) (chunks : list ref) : js (list ref) :=
  match entries with
  | [] => ret chunks
  | (size, typeCode) :: entries' =>
      match parseInt size ≫= λ n, pngsBySize !! n with
      | Some png =>
          do n <- Buffer_length png;
          let chunkSize := 8 + n in
          do chunk <- Buffer_alloc chunkSize;
          write chunk typeCode 0 4;;
          writeUInt32BE chunk (Some chunkSize) 4;;
          copy png chunk 8;;
          chunksLoop entries' pngsBySize (chunks ++ [chunk])
      | None => chunksLoop entries' pngsBySize chunks
      end
  end.

(** [chunks.reduce((sum, chunk) => sum + chunk.length, 0)] *)
Fixpoint reduceLengths (chunks : list ref) (sum : Z) : js Z :=
  match chunks with
  | [] => ret sum
  | chunk :: chunks' =>
      do n <- Buffer_length chunk; reduceLengths chunks' (sum + n)
  end.

(** [for (const chunk of chunks) { chunk.copy(icns, offset);
    offset += chunk.length; }] *)
Fixpoint copyChunks (icns : ref) (chunks : list ref) (offset : Z) : js Z :=
  match chunks with
  | [] => ret offset
  | chunk :: chunks' =>
      copy chunk icns offset;;
      do n <- Buffer_length chunk;
      copyChunks icns chunks' (offset + n)
  end.

Definition createIcns `{Platform} (pngsBySize : gmap Z ref) : js ref :=
  do chunks <- chunksLoop icnsTypes pngsBySize [];
  do sum <- reduceLengths chunks 0;
  let totalSize := 8 + sum in
  do icns <- Buffer_alloc totalSize;
  write icns "icns" 0 4;;
  writeUInt32BE icns (Some totalSize) 4;;
  copyChunks icns chunks 8;;
  ret icns.

(** ** Closed forms used in the statements *)

(** Bytes of a 16-bit and of a 32-bit field, least significant byte first,
    and of a 32-bit field, most significant byte first. *)
Definition le16 (v : Z) : bytes :=
  [Z.land v 255; Z.land (Z.shiftr v 8) 255].
Definition le32 (v : Z) : bytes :=
  [Z.land v 255; Z.land (Z.shiftr v 8) 255;
   Z.land (Z.shiftr (Z.shiftr v 8) 8) 255;
   Z.land (Z.shiftr (Z.shiftr (Z.shiftr v 8) 8) 8) 255].
Definition be32 (v : Z) : bytes :=
  [Z.land (Z.shiftr (Z.shiftr (Z.shiftr v 8) 8) 8) 255;
   Z.land (Z.shiftr (Z.shiftr v 8) 8) 255;
   Z.land (Z.shiftr v 8) 255; Z.land v 255].

(** [new] written over [buf] from position [o] on. *)
Definition splice (buf : bytes) (o : nat) (new : bytes) : bytes :=
  take o buf ++ new ++ drop (o + length new) buf.

(** Where the data of each image starts, for data starting at [offset]. *)
Fixpoint offsetsFrom (offset : Z) (datas : list bytes) : list Z :=
  match datas with
  | [] => []
  | d :: datas' => offset :: offsetsFrom (offset + len d) datas'
  end.

(** The buffers some references stand for in a heap. *)
Definition deref (h : heap) (refs : list ref) (datas : list bytes) : Prop :=
  Forall2 (λ r d, h !! r = Some d) refs datas.

(** One 16-byte directory entry. *)
Definition dirEntry (size : option Z) (dataSize dataOffset : Z) : bytes :=
  [Z.land (default 0 (clampDim size)) 255;
   Z.land (default 0 (clampDim size)) 255; 0; 0; 1; 0; 32; 0]
  ++ le32 dataSize ++ le32 dataOffset.

Definition icoHeader (numImages : Z) : bytes := [0; 0; 1; 0] ++ le16 numImages.

Definition icoDirectory (sizes : list Z) (datas : list bytes) : list bytes :=
  let dataStart := headerSize + dirEntrySize * Z.of_nat (length datas) in
  imap (λ i d, dirEntry (sizes !! i) (len d)
                 (dataStart + len (concat (take i datas)))) datas.

(** The whole container [createIco] builds. *)
Definition icoBytes (sizes : list Z) (datas : list bytes) : bytes :=
  icoHeader (Z.of_nat (length datas))
  ++ concat (icoDirectory sizes datas) ++ concat datas.

(** When no write of [createIco] is refused: the count fits 16 bits, no size
    is negative, every data length and data offset fits 32 bits, and the
    container is no longer than a buffer may be. *)
Definition icoFits `{Platform} (sizes : list Z) (datas : list bytes) : Prop :=
  Z.of_nat (length datas) ≤ 65535
  ∧ (∀ i s, (i < length datas)%nat → sizes !! i = Some s → 0 ≤ s)
  ∧ (∀ i d, datas !! i = Some d →
       len d ≤ 4294967295
       ∧ headerSize + dirEntrySize * Z.of_nat (length datas)
           + len (concat (take i datas)) ≤ 4294967295)
  ∧ len (icoBytes sizes datas) ≤ kMaxLength.

(** One chunk: type code, chunk length, image data. *)
Definition icnsChunk (typeCode : string) (d : bytes) : bytes :=
  charCodes typeCode ++ be32 (8 + len d) ++ d.

(** The type code and the image data of every entry of [entries] whose size
    the mapping holds, in the order of [entries]. *)
Definition icnsSelected (h : heap) (entries : list (string * string))
    (pngsBySize : gmap Z ref) : list (string * bytes) :=
  omap (λ '(size, typeCode),
          n ← parseInt size; png ← pngsBySize !! n; d ← h !! png;
          Some (typeCode, d)) entries.

(** The chunks [createIcns] builds from the buffers of heap [h]. *)
Definition icnsChunks (h : heap) (entries : list (string * string))
    (pngsBySize : gmap Z ref) : list bytes :=
  (λ '(typeCode, d), icnsChunk typeCode d) <$> icnsSelected h entries pngsBySize.

(** The whole container [createIcns] builds around its chunks. *)
Definition icnsBytes (chunks : list bytes) : bytes :=
  charCodes "icns" ++ be32 (8 + len (concat chunks)) ++ concat chunks.

(** When no write of [createIcns] is refused: the total length fits 32 bits
    and is no longer than a buffer may be. *)
Definition icnsFits `{Platform} (chunks : list bytes) : Prop :=
  len (icnsBytes chunks) ≤ 4294967295 ∧ len (icnsBytes chunks) ≤ kMaxLength.

(** Every buffer a mapping names exists in the heap. *)
Definition validRefs (h : heap) (pngsBySize : gmap Z ref) : Prop :=
  ∀ size png, pngsBySize !! size = Some png → is_Some (h !! png).

(** Node's readers, which the statements use to decode the fields the
    encoders wrote; [None] is the bounds error. *)
Definition readUInt8 (buf : bytes) (offset : Z) : option Z := at_ buf offset.

Definition readUInt16LE (buf : bytes) (offset : Z) : option Z :=
  first ← at_ buf offset; last ← at_ buf (offset + 1);
  Some (first + last * 2 ^ 8).

Definition readUInt32LE (buf : bytes) (offset : Z) : option Z :=
  first ← at_ buf offset; b1 ← at_ buf (offset + 1);
  b2 ← at_ buf (offset + 2); last ← at_ buf (offset + 3);
  Some (first + b1 * 2 ^ 8 + b2 * 2 ^ 16 + last * 2 ^ 24).

Definition readUInt32BE (buf : bytes) (offset : Z) : option Z :=
  first ← at_ buf offset; b1 ← at_ buf (offset + 1);
  b2 ← at_ buf (offset + 2); last ← at_ buf (offset + 3);
  Some (first * 2 ^ 24 + b1 * 2 ^ 16 + b2 * 2 ^ 8 + last).

(** The sizes [createIcns] looks up: the keys of [icnsTypes] as numbers. *)
Definition icnsSizes : list Z := omap (λ e, parseInt e.1) icnsTypes.

(** The loop of [generateIcons] that fills the mapping,
    [icnsPngs[size] = buffer], from an empty object. *)
Definition populate (entries : list (Z * ref)) : gmap Z ref :=
  foldl (λ pngsBySize e, <[e.1 := e.2]> pngsBySize) ∅ entries.

(** A 64-bit build of Node 22 or later, where a buffer may be as long as
    [Number.MAX_SAFE_INTEGER]. *)
Definition node22 : Platform.
Proof. refine {| kMaxLength := 2 ^ 53 - 1 |}. lia. Defined.

(** The Type-Code Registry as the specification tabulates it. *)
Definition typeCodeRegistry : list (Z * string) :=
  [ (16, "icp4"); (32, "icp5"); (64, "icp6"); (128, "ic07");
    (256, "ic08"); (512, "ic09"); (1024, "ic10") ]%string.

(** The length of the chunks of some selected images: for each, 8 bytes of
    type code and length field, and its data. *)
Definition chunksLength (selected : list (string * bytes)) : Z :=
  foldr (λ '(_, d) total, 8 + len d + total) 0 selected.

(** ** The orchestrator [generateIcons]

    [generateIcons] reads the SVG logo, has sharp render it at every size of
    four tables into PNG files, then renders the sizes of the two containers
    into buffers, encodes them with [createIco] and [createIcns] and writes the
    two container files.  Its world is the heap of buffers together with the
    file system; sharp's renderer and the permissions of the operating system
    are what the host gives.  The messages of [console.log] are left out: they
    do not touch buffers or files. *)

(** A path is the list of its segments; [join(dir, name)] adds one. *)
Definition join (dir : list string) (name : string) : list string :=
  dir ++ [name].

Definition parent (p : list string) : list string := take (length p - 1) p.

(** [p] and every directory above it. *)
Definition ancestors (p : list string) : list (list string) :=
  (λ n, take n p) <$> seq 0 (S (length p)).

(** The calls made on a sharp pipeline between [sharp(input)] and [.png()],
    in the order the code makes them; what sharp makes of them is the host's
    [png].  [extend] always has the transparent background. *)
Inductive operation :=
  | resize (width height : Z)
  | extend (top bottom left right : Z).

Class Host := {
  ICONS_DIR : list string;
  (** The PNG sharp makes of an input through some operations, [None] when
      it rejects. *)
  png : bytes → list operation → option bytes;
  (** Whether the process may write or create at a path. *)
  permitted : list string → bool
}.

Record world := World {
  buffers : heap;
  files : gmap (list string) bytes;
  directories : gset (list string)
}.

Inductive exception :=
  | BufferError (e : error)
  | SharpError
  | SystemError.

(** An asynchronous function: it runs on a world, and resolves or rejects. *)
Definition task (A : Type) : Type := world → world * (exception + A).

Definition resolve {A} (a : A) : task A := λ w, (w, inr a).
Definition reject {A} (e : exception) : task A := λ w, (w, inl e).

Definition andThen {A B} (c : task A) (k : A → task B) : task B := λ w,
  match c w with
  | (w', inr a) => k a w'
  | (w', inl e) => (w', inl e)
  end.

Notation "'await' x <- c ; k" := (andThen c (λ x, k))
  (at level 10, x binder, c at level 100, k at level 200).
Notation "c ;;; k" := (andThen c (λ _, k))
  (at level 100, k at level 200, right associativity).

Fixpoint forOf {A} (l : list A) (body : A → task unit) : task unit :=
  match l with
  | [] => resolve ()
  | x :: l' => body x ;;; forOf l' body
  end.

(** A call of one of the encoders: it runs on the buffers. *)
Definition call {A} (c : js A) : task A := λ w,
  match c (buffers w) with
  | (h, inr a) => (World h (files w) (directories w), inr a)
  | (h, inl e) => (World h (files w) (directories w), inl (BufferError e))
  end.

Section host.
Context `{Host}.

Definition existsSync (p : list string) : task bool := λ w,
  (w, inr (bool_decide (p ∈ directories w)
           || bool_decide (is_Some (files w !! p)))).

(** [mkdirSync(p, { recursive: true })]: refused when a file stands where a
    directory is needed. *)
Definition mkdirSync (p : list string) : task unit := λ w,
  if permitted p
     && forallb (λ a, bool_decide (files w !! a = None)) (ancestors p)
  then (World (buffers w) (files w)
          (directories w ∪ list_to_set (ancestors p)), inr ())
  else (w, inl SystemError).

(** A file is written into an existing directory, and not over one. *)
Definition writable (w : world) (p : list string) : bool :=
  permitted p && bool_decide (parent p ∈ directories w)
  && bool_decide (p ∉ directories w).

Definition readFileSync (p : list string) : task ref := λ w,
  match files w !! p with
  | Some d =>
      (World (buffers w ++ [d]) (files w) (directories w),
       inr (length (buffers w)))
  | None => (w, inl SystemError)
  end.

Definition writeFileSync (p : list string) (data : ref) : task unit := λ w,
  match buffers w !! data with
  | Some d =>
      if writable w p
      then (World (buffers w) (<[p := d]> (files w)) (directories w), inr ())
      else (w, inl SystemError)
  | None => (w, inl (BufferError TypeError))
  end.

(** [sharp(input)] followed by its operations and [.png()]. *)
Definition render (input : ref) (ops : list operation) : task bytes := λ w,
  match buffers w !! input with
  | Some d =>
      match png d ops with
      | Some out => (w, inr out)
      | None => (w, inl SharpError)
      end
  | None => (w, inl (BufferError TypeError))
  end.

Definition toFile (input : ref) (ops : list operation) (p : list string)
    : task unit :=
  await out <- render input ops;
  λ w, if writable w p
       then (World (buffers w) (<[p := out]> (files w)) (directories w),
             inr ())
       else (w, inl SharpError).

Definition toBuffer (input : ref) (ops : list operation) : task ref :=
  await out <- render input ops;
  λ w, (World (buffers w ++ [out]) (files w) (directories w),
        inr (length (buffers w))).

Definition SVG_PATH : list string := join ICONS_DIR "doggy-logo.svg".

Definition STANDARD_ICONS : list (Z * string) :=
  [ (32, "32x32.png"); (64, "64x64.png"); (128, "128x128.png");
    (256, "128x128@2x.png"); (512, "icon.png") ]%string.

Definition WINDOWS_ICONS : list (Z * string) :=
  [ (30, "Square30x30Logo.png"); (44, "Square44x44Logo.png");
    (71, "Square71x71Logo.png"); (89, "Square89x89Logo.png");
    (107, "Square107x107Logo.png"); (142, "Square142x142Logo.png");
    (150, "Square150x150Logo.png"); (284, "Square284x284Logo.png");
    (310, "Square310x310Logo.png"); (50, "StoreLogo.png") ]%string.

Definition IOS_ICONS : list (Z * string) :=
  [ (20, "AppIcon-20x20@1x.png"); (40, "AppIcon-20x20@2x.png");
    (40, "AppIcon-20x20@2x-1.png"); (60, "AppIcon-20x20@3x.png");
    (29, "AppIcon-29x29@1x.png"); (58, "AppIcon-29x29@2x.png");
    (58, "AppIcon-29x29@2x-1.png"); (87, "AppIcon-29x29@3x.png");
    (40, "AppIcon-40x40@1x.png"); (80, "AppIcon-40x40@2x.png");
    (80, "AppIcon-40x40@2x-1.png"); (120, "AppIcon-40x40@3x.png");
    (120, "AppIcon-60x60@2x.png"); (180, "AppIcon-60x60@3x.png");
    (76, "AppIcon-76x76@1x.png"); (152, "AppIcon-76x76@2x.png");
    (167, "AppIcon-83.5x83.5@2x.png"); (1024, "AppIcon-512@2x.png") ]%string.

(** Size and directory. *)
Definition ANDROID_ICONS : list (Z * string) :=
  [ (48, "mipmap-mdpi"); (72, "mipmap-hdpi"); (96, "mipmap-xhdpi");
    (144, "mipmap-xxhdpi"); (192, "mipmap-xxxhdpi") ]%string.

(** [Math.round]: the nearest integer, a half going up. *)
Definition Math_round (x : Q) : Z := Qfloor (x + (1 # 2))%Q.

(** [Math.round(size * 1.5)].  The product is taken exactly: it is the
    double the code computes as long as [3 * size] is below [2 ^ 53] in
    magnitude, far above the size of any image. *)
Definition foregroundSize (size : Z) : Z :=
  Math_round (inject_Z size * 1.5)%Q.

(** [Math.round((size * 2 - foregroundSize) / 2)], exact in the same range. *)
Definition foregroundPadding (size : Z) : Z :=
  Math_round (inject_Z (size * 2 - foregroundSize size) / 2)%Q.

(** The calls of the adaptive-icon foreground. *)
Definition foreground (size : Z) : list operation :=
  [ resize (foregroundSize size) (foregroundSize size);
    extend (foregroundPadding size) (foregroundPadding size)
           (foregroundPadding size) (foregroundPadding size);
    resize size size ].

(** [for (const size of sizes) icoPngs.push(await ... .toBuffer())] *)
Fixpoint pushRendered (svgBuffer : ref) (sizes : list Z) (icoPngs : list ref)
    : task (list ref) :=
  match sizes with
  | [] => resolve icoPngs
  | size :: sizes' =>
      await buffer <- toBuffer svgBuffer [resize size size];
      pushRendered svgBuffer sizes' (icoPngs ++ [buffer])
  end.

(** [for (const size of sizes) icnsPngs[size] = await ... .toBuffer()] *)
Fixpoint assignRendered (svgBuffer : ref) (sizes : list Z)
    (icnsPngs : gmap Z ref) : task (gmap Z ref) :=
  match sizes with
  | [] => resolve icnsPngs
  | size :: sizes' =>
      await buffer <- toBuffer svgBuffer [resize size size];
      assignRendered svgBuffer sizes' (<[size := buffer]> icnsPngs)
  end.

Definition icoSizes : list Z := [16; 24; 32; 48; 64; 128; 256].

Definition generateIcons `{Platform} : task unit :=
  await svgBuffer <- readFileSync SVG_PATH;
  forOf STANDARD_ICONS (λ '(size, name),
    let outputPath := join ICONS_DIR name in
    toFile svgBuffer [resize size size] outputPath);;;
  forOf WINDOWS_ICONS (λ '(size, name),
    let outputPath := join ICONS_DIR name in
    toFile svgBuffer [resize size size] outputPath);;;
  let iosDir := join ICONS_DIR "ios" in
  await present <- existsSync iosDir;
  (if negb present then mkdirSync iosDir else resolve ());;;
  forOf IOS_ICONS (λ '(size, name),
    let outputPath := join iosDir name in
    toFile svgBuffer [resize size size] outputPath);;;
  let androidDir := join ICONS_DIR "android" in
  forOf ANDROID_ICONS (λ '(size, dir),
    let dirPath := join androidDir dir in
    await present <- existsSync dirPath;
    (if negb present then mkdirSync dirPath else resolve ());;;
    toFile svgBuffer [resize size size] (join dirPath "ic_launcher.png");;;
    toFile svgBuffer [resize size size]
      (join dirPath "ic_launcher_round.png");;;
    toFile svgBuffer (foreground size)
      (join dirPath "ic_launcher_foreground.png"));;;
  await icoPngs <- pushRendered svgBuffer icoSizes [];
  await icoBuffer <- call (createIco icoPngs icoSizes);
  writeFileSync (join ICONS_DIR "icon.ico") icoBuffer;;;
  let icnsSizes := [16; 32; 64; 128; 256; 512; 1024] in
  await icnsPngs <- assignRendered svgBuffer icnsSizes ∅;
  await icnsBuffer <- call (createIcns icnsPngs);
  writeFileSync (join ICONS_DIR "icon.icns") icnsBuffer.

End host.

(** ** What [generateIcons] leaves behind *)

Definition twp {A} (c : task A) (Q : A → world → Prop)
    (E : exception → world → Prop) (w : world) : Prop :=
  match c w with
  | (w', inr a) => Q a w'
  | (w', inl e) => E e w'
  end.

Section outcome.
Context `{Host}.

(** The PNG files in the order [generateIcons] writes them, each with the
    operations of its pipeline. *)
Definition pngFiles : list (list string * list operation) :=
  ('(size, name) ← STANDARD_ICONS;
     [(join ICONS_DIR name, [resize size size])])
  ++ ('(size, name) ← WINDOWS_ICONS;
        [(join ICONS_DIR name, [resize size size])])
  ++ ('(size, name) ← IOS_ICONS;
        [(join (join ICONS_DIR "ios") name, [resize size size])])
  ++ ('(size, dir) ← ANDROID_ICONS;
        let dirPath := join (join ICONS_DIR "android") dir in
        [ (join dirPath "ic_launcher.png", [resize size size]);
          (join dirPath "ic_launcher_round.png", [resize size size]);
          (join dirPath "ic_launcher_foreground.png", foreground size) ]).

Definition icoPath : list string := join ICONS_DIR "icon.ico".
Definition icnsPath : list string := join ICONS_DIR "icon.icns".

(** Every path [generateIcons] may write. *)
Definition targets : list (list string) := pngFiles.*1 ++ [icoPath; icnsPath].

(** The files after sharp has written its renders of [svg] at some of the
    paths, in order. *)
Definition written (svg : bytes) (fs : gmap (list string) bytes)
    (done : list (list string * list operation)) : gmap (list string) bytes :=
  foldl (λ fs '(p, ops), match png svg ops with
                         | Some d => <[p := d]> fs
                         | None => fs
                         end) fs done.

(** sharp's renders of [svg] at some sizes. *)
Definition renders (svg : bytes) (sizes : list Z) (datas : list bytes) : Prop :=
  Forall2 (λ size d, png svg [resize size size] = Some d) sizes datas.

(** A world in which [done] of the PNG files have been written since [w0],
    and nothing else has been: the SVG has been read into a buffer after those
    of [w0], directories may have been made. *)
Definition pngStage (w0 : world) (svg : bytes)
    (done : list (list string * list operation)) (w : world) : Prop :=
  (∃ hs, buffers w = buffers w0 ++ svg :: hs)
  ∧ directories w0 ⊆ directories w
  ∧ Forall (λ t, is_Some (png svg t.2)) done
  ∧ files w = written svg (files w0) done.

(** [generateIcons] has stopped while it wrote the PNG files or rendered
    the images of the ICO container. *)
Definition interrupted (w0 : world) (svg : bytes) (w : world) : Prop :=
  ∃ done, done `prefix_of` pngFiles ∧ pngStage w0 svg done w.

(** All PNG files and [icon.ico] have been written. *)
Definition icoStage `{Platform} (w0 : world) (svg : bytes) (w : world) : Prop :=
  ∃ icos, renders svg icoSizes icos ∧ icoFits icoSizes icos
    ∧ (∃ hs, buffers w = buffers w0 ++ svg :: hs)
    ∧ directories w0 ⊆ directories w
    ∧ Forall (λ t, is_Some (png svg t.2)) pngFiles
    ∧ files w = <[icoPath := icoBytes icoSizes icos]>
                  (written svg (files w0) pngFiles).

(** Everything has been written: [icon.icns] holds one chunk for every size
    of the registry. *)
Definition icnsStage `{Platform} (w0 : world) (svg : bytes) (w : world)
    : Prop :=
  ∃ icos chunks, renders svg icoSizes icos ∧ icoFits icoSizes icos
    ∧ Forall2 (λ '(size, typeCode) chunk,
                 ∃ d, png svg [resize size size] = Some d
                      ∧ chunk = icnsChunk typeCode d) typeCodeRegistry chunks
    ∧ icnsFits chunks
    ∧ (∃ hs, buffers w = buffers w0 ++ svg :: hs)
    ∧ directories w0 ⊆ directories w
    ∧ Forall (λ t, is_Some (png svg t.2)) pngFiles
    ∧ files w = <[icnsPath := icnsBytes chunks]>
                  (<[icoPath := icoBytes icoSizes icos]>
                     (written svg (files w0) pngFiles)).

End outcome.

(** The paths of [targets] below [ICONS_DIR]. *)
Definition relativeTargets : list (list string) :=
  Eval cbv in
    @targets {| ICONS_DIR := []; png := λ _ _, None; permitted := λ _, true |}.

(** A host to run [generateIcons] on: the process may write everywhere,
    and the renderer answers with its input followed by the numbers of its
    operations, as bytes. *)
Definition echo (op : operation) : bytes :=
  match op with
  | resize width height => [width `mod` 256; height `mod` 256]
  | extend vertical _ horizontal _ =>
      [vertical `mod` 256; horizontal `mod` 256]
  end.

Definition echoHost : Host :=
  {| ICONS_DIR := ["src-tauri"; "icons"]%string;
     png := λ input ops, Some (input ++ (ops ≫= echo));
     permitted := λ _, true |}.

(** The same host with a renderer that rejects 24 by 24 pixels. *)
Definition no24Host : Host :=
  {| ICONS_DIR := ["src-tauri"; "icons"]%string;
     png := λ input ops,
       match ops with
       | [resize 24 24] => None
       | _ => Some (input ++ (ops ≫= echo))
       end;
     permitted := λ _, true |}.

(** A file system that holds the logo and nothing else. *)
Definition logoOnly : world :=
  {| buffers := [];
     files := {[ ["src-tauri"; "icons"; "doggy-logo.svg"]%string
                 := [60; 115; 118; 103; 47; 62] ]};
     directories := {[ []; ["src-tauri"]%string;
                       ["src-tauri"; "icons"]%string ]} |}.

(** A file system without the logo. *)
Definition noLogo : world :=
  {| buffers := []; files := ∅;
     directories := {[ []; ["src-tauri"]%string;
                       ["src-tauri"; "icons"]%string ]} |}.

(** The directories [generateIcons] makes when they are missing. *)
Definition madeDirectories `{Host} : list (list string) :=
  join ICONS_DIR "ios"
  :: ('(size, dir) ← ANDROID_ICONS; [join (join ICONS_DIR "android") dir]).

(** Their paths below [ICONS_DIR]. *)
Definition relativeDirectories : list (list string) :=
  Eval cbv in
    @madeDirectories
      {| ICONS_DIR := []; png := λ _ _, None; permitted := λ _, true |}.

(** A file system [generateIcons] can work in: [ICONS_DIR] is a directory,
    no target is a directory, no file stands where a directory is needed,
    and the process may write the targets and make the directories. *)
Definition ready `{Host} (w : world) : Prop :=
  ICONS_DIR ∈ directories w
  ∧ Forall (λ p, p ∉ directories w) targets
  ∧ Forall (λ a, files w !! a = None) (madeDirectories ≫= ancestors)
  ∧ Forall (λ p, permitted p = true) (targets ++ madeDirectories).

(** A logo sharp renders through every pipeline of [generateIcons], the
    images of the two containers in at most 64 MiB each. *)
Definition renderable `{Host} (svg : bytes) : Prop :=
  Forall (λ t, is_Some (png svg t.2)) pngFiles
  ∧ Forall (λ size, ∃ d, png svg [resize size size] = Some d
                         ∧ len d ≤ 2 ^ 26)
      (icoSizes ++ typeCodeRegistry.*1).

(** Weakest precondition of a run: [Q] on a returned value, [E] on a thrown
    error, each with the heap the run leaves. *)
Definition wp {A} (c : js A) (Q : A → heap → Prop) (E : error → heap → Prop)
    (h : heap) : Prop :=
  match c h with
  | (h', inr a) => Q a h'
  | (h', inl e) => E e h'
  end.

(** * Proofs *)

(** ** Runs *)

Lemma wp_ret {A} (a : A) Q E h : Q a h → wp (ret a) Q E h.
Proof. done. Qed.

Lemma wp_throw {A} e (Q : A → heap → Prop) E h : E e h → wp (throw e) Q E h.
Proof. done. Qed.

Lemma wp_bind {A B} (c : js A) (k : A → js B) Q E h :
  wp c (λ a h', wp (k a) Q E h') E h → wp (bind c k) Q E h.
Proof. unfold wp, bind. by destruct (c h) as [h' [e|a]]. Qed.

Lemma wp_mono {A} (c : js A) (Q Q' : A → heap → Prop) (E E' : error → heap → Prop) h :
  wp c Q E h → (∀ a h', Q a h' → Q' a h') → (∀ e h', E e h' → E' e h') →
  wp c Q' E' h.
Proof. unfold wp. destruct (c h) as [h' [e|a]]; eauto. Qed.

Lemma wp_returned {A} (c : js A) Q E h h' a :
  wp c Q E h → c h = (h', inr a) → Q a h'.
Proof. unfold wp. intros Hwp Heq. by rewrite Heq in Hwp. Qed.

Lemma wp_thrown {A} (c : js A) Q E h h' e :
  wp c Q E h → c h = (h', inl e) → E e h'.
Proof. unfold wp. intros Hwp Heq. by rewrite Heq in Hwp. Qed.

Lemma wp_for {S} (I : nat → S → heap → Prop) E (body : nat → S → js S) m :
  ∀ k s h,
    I k s h →
    (∀ i s h, (k ≤ i < k + m)%nat → I i s h → wp (body i s) (I (Datatypes.S i)) E h) →
    wp (for_ (seq k m) body s) (I (k + m)%nat) E h.
Proof.
  induction m as [|m IH]; intros k s h HI Hbody; simpl.
  - apply wp_ret. by rewrite Nat.add_0_r.
  - apply wp_bind. eapply wp_mono; [apply Hbody; [lia|done] | | done].
    intros s' h' HI'. simpl.
    replace (k + Datatypes.S m)%nat with (Datatypes.S k + m)%nat by lia.
    apply IH; [done|]. intros i s'' h'' Hi. apply Hbody. lia.
Qed.

(** ** One buffer *)

Lemma len_app (a b : bytes) : len (a ++ b) = len a + len b.
Proof. unfold len. rewrite length_app. lia. Qed.

Lemma length_splice buf o new :
  (o + length new ≤ length buf)%nat → length (splice buf o new) = length buf.
Proof.
  intros. unfold splice. rewrite !length_app, length_take, length_drop. lia.
Qed.

Lemma len_splice buf o new :
  (o + length new ≤ length buf)%nat → len (splice buf o new) = len buf.
Proof. intros. unfold len. by rewrite length_splice. Qed.

Lemma splice_splice buf o a b :
  (o + length a ≤ length buf)%nat →
  splice (splice buf o a) (o + length a) b = splice buf o (a ++ b).
Proof.
  intros Hle. unfold splice. rewrite (assoc_L (++) (take o buf) a).
  rewrite take_app_length' by (rewrite length_app, length_take; lia).
  rewrite drop_app_add' by (rewrite length_app, length_take; lia).
  rewrite drop_drop, length_app, <-!(assoc_L (++)). do 4 f_equal. lia.
Qed.

Lemma splice_splice_before buf o a b :
  (o + length a + length b ≤ length buf)%nat →
  splice (splice buf (o + length a) b) o a = splice buf o (a ++ b).
Proof.
  intros Hle. unfold splice.
  rewrite take_app_le by (rewrite length_take; lia).
  rewrite take_take, Nat.min_l by lia.
  rewrite drop_app_ge by (rewrite length_take; lia).
  rewrite length_take, Nat.min_l by lia.
  replace (o + length a - (o + length a))%nat with 0%nat by lia.
  rewrite drop_0, length_app, <-!(assoc_L (++)). do 4 f_equal. lia.
Qed.

Lemma splice_nil buf o : splice buf o [] = buf.
Proof. unfold splice. simpl. rewrite Nat.add_0_r. apply take_drop. Qed.

Lemma splice_zeros A k new :
  (length new ≤ k)%nat →
  splice (A ++ replicate k 0) (length A) new
  = (A ++ new) ++ replicate (k - length new) 0.
Proof.
  intros. unfold splice. rewrite take_app_length, drop_app_add, drop_replicate.
  by rewrite <-(assoc_L (++)).
Qed.

Lemma at_in_bounds buf offset :
  0 ≤ offset < len buf → is_Some (at_ buf offset).
Proof.
  unfold at_, len. intros. destruct (Z.ltb_spec offset 0); [lia|].
  apply lookup_lt_is_Some. lia.
Qed.

Lemma len_store buf offset value : len (store buf offset value) = len buf.
Proof.
  unfold store, len. destruct (offset <? 0); [done|]. by rewrite length_insert.
Qed.

Lemma store_splice buf offset value :
  0 ≤ offset < len buf →
  store buf offset value = splice buf (Z.to_nat offset) [Z.land value 255].
Proof.
  unfold store, len, splice. intros. destruct (Z.ltb_spec offset 0); [lia|].
  rewrite insert_take_drop by lia. simpl. do 3 f_equal. lia.
Qed.

Lemma checkInt_in_bounds value min max buf offset byteLength :
  0 ≤ offset → 0 ≤ byteLength → offset + byteLength < len buf →
  checkInt value min max buf offset byteLength
  = if out_of_range value min max then Some ERR_OUT_OF_RANGE else None.
Proof.
  intros. unfold checkInt. destruct (out_of_range _ _ _); [done|].
  destruct (at_in_bounds buf offset) as [? ->]; [lia|].
  by destruct (at_in_bounds buf (offset + byteLength)) as [? ->]; [lia|].
Qed.

Lemma writeU_Int8_splice buf value offset min max :
  0 ≤ offset < len buf →
  writeU_Int8 buf value offset min max
  = if out_of_range value min max then inl ERR_OUT_OF_RANGE
    else inr (splice buf (Z.to_nat offset) [Z.land (default 0 value) 255]).
Proof.
  intros. unfold writeU_Int8. destruct (out_of_range _ _ _); [done|].
  destruct (at_in_bounds buf offset) as [? ->]; [lia|].
  by rewrite store_splice.
Qed.

(** Merge the stores of one multi-byte write into one [splice]. *)
Ltac stores :=
  repeat (rewrite store_splice by (rewrite ?len_store; lia));
  repeat match goal with
  | |- context [splice (splice ?b ?o ?a) ?o' ?c] =>
      first
        [ replace o' with (o + length a)%nat by (simpl; lia);
          rewrite (splice_splice b o a c) by (simpl; unfold len in *; lia)
        | replace o with (o' + length c)%nat by (simpl; lia);
          rewrite (splice_splice_before b o' c a) by (simpl; unfold len in *; lia) ]
  end.

Lemma writeU_Int16LE_splice buf value offset min max :
  0 ≤ offset → offset + 2 ≤ len buf →
  writeU_Int16LE buf value offset min max
  = if out_of_range value min max then inl ERR_OUT_OF_RANGE
    else inr (splice buf (Z.to_nat offset) (le16 (default 0 value))).
Proof.
  intros. unfold writeU_Int16LE. rewrite checkInt_in_bounds by lia.
  destruct (out_of_range _ _ _); [done|]. cbv zeta. stores. done.
Qed.

Lemma writeU_Int32LE_splice buf value offset min max :
  0 ≤ offset → offset + 4 ≤ len buf →
  writeU_Int32LE buf value offset min max
  = if out_of_range value min max then inl ERR_OUT_OF_RANGE
    else inr (splice buf (Z.to_nat offset) (le32 (default 0 value))).
Proof.
  intros. unfold writeU_Int32LE. rewrite checkInt_in_bounds by lia.
  destruct (out_of_range _ _ _); [done|]. cbv zeta. stores. done.
Qed.

Lemma writeU_Int32BE_splice buf value offset min max :
  0 ≤ offset → offset + 4 ≤ len buf →
  writeU_Int32BE buf value offset min max
  = if out_of_range value min max then inl ERR_OUT_OF_RANGE
    else inr (splice buf (Z.to_nat offset) (be32 (default 0 value))).
Proof.
  intros. unfold writeU_Int32BE. rewrite checkInt_in_bounds by lia.
  destruct (out_of_range _ _ _); [done|]. cbv zeta. stores. done.
Qed.

Lemma _copy_splice source target targetStart :
  0 ≤ targetStart → targetStart + len source ≤ len target →
  _copy source target targetStart
  = inr (splice target (Z.to_nat targetStart) source).
Proof.
  unfold _copy, len. intros.
  destruct (Z.ltb_spec targetStart 0); [lia|].
  destruct (Z.leb_spec (Z.of_nat (length target)) targetStart);
    [|destruct (Z.leb_spec (Z.of_nat (length source)) 0)]; simpl.
  - destruct source; [by rewrite splice_nil|simpl in *; lia].
  - destruct source; [by rewrite splice_nil|simpl in *; lia].
  - unfold _copyActual, splice, len. rewrite Z.min_l by lia.
    rewrite Nat2Z.id, firstn_all. do 4 f_equal. lia.
Qed.

Lemma asciiWrite_splice buf s :
  4 ≤ len buf → length (charCodes s) = 4%nat →
  asciiWrite buf s 0 4 = inr (splice buf 0 (charCodes s)).
Proof.
  unfold asciiWrite, len. intros ? Hs.
  destruct (Z.ltb_spec (Z.of_nat (length buf)) 0); [lia|].
  destruct (Z.ltb_spec (Z.of_nat (length buf)) 4); [lia|]. simpl.
  destruct (Z.ltb_spec (Z.of_nat (length buf) - 0) 4); [lia|].
  rewrite take_ge by lia.
  unfold _copyActual, splice, len. rewrite Hs, Z.min_l by lia. simpl.
  rewrite take_ge by lia. done.
Qed.

(** ** Methods on the buffer allocated last *)

Section last.
Context `{Platform}.
Context (hp : heap) (Q : unit → heap → Prop) (E : error → heap → Prop).

Lemma wp_method_last buf f :
  match f buf with
  | inl e => E e (hp ++ [buf])
  | inr buf' => Q () (hp ++ [buf'])
  end →
  wp (method (length hp) f) Q E (hp ++ [buf]).
Proof.
  unfold wp, method. rewrite list_lookup_middle by done.
  destruct (f buf); [done|].
  by rewrite insert_app_r_alt, Nat.sub_diag by lia.
Qed.

(** The buffer has [A] written so far and [k] zero bytes left. *)
Context (A : bytes) (k : nat) (value : option Z) (offset : Z).
Context (Hoffset : offset = len A).

Ltac last_write lem n :=
  intros Hk HQ; subst offset; apply wp_method_last;
  rewrite lem by (rewrite ?len_app; unfold len; rewrite ?length_replicate; lia);
  destruct (out_of_range _ _ _); [done|];
  unfold len; rewrite Nat2Z.id, splice_zeros by (simpl; lia);
  exact HQ.

Lemma wp_writeUInt8 :
  (1 ≤ k)%nat →
  (if out_of_range value 0 255 then E ERR_OUT_OF_RANGE (hp ++ [A ++ replicate k 0])
   else Q () (hp ++ [(A ++ [Z.land (default 0 value) 255])
                       ++ replicate (k - 1) 0])) →
  wp (writeUInt8 (length hp) value offset) Q E (hp ++ [A ++ replicate k 0]).
Proof. last_write writeU_Int8_splice 1. Qed.

Lemma wp_writeUInt16LE :
  (2 ≤ k)%nat →
  (if out_of_range value 0 65535 then E ERR_OUT_OF_RANGE (hp ++ [A ++ replicate k 0])
   else Q () (hp ++ [(A ++ le16 (default 0 value)) ++ replicate (k - 2) 0])) →
  wp (writeUInt16LE (length hp) value offset) Q E (hp ++ [A ++ replicate k 0]).
Proof. last_write writeU_Int16LE_splice 2. Qed.

Lemma wp_writeUInt32LE :
  (4 ≤ k)%nat →
  (if out_of_range value 0 4294967295
   then E ERR_OUT_OF_RANGE (hp ++ [A ++ replicate k 0])
   else Q () (hp ++ [(A ++ le32 (default 0 value)) ++ replicate (k - 4) 0])) →
  wp (writeUInt32LE (length hp) value offset) Q E (hp ++ [A ++ replicate k 0]).
Proof. last_write writeU_Int32LE_splice 4. Qed.

Lemma wp_writeUInt32BE :
  (4 ≤ k)%nat →
  (if out_of_range value 0 4294967295
   then E ERR_OUT_OF_RANGE (hp ++ [A ++ replicate k 0])
   else Q () (hp ++ [(A ++ be32 (default 0 value)) ++ replicate (k - 4) 0])) →
  wp (writeUInt32BE (length hp) value offset) Q E (hp ++ [A ++ replicate k 0]).
Proof. last_write writeU_Int32BE_splice 4. Qed.

Lemma wp_copy this source :
  hp !! this = Some source → (length source ≤ k)%nat →
  Q () (hp ++ [(A ++ source) ++ replicate (k - length source) 0]) →
  wp (copy this (length hp) offset) Q E (hp ++ [A ++ replicate k 0]).
Proof.
  intros Hthis Hk HQ. subst offset. unfold wp, copy.
  rewrite (lookup_app_l_Some _ _ _ _ Hthis). apply wp_method_last.
  rewrite _copy_splice
    by (rewrite ?len_app; unfold len; rewrite ?length_replicate; lia).
  unfold len; rewrite Nat2Z.id, splice_zeros by lia.
  exact HQ.
Qed.
End last.

Lemma wp_write `{Platform} hp Q E k s :
  (4 ≤ k)%nat → length (charCodes s) = 4%nat →
  Q () (hp ++ [charCodes s ++ replicate (k - 4) 0]) →
  wp (write (length hp) s 0 4) Q E (hp ++ [replicate k 0]).
Proof.
  intros Hk Hs HQ. apply wp_method_last.
  rewrite asciiWrite_splice by (unfold len; rewrite ?length_replicate; lia).
  rewrite (splice_zeros [] k) by lia. by rewrite Hs.
Qed.

Lemma wp_Buffer_length hp hs this buf Q E :
  hp !! this = Some buf →
  Q (len buf) (hp ++ hs) →
  wp (Buffer_length this) Q E (hp ++ hs).
Proof.
  intros Hthis HQ. unfold wp, Buffer_length.
  by rewrite (lookup_app_l_Some _ _ _ _ Hthis).
Qed.

Lemma wp_Buffer_alloc `{Platform} size Q E h :
  0 ≤ size →
  (kMaxLength < size → E ERR_OUT_OF_RANGE h) →
  (size ≤ kMaxLength → Q (length h) (h ++ [[] ++ replicate (Z.to_nat size) 0])) →
  wp (Buffer_alloc size) Q E h.
Proof.
  intros ? HE HQ. unfold wp, Buffer_alloc.
  destruct (Z.ltb_spec size 0); [lia|].
  destruct (Z.ltb_spec kMaxLength size); simpl; auto.
Qed.

(** ** [createIco] *)

Lemma lookup_offsetsFrom datas : ∀ offset i d,
  datas !! i = Some d →
  offsetsFrom offset datas !! i = Some (offset + len (concat (take i datas))).
Proof.
  induction datas as [|d0 datas IH]; intros offset [|i] d Hd; simplify_eq/=.
  - f_equal. unfold len. simpl. lia.
  - rewrite (IH _ _ _ Hd). f_equal. rewrite len_app. lia.
Qed.

Lemma length_concat_take_le (l : list bytes) i :
  (length (concat (take i l)) ≤ length (concat l))%nat.
Proof.
  rewrite <-(take_drop i l) at 2. rewrite concat_app, length_app. lia.
Qed.

Lemma clampDim_in_range size :
  out_of_range (clampDim size) 0 255 = false ↔ ∀ s, size = Some s → 0 ≤ s.
Proof.
  destruct size as [s|]; simpl; [|naive_solver].
  destruct (Z.leb_spec 256 s); simpl.
  - split; [intros _ ? [= <-]; lia|done].
  - rewrite orb_false_iff, !Z.ltb_ge. split; [intros [? ?] ? [= <-]; lia|].
    intros Hs. specialize (Hs _ eq_refl). lia.
Qed.

Lemma offsetsLoop_wp images : ∀ imageOffsets dataOffset h,
  wp (offsetsLoop images imageOffsets dataOffset)
     (λ r h', h' = h ∧ ∃ datas,
        deref h (data <$> images) datas
        ∧ r = (imageOffsets ++ offsetsFrom dataOffset datas,
               dataOffset + len (concat datas)))
     (λ _ h', h' = h ∧ ¬ ∃ datas, deref h (data <$> images) datas)
     h.
Proof.
  induction images as [|img images IH]; intros imageOffsets dataOffset h; simpl.
  - apply wp_ret. split; [done|]. exists []. split; [constructor|].
    by rewrite app_nil_r, Z.add_0_r.
  - apply wp_bind. unfold wp at 1, Buffer_length.
    destruct (h !! data img) as [d|] eqn:Hd.
    + eapply wp_mono; [apply IH| |].
      * intros r h' (-> & datas & Hdatas & ->). split; [done|].
        exists (d :: datas). split; [by constructor|]. simpl.
        rewrite <-(assoc_L (++)), len_app. f_equal. lia.
      * intros _ h' [-> Hno]. split; [done|]. intros [datas Hdatas].
        apply Forall2_cons_inv_l in Hdatas as (? & datas' & _ & ? & _).
        apply Hno. by exists datas'.
    + split; [done|]. intros [datas Hdatas].
      apply Forall2_cons_inv_l in Hdatas as (? & ? & ? & _). congruence.
Qed.

Ltac solve_len :=
  rewrite ?len_app; unfold len, headerSize, dirEntrySize in *; simpl; lia.
Ltac wr lem := apply wp_bind; apply lem; [solve_len | lia | ].

Lemma wp_writeDirEntry hp images imageOffsets i img d o A k offset
    (Q : Z → heap → Prop) (E : error → heap → Prop) :
  images !! i = Some img → hp !! data img = Some d →
  imageOffsets !! i = Some o → offset = len A → (16 ≤ k)%nat → 0 ≤ o →
  (∀ buf,
     ¬ (out_of_range (clampDim (width img)) 0 255 = false
        ∧ out_of_range (clampDim (height img)) 0 255 = false
        ∧ len d ≤ 4294967295 ∧ o ≤ 4294967295) →
     E ERR_OUT_OF_RANGE (hp ++ [buf])) →
  (out_of_range (clampDim (width img)) 0 255 = false →
   out_of_range (clampDim (height img)) 0 255 = false →
   len d ≤ 4294967295 → o ≤ 4294967295 →
   Q (offset + dirEntrySize)
     (hp ++ [(A ++ [Z.land (default 0 (clampDim (width img))) 255;
                    Z.land (default 0 (clampDim (height img))) 255;
                    0; 0; 1; 0; 32; 0] ++ le32 (len d) ++ le32 o)
              ++ replicate (k - 16) 0])) →
  wp (writeDirEntry (length hp) images imageOffsets i offset) Q E
     (hp ++ [A ++ replicate k 0]).
Proof.
  intros Himg Hd Ho Hoffset Hk Ho0 HE HQ. unfold writeDirEntry. rewrite Himg, Ho.
  wr wp_writeUInt8.
  destruct (out_of_range (clampDim (width img)) 0 255) eqn:Hw;
    [apply HE; intros (?&?&?&?); congruence|].
  wr wp_writeUInt8.
  destruct (out_of_range (clampDim (height img)) 0 255) eqn:Hh;
    [apply HE; intros (?&?&?&?); congruence|].
  wr wp_writeUInt8. change (out_of_range (Some 0) 0 255) with false. cbv iota.
  wr wp_writeUInt8. change (out_of_range (Some 0) 0 255) with false. cbv iota.
  wr wp_writeUInt16LE. change (out_of_range (Some 1) 0 65535) with false. cbv iota.
  wr wp_writeUInt16LE. change (out_of_range (Some 32) 0 65535) with false. cbv iota.
  apply wp_bind. eapply (wp_Buffer_length _ [_]); [exact Hd|].
  wr wp_writeUInt32LE.
  destruct (out_of_range (Some (len d)) 0 4294967295) eqn:Hn.
  { apply HE. intros (?&?&?&?). simpl in Hn.
    apply orb_true_iff in Hn as [?%Z.ltb_lt|?%Z.ltb_lt]; unfold len in *; lia. }
  wr wp_writeUInt32LE.
  destruct (out_of_range (Some o) 0 4294967295) eqn:Hoo.
  { apply HE. intros (?&?&?&?). simpl in Hoo.
    apply orb_true_iff in Hoo as [?%Z.ltb_lt|?%Z.ltb_lt]; lia. }
  apply wp_ret. simpl in Hn, Hoo.
  apply orb_false_iff in Hn as [?%Z.ltb_ge _].
  apply orb_false_iff in Hoo as [?%Z.ltb_ge _].
  specialize (HQ eq_refl eq_refl ltac:(done) ltac:(done)).
  replace (k - 1 - 1 - 1 - 1 - 2 - 2 - 4 - 4)%nat with (k - 16)%nat by lia.
  rewrite <-!(assoc_L (++)) in *. exact HQ.
Qed.

Lemma length_dirEntry size dataSize dataOffset :
  length (dirEntry size dataSize dataOffset) = 16%nat.
Proof. done. Qed.

Lemma lookup_icoDirectory sizes datas i d :
  datas !! i = Some d →
  icoDirectory sizes datas !! i
  = Some (dirEntry (sizes !! i) (len d)
            (headerSize + dirEntrySize * Z.of_nat (length datas)
             + len (concat (take i datas)))).
Proof. intros Hd. unfold icoDirectory. by rewrite list_lookup_imap, Hd. Qed.

Lemma length_icoDirectory sizes datas :
  length (icoDirectory sizes datas) = length datas.
Proof. apply length_imap. Qed.

Lemma length_concat_take_icoDirectory sizes datas i :
  (i ≤ length datas)%nat →
  length (concat (take i (icoDirectory sizes datas))) = (16 * i)%nat.
Proof.
  induction i as [|i IH]; intros Hi; [done|].
  destruct (lookup_lt_is_Some_2 datas i) as [d Hd]; [lia|].
  rewrite (take_S_r _ _ _ (lookup_icoDirectory sizes _ _ _ Hd)).
  rewrite concat_app, length_app, IH by lia. simpl. lia.
Qed.

Lemma length_concat_icoDirectory sizes datas :
  length (concat (icoDirectory sizes datas)) = (16 * length datas)%nat.
Proof.
  rewrite <-(length_concat_take_icoDirectory sizes datas (length datas)) by lia.
  by rewrite take_ge by (rewrite length_icoDirectory; lia).
Qed.

Lemma len_icoBytes sizes datas :
  len (icoBytes sizes datas)
  = headerSize + dirEntrySize * Z.of_nat (length datas) + len (concat datas).
Proof.
  unfold icoBytes, len, headerSize, dirEntrySize.
  rewrite !length_app, length_concat_icoDirectory. simpl. lia.
Qed.

Lemma fmap_data_images (sizes : list Z) (pngBuffers : list ref) :
  data <$> imap (λ i png, {| width := sizes !! i; height := sizes !! i;
                             data := png |}) pngBuffers
  = pngBuffers.
Proof.
  apply list_eq. intros i. rewrite list_lookup_fmap, list_lookup_imap.
  by destruct (pngBuffers !! i).
Qed.

Section createIco_run.
Context `{Platform} (h0 : heap) (pngBuffers : list ref) (sizes : list Z).

Lemma createIco_wp :
  wp (createIco pngBuffers sizes)
     (λ buffer h',
        buffer = length h0
        ∧ ∃ datas, deref h0 pngBuffers datas ∧ icoFits sizes datas
                   ∧ h' = h0 ++ [icoBytes sizes datas])
     (λ _ h',
        (∀ datas, deref h0 pngBuffers datas → ¬ icoFits sizes datas)
        ∧ ∃ hs, h' = h0 ++ hs)
     h0.
Proof.
  unfold createIco. apply wp_bind.
  eapply wp_mono; [apply offsetsLoop_wp| |]; rewrite fmap_data_images.
  2:{ intros _ h' [-> Hno]. split; [|exists []; by rewrite app_nil_r].
      intros datas Hd. destruct Hno. by exists datas. }
  intros r h' (-> & datas & Hderef & ->). rewrite length_imap. simpl.
  assert (length pngBuffers = length datas) as HN by by eapply Forall2_length.
  rewrite HN.
  set (N := length datas) in *.
  set (total := headerSize + dirEntrySize * Z.of_nat N + len (concat datas)).
  set (E := λ (_ : error) (h' : heap),
         ¬ icoFits sizes datas ∧ ∃ hs, h' = h0 ++ hs).
  match goal with |- wp ?c ?Q _ _ => apply (wp_mono c Q Q E) end; [|done|].
  2:{ intros _ h' [Hnot Hh']. split; [|done]. intros datas' Hderef'.
      by rewrite (Forall2_unique _ _ _ _ Hderef' Hderef)
        by (intros; congruence). }
  assert (total = 6 + 16 * Z.of_nat N + Z.of_nat (length (concat datas)))
    as Htotal by done.
  assert (N = length datas) as HNdatas by done.
  clearbody total N.
  apply wp_bind, wp_Buffer_alloc; [lia| |intros Hmax].
  { split; [|exists []; by rewrite app_nil_r]. intros (_ & _ & _ & Hfit).
    rewrite len_icoBytes in Hfit. solve_len. }
  wr wp_writeUInt16LE. change (out_of_range (Some 0) 0 65535) with false. cbv iota.
  wr wp_writeUInt16LE. change (out_of_range (Some 1) 0 65535) with false. cbv iota.
  wr wp_writeUInt16LE.
  destruct (out_of_range (Some (Z.of_nat N)) 0 65535) eqn:HN16.
  { split; [|by eexists]. intros (Hfit & _). simpl in HN16.
    apply orb_true_iff in HN16 as [?%Z.ltb_lt|?%Z.ltb_lt]; lia. }
  simpl in HN16. apply orb_false_iff in HN16 as [HN16%Z.ltb_ge _].
  set (dirInv := λ (i : nat) (offset : Z) (h : heap),
         offset = 6 + 16 * Z.of_nat i
         ∧ (∀ j d, (j < i)%nat → datas !! j = Some d →
              (∀ s, sizes !! j = Some s → 0 ≤ s)
              ∧ len d ≤ 4294967295
              ∧ 6 + 16 * Z.of_nat N + len (concat (take j datas)) ≤ 4294967295)
         ∧ h = h0 ++ [(icoHeader (Z.of_nat N)
                        ++ concat (take i (icoDirectory sizes datas)))
                      ++ replicate (Z.to_nat total - 6 - 16 * i) 0]).
  apply wp_bind.
  eapply wp_mono; [apply (wp_for dirInv E _ N 0%nat headerSize)| |done].
  { split; [done|]. split; [intros; lia|].
    by replace (Z.to_nat total - 2 - 2 - 2)%nat
      with (Z.to_nat total - 6 - 16 * 0)%nat by lia. }
  { intros i offset h Hi (-> & Hok & ->).
    destruct (lookup_lt_is_Some_2 datas i) as [d Hd]; [lia|].
    destruct (lookup_lt_is_Some_2 pngBuffers i) as [r Hr]; [lia|].
    assert (h0 !! r = Some d) as Hrd
      by apply (Forall2_lookup_lr _ _ _ _ _ _ Hderef Hr Hd).
    eapply (wp_writeDirEntry _ _ _ _
              {| width := sizes !! i; height := sizes !! i; data := r |} d
              (6 + 16 * Z.of_nat N + len (concat (take i datas)))).
    - by rewrite list_lookup_imap, Hr.
    - exact Hrd.
    - by rewrite (lookup_offsetsFrom _ _ _ _ Hd).
    - rewrite len_app. unfold len.
      rewrite length_concat_take_icoDirectory by lia. simpl. lia.
    - lia.
    - unfold len. lia.
    - intros buf Hnot. split; [|by eexists].
      intros (HfN & Hfs & Hfd & Hft). apply Hnot. simpl.
      destruct (Hfd _ _ Hd) as [? ?].
      assert (out_of_range (clampDim (sizes !! i)) 0 255 = false)
        by (apply clampDim_in_range; intros s Hs; apply (Hfs i s); [lia|done]).
      unfold headerSize, dirEntrySize in *. rewrite <-HNdatas in *. done.
    - cbn [width height data]. intros Hw _ Hlen Ho.
      split; [unfold dirEntrySize; lia|]. split.
      + intros j d' Hj Hd'. destruct (decide (j = i)) as [->|].
        * simplify_eq. by rewrite <-clampDim_in_range.
        * apply Hok; [lia|done].
      + rewrite (take_S_r _ _ _ (lookup_icoDirectory sizes _ _ _ Hd)).
        rewrite concat_app, concat_cons, concat_nil, app_nil_r.
        replace (Z.to_nat total - 6 - 16 * i - 16)%nat
          with (Z.to_nat total - 6 - 16 * S i)%nat by lia.
        rewrite <-HNdatas, <-!(assoc_L (++)). done. }
  intros offset h' (_ & Hok & ->).
  rewrite Nat.add_0_l, take_ge by (rewrite length_icoDirectory; lia).
  set (copyInv := λ (i : nat) (_ : unit) (h : heap),
         h = h0 ++ [((icoHeader (Z.of_nat N)
                        ++ concat (icoDirectory sizes datas))
                       ++ concat (take i datas))
                    ++ replicate (Z.to_nat total - 6 - 16 * N
                                  - length (concat (take i datas))) 0]).
  apply wp_bind.
  eapply wp_mono; [apply (wp_for copyInv E _ N 0%nat ())| |done].
  { unfold copyInv. cbn [take concat length].
    by rewrite app_nil_r, Nat.sub_0_r. }
  { intros i [] h Hi ->.
    destruct (lookup_lt_is_Some_2 datas i) as [d Hd]; [lia|].
    destruct (lookup_lt_is_Some_2 pngBuffers i) as [r Hr]; [lia|].
    assert (h0 !! r = Some d) as Hrd
      by apply (Forall2_lookup_lr _ _ _ _ _ _ Hderef Hr Hd).
    pose proof (length_concat_take_le datas (S i)) as Hle.
    rewrite (take_S_r _ _ _ Hd), concat_app, concat_cons, concat_nil,
      app_nil_r, length_app in Hle.
    unfold copyImage.
    rewrite list_lookup_imap, Hr, (lookup_offsetsFrom _ _ _ _ Hd).
    cbn [fmap option_fmap option_map from_option id data].
    eapply wp_copy; [|exact Hrd| |].
    - rewrite !len_app. unfold len, headerSize, dirEntrySize.
      rewrite length_concat_icoDirectory.
      change (length (icoHeader _)) with 6%nat. lia.
    - lia.
    - unfold copyInv.
      rewrite (take_S_r _ _ _ Hd), concat_app, concat_cons, concat_nil,
        app_nil_r, length_app, <-!(assoc_L (++)).
      do 7 f_equal. lia. }
  intros [] h' ->. apply wp_ret. split; [done|]. exists datas.
  split; [done|]. split.
  { split; [lia|]. split; [intros i s Hi; by destruct
      (lookup_lt_is_Some_2 datas i) as [d Hd];
      [lia|apply (Hok i d); [lia|done]]|].
    split; [|rewrite len_icoBytes; solve_len].
    intros i d Hd. unfold headerSize, dirEntrySize. rewrite <-HNdatas.
    apply Hok; [|done]. apply lookup_lt_Some in Hd. lia. }
  rewrite Nat.add_0_l, take_ge by lia.
  replace (Z.to_nat total - 6 - 16 * N - length (concat datas))%nat
    with 0%nat by lia.
  cbn [replicate]. unfold icoBytes.
  rewrite app_nil_r, <-HNdatas, <-!(assoc_L (++)). done.
Qed.
End createIco_run.

Section createIco_facts.
Context `{Platform} (h0 : heap) (pngBuffers : list ref) (sizes : list Z).

Lemma deref_unique (datas datas' : list bytes) :
  deref h0 pngBuffers datas → deref h0 pngBuffers datas' → datas = datas'.
Proof. intros Hd Hd'. eapply Forall2_unique; [done..|]. intros; congruence. Qed.

Lemma createIco_returned h' buffer :
  createIco pngBuffers sizes h0 = (h', inr buffer) →
  buffer = length h0
  ∧ ∃ datas, deref h0 pngBuffers datas ∧ icoFits sizes datas
             ∧ h' = h0 ++ [icoBytes sizes datas].
Proof. apply (wp_returned _ _ _ _ _ _ (createIco_wp h0 pngBuffers sizes)). Qed.

Lemma createIco_thrown h' e :
  createIco pngBuffers sizes h0 = (h', inl e) →
  (∀ datas, deref h0 pngBuffers datas → ¬ icoFits sizes datas)
  ∧ ∃ hs, h' = h0 ++ hs.
Proof. apply (wp_thrown _ _ _ _ _ _ (createIco_wp h0 pngBuffers sizes)). Qed.

Lemma createIco_returns datas :
  deref h0 pngBuffers datas → icoFits sizes datas →
  createIco pngBuffers sizes h0
  = (h0 ++ [icoBytes sizes datas], inr (length h0)).
Proof.
  intros Hd Hfit.
  destruct (createIco pngBuffers sizes h0) as [h' [e|buffer]] eqn:Hrun.
  - apply createIco_thrown in Hrun as [Hno _]. by destruct (Hno datas).
  - apply createIco_returned in Hrun as (-> & datas' & Hd' & _ & ->).
    by rewrite (deref_unique _ _ Hd Hd').
Qed.
End createIco_facts.

(** ** [createIcns] *)

Lemma len_concat_elem_of (c : bytes) (cs : list bytes) :
  c ∈ cs → len c ≤ len (concat cs).
Proof.
  intros (cs1 & cs2 & ->)%list_elem_of_split.
  rewrite concat_app, concat_cons, !len_app. unfold len. lia.
Qed.

Lemma len_icnsBytes cs : len (icnsBytes cs) = 8 + len (concat cs).
Proof. unfold icnsBytes. rewrite !len_app. unfold len. simpl. lia. Qed.

Lemma len_icnsChunk typeCode d :
  length (charCodes typeCode) = 4%nat → len (icnsChunk typeCode d) = 8 + len d.
Proof.
  intros Hc. unfold icnsChunk. rewrite !len_app. unfold len. rewrite Hc.
  simpl. lia.
Qed.

Section createIcns_run.
Context `{Platform} (h0 : heap) (pngsBySize : gmap Z ref).
Context (Hvalid : validRefs h0 pngsBySize).

Lemma icnsChunks_cons_Some size typeCode entries n png d :
  parseInt size = Some n → pngsBySize !! n = Some png → h0 !! png = Some d →
  icnsChunks h0 ((size, typeCode) :: entries) pngsBySize
  = icnsChunk typeCode d :: icnsChunks h0 entries pngsBySize.
Proof.
  intros Hn Hpng Hd. unfold icnsChunks, icnsSelected. simpl. rewrite Hn.
  simpl. rewrite Hpng. simpl. by rewrite Hd.
Qed.

Lemma icnsChunks_cons_None size typeCode entries :
  (parseInt size ≫= λ n, pngsBySize !! n) = None →
  icnsChunks h0 ((size, typeCode) :: entries) pngsBySize
  = icnsChunks h0 entries pngsBySize.
Proof.
  intros Hnone. unfold icnsChunks, icnsSelected. simpl.
  destruct (parseInt size) as [n|]; simpl in *; [|done]. by rewrite Hnone.
Qed.

Lemma chunksLoop_wp entries :
  Forall (λ e, length (charCodes e.2) = 4%nat) entries →
  ∀ cs,
    wp (chunksLoop entries pngsBySize (seq (length h0) (length cs)))
       (λ chunks h',
          let cs' := cs ++ icnsChunks h0 entries pngsBySize in
          chunks = seq (length h0) (length cs') ∧ h' = h0 ++ cs')
       (λ _ h',
          (∃ c, c ∈ icnsChunks h0 entries pngsBySize
                ∧ (4294967295 < len c ∨ kMaxLength < len c))
          ∧ ∃ hs, h' = h0 ++ hs)
       (h0 ++ cs).
Proof.
  induction 1 as [|[size typeCode] entries Hcode _ IH]; intros cs.
  { apply wp_ret. simpl. by rewrite app_nil_r. }
  cbn [chunksLoop snd] in *.
  destruct (parseInt size ≫= λ n, pngsBySize !! n) as [png|] eqn:Hpng.
  2:{ rewrite icnsChunks_cons_None by done. apply IH. }
  destruct (parseInt size) as [n|] eqn:Hn; [|done].
  cbn [mbind option_bind] in Hpng.
  destruct (Hvalid _ _ Hpng) as [d Hd].
  rewrite (icnsChunks_cons_Some _ _ _ _ _ _ Hn Hpng Hd).
  pose proof (len_icnsChunk typeCode d Hcode) as Hlen.
  assert (icnsChunk typeCode d
            ∈ icnsChunk typeCode d :: icnsChunks h0 entries pngsBySize)
    as Hin by left.
  apply wp_bind. apply wp_Buffer_length with (buf := d); [done|].
  apply wp_bind. apply wp_Buffer_alloc; [unfold len; lia| |intros Hmax].
  { split; [|by eexists]. eexists; split; [exact Hin|]. lia. }
  rewrite (assoc_L (++)).
  apply wp_bind. apply wp_write; [unfold len; lia|done|].
  apply wp_bind. apply wp_writeUInt32BE; [unfold len; lia..|].
  destruct (out_of_range (Some (8 + len d)) 0 4294967295) eqn:Hr.
  { split; [|rewrite <-(assoc_L (++)); by eexists].
    eexists; split; [exact Hin|]. simpl in Hr.
    apply orb_true_iff in Hr as [?%Z.ltb_lt|?%Z.ltb_lt]; unfold len in *; lia. }
  apply wp_bind. eapply wp_copy;
    [rewrite len_app; unfold len; rewrite Hcode; simpl; lia
    |by apply lookup_app_l_Some|unfold len; lia|].
  replace (Z.to_nat (8 + len d) - 4 - 4 - length d)%nat with 0%nat
    by (unfold len; lia).
  replace (seq (length h0) (length cs) ++ [length (h0 ++ cs)])
    with (seq (length h0) (length (cs ++ [icnsChunk typeCode d])))
    by (rewrite !length_app, Nat.add_1_r; apply seq_S).
  replace ((h0 ++ cs) ++ [((charCodes typeCode
                              ++ be32 (default 0 (Some (8 + len d)))) ++ d)
                          ++ replicate 0 0])
    with (h0 ++ cs ++ [icnsChunk typeCode d])
    by (cbn [replicate]; unfold icnsChunk;
        by rewrite app_nil_r, <-!(assoc_L (++))).
  eapply wp_mono; [apply IH| |].
  - intros chunks h'. cbv zeta. by rewrite <-!(assoc_L (++)).
  - intros _ h' [(c & Hc & Hbig) Hh']. split; [|done].
    exists c. split; [by right|done].
Qed.

Lemma reduceLengths_wp Q E cs : ∀ hp sum,
  Q (sum + len (concat cs)) (hp ++ cs) →
  wp (reduceLengths (seq (length hp) (length cs)) sum) Q E (hp ++ cs).
Proof.
  induction cs as [|c cs IH]; intros hp sum HQ.
  { apply wp_ret. by rewrite Z.add_0_r in HQ. }
  cbn [length seq reduceLengths]. apply wp_bind.
  unfold wp at 1, Buffer_length. rewrite list_lookup_middle by done.
  replace (S (length hp)) with (length (hp ++ [c]))
    by (rewrite length_app; simpl; lia).
  replace (hp ++ c :: cs) with ((hp ++ [c]) ++ cs)
    by (by rewrite <-(assoc_L (++))).
  apply IH. rewrite concat_cons, len_app in HQ.
  by rewrite <-(assoc_L (++)), <-Z.add_assoc.
Qed.

Lemma copyChunks_wp Q E hp cs2 : ∀ cs1 A k offset,
  offset = len A →
  (length (concat cs2) ≤ k)%nat →
  Q (offset + len (concat cs2))
    ((hp ++ cs1 ++ cs2)
       ++ [(A ++ concat cs2) ++ replicate (k - length (concat cs2)) 0]) →
  wp (copyChunks (length (hp ++ cs1 ++ cs2))
        (seq (length hp + length cs1) (length cs2)) offset)
     Q E ((hp ++ cs1 ++ cs2) ++ [A ++ replicate k 0]).
Proof.
  induction cs2 as [|c cs2 IH]; intros cs1 A k offset Hoffset Hk HQ.
  { apply wp_ret. revert HQ. unfold len. cbn [concat length Z.of_nat].
    by rewrite (app_nil_r A), Z.add_0_r, Nat.sub_0_r. }
  cbn [length seq copyChunks].
  assert ((hp ++ cs1 ++ c :: cs2) !! (length hp + length cs1)%nat = Some c)
    as Hc by (rewrite (assoc_L (++)); apply list_lookup_middle;
              by rewrite length_app).
  rewrite concat_cons, length_app in Hk.
  apply wp_bind. eapply wp_copy; [done|exact Hc|lia|].
  apply wp_bind. eapply (wp_Buffer_length _ [_]); [exact Hc|].
  revert HQ. rewrite concat_cons, length_app, len_app.
  replace (cs1 ++ c :: cs2) with ((cs1 ++ [c]) ++ cs2)
    by (by rewrite <-(assoc_L (++))).
  replace (S (length hp + length cs1))
    with (length hp + length (cs1 ++ [c]))%nat
    by (rewrite length_app; simpl; lia).
  intros HQ. apply IH; [rewrite len_app; lia|lia|].
  revert HQ. rewrite <-!(assoc_L (++)), Z.add_assoc.
  by replace (k - length c - length (concat cs2))%nat
    with (k - (length c + length (concat cs2)))%nat by lia.
Qed.

Lemma createIcns_wp :
  let cs := icnsChunks h0 icnsTypes pngsBySize in
  wp (createIcns pngsBySize)
     (λ icns h',
        icns = (length h0 + length cs)%nat ∧ icnsFits cs
        ∧ h' = h0 ++ cs ++ [icnsBytes cs])
     (λ _ h', ¬ icnsFits cs ∧ ∃ hs, h' = h0 ++ hs)
     h0.
Proof.
  intros cs. unfold createIcns. apply wp_bind.
  assert (Forall (λ e, length (charCodes e.2) = 4%nat) icnsTypes) as Hcodes
    by (by repeat constructor).
  pose proof (chunksLoop_wp icnsTypes Hcodes []) as Hloop.
  rewrite app_nil_r in Hloop. cbn [length seq app] in Hloop. fold cs in Hloop.
  eapply wp_mono; [exact Hloop| |].
  2:{ intros _ h' [(c & Hc & Hbig) Hh']. split; [|done]. intros [Hf1 Hf2].
      rewrite len_icnsBytes in *. pose proof (len_concat_elem_of c cs Hc).
      lia. }
  intros chunks h' [-> ->]. clear Hloop.
  apply wp_bind, reduceLengths_wp. rewrite Z.add_0_l.
  apply wp_bind, wp_Buffer_alloc; [unfold len; lia| |intros Hmax].
  { split; [|by eexists]. intros [_ Hf]. rewrite len_icnsBytes in Hf. lia. }
  apply wp_bind. apply wp_write; [unfold len; lia|done|].
  apply wp_bind. apply wp_writeUInt32BE; [done|unfold len; lia|].
  destruct (out_of_range (Some (8 + len (concat cs))) 0 4294967295) eqn:Hr.
  { split; [|rewrite <-(assoc_L (++)); by eexists]. intros [Hf _].
    rewrite len_icnsBytes in Hf. simpl in Hr.
    apply orb_true_iff in Hr as [?%Z.ltb_lt|?%Z.ltb_lt]; unfold len in *; lia. }
  simpl in Hr. apply orb_false_iff in Hr as [Hr%Z.ltb_ge _].
  apply wp_bind.
  replace (seq (length h0) (length cs))
    with (seq (length h0 + length (@nil bytes)) (length cs))
    by (simpl; by rewrite Nat.add_0_r).
  apply (copyChunks_wp _ _ h0 cs []); [done|unfold len; lia|].
  apply wp_ret. split; [by rewrite length_app|].
  split; [split; rewrite len_icnsBytes; lia|].
  replace (Z.to_nat (8 + len (concat cs)) - 4 - 4 - length (concat cs))%nat
    with 0%nat by (unfold len; lia).
  cbn [replicate app]. unfold icnsBytes.
  by rewrite app_nil_r, <-!(assoc_L (++)).
Qed.

End createIcns_run.

(** ** Reading fields back *)

Lemma at_app_mid A e rest offset j x :
  e !! j = Some x → offset = len A + Z.of_nat j →
  at_ (A ++ e ++ rest) offset = Some x.
Proof.
  unfold at_, len. intros He ->.
  destruct (Z.ltb_spec (Z.of_nat (length A) + Z.of_nat j) 0); [lia|].
  replace (Z.to_nat _) with (length A + j)%nat by lia.
  rewrite lookup_app_r by lia.
  replace (length A + j - length A)%nat with j by lia.
  by apply lookup_app_l_Some.
Qed.

Lemma land_255 v : Z.land v 255 = v mod 256.
Proof. apply (Z.land_ones v 8). lia. Qed.

Lemma shiftr_8 v : Z.shiftr v 8 = v / 256.
Proof. apply (Z.shiftr_div_pow2 v 8). lia. Qed.

Lemma readUInt16LE_le16 A rest v offset :
  0 ≤ v ≤ 65535 → offset = len A →
  readUInt16LE (A ++ le16 v ++ rest) offset = Some v.
Proof.
  intros Hv ->. unfold readUInt16LE.
  rewrite (at_app_mid A (le16 v) rest (len A) 0 _ eq_refl) by lia.
  rewrite (at_app_mid A (le16 v) rest (len A + 1) 1 _ eq_refl) by lia.
  simpl. rewrite !land_255, !shiftr_8. f_equal. Z.div_mod_to_equations. lia.
Qed.

Lemma readUInt32LE_le32 A rest v offset :
  0 ≤ v ≤ 4294967295 → offset = len A →
  readUInt32LE (A ++ le32 v ++ rest) offset = Some v.
Proof.
  intros Hv ->. unfold readUInt32LE.
  rewrite (at_app_mid A (le32 v) rest (len A) 0 _ eq_refl) by lia.
  rewrite (at_app_mid A (le32 v) rest (len A + 1) 1 _ eq_refl) by lia.
  rewrite (at_app_mid A (le32 v) rest (len A + 2) 2 _ eq_refl) by lia.
  rewrite (at_app_mid A (le32 v) rest (len A + 3) 3 _ eq_refl) by lia.
  simpl. rewrite !land_255, !shiftr_8. f_equal. Z.div_mod_to_equations. lia.
Qed.

Lemma readUInt32BE_be32 A rest v offset :
  0 ≤ v ≤ 4294967295 → offset = len A →
  readUInt32BE (A ++ be32 v ++ rest) offset = Some v.
Proof.
  intros Hv ->. unfold readUInt32BE.
  rewrite (at_app_mid A (be32 v) rest (len A) 0 _ eq_refl) by lia.
  rewrite (at_app_mid A (be32 v) rest (len A + 1) 1 _ eq_refl) by lia.
  rewrite (at_app_mid A (be32 v) rest (len A + 2) 2 _ eq_refl) by lia.
  rewrite (at_app_mid A (be32 v) rest (len A + 3) 3 _ eq_refl) by lia.
  simpl. rewrite !land_255, !shiftr_8. f_equal. Z.div_mod_to_equations. lia.
Qed.

(** Where entry [i] and the data of image [i] sit in the container. *)
Lemma icoBytes_entry sizes datas i d :
  datas !! i = Some d →
  ∃ A rest,
    icoBytes sizes datas
    = A ++ dirEntry (sizes !! i) (len d)
             (headerSize + dirEntrySize * Z.of_nat (length datas)
              + len (concat (take i datas))) ++ rest
    ∧ len A = headerSize + dirEntrySize * Z.of_nat i.
Proof.
  intros Hd. pose proof (lookup_icoDirectory sizes _ _ _ Hd) as He.
  exists (icoHeader (Z.of_nat (length datas))
            ++ concat (take i (icoDirectory sizes datas))),
         (concat (drop (S i) (icoDirectory sizes datas)) ++ concat datas).
  split.
  - unfold icoBytes. rewrite <-(take_drop_middle _ _ _ He) at 1.
    by rewrite concat_app, concat_cons, <-!(assoc_L (++)).
  - rewrite len_app. unfold len, headerSize, dirEntrySize.
    rewrite length_concat_take_icoDirectory
      by (apply lookup_lt_Some in Hd; lia).
    simpl. lia.
Qed.

Lemma icoBytes_data sizes datas i d :
  datas !! i = Some d →
  ∃ A rest,
    icoBytes sizes datas = A ++ d ++ rest
    ∧ len A = headerSize + dirEntrySize * Z.of_nat (length datas)
              + len (concat (take i datas)).
Proof.
  intros Hd.
  exists (icoHeader (Z.of_nat (length datas))
            ++ concat (icoDirectory sizes datas) ++ concat (take i datas)),
         (concat (drop (S i) datas)).
  split.
  - assert (concat datas
            = concat (take i datas) ++ d ++ concat (drop (S i) datas)) as Heq
      by (rewrite <-(take_drop_middle _ _ _ Hd) at 1;
          by rewrite concat_app, concat_cons).
    unfold icoBytes. rewrite Heq. by rewrite <-!(assoc_L (++)).
  - rewrite !len_app. unfold len, headerSize, dirEntrySize.
    rewrite length_concat_icoDirectory. simpl. lia.
Qed.

(** ** The Windows container: what [createIco] returns *)

Lemma createIco_returned_bytes `{Platform} h0 pngBuffers sizes h' buffer :
  createIco pngBuffers sizes h0 = (h', inr buffer) →
  ∃ datas, deref h0 pngBuffers datas ∧ icoFits sizes datas
           ∧ h' !! buffer = Some (icoBytes sizes datas).
Proof.
  intros (-> & datas & Hd & Hfit & ->)%createIco_returned.
  exists datas. by rewrite list_lookup_middle.
Qed.

Lemma createIco_refuses_large `{Platform} h0 pngBuffers sizes datas i d :
  deref h0 pngBuffers datas → datas !! i = Some d → 4294967295 < len d →
  ¬ ∃ h' buffer, createIco pngBuffers sizes h0 = (h', inr buffer).
Proof.
  intros Hd Hi Hbig (h' & buffer & Hrun).
  apply createIco_returned in Hrun as (_ & datas' & Hd' & Hfit & _).
  rewrite <-(deref_unique _ _ _ _ Hd Hd') in Hfit.
  destruct Hfit as (_ & _ & Hfit & _). destruct (Hfit _ _ Hi). lia.
Qed.

(** C1, as amended.  For a non-empty list of N images (1 ≤ N ≤ 65535) with
    distinct sizes in 1..65535, whose data lengths and data offsets each fit
    32 bits and whose container is no longer than a buffer may be,
    [createIco] returns a new buffer of length 6 + 16×N + the sum of the data
    lengths, and its first six bytes read, as little-endian 16-bit fields,
    reserved = 0, type = 1 and count = N. *)
Theorem createIco_length_and_header `{Platform} h0 pngBuffers sizes datas :
  deref h0 pngBuffers datas →
  length sizes = length pngBuffers →
  Forall (λ s, 1 ≤ s ≤ 65535) sizes →
  NoDup sizes →
  1 ≤ Z.of_nat (length pngBuffers) ≤ 65535 →
  (∀ i d, datas !! i = Some d →
     len d ≤ 4294967295
     ∧ 6 + 16 * Z.of_nat (length pngBuffers) + len (concat (take i datas))
       ≤ 4294967295) →
  6 + 16 * Z.of_nat (length pngBuffers) + len (concat datas) ≤ kMaxLength →
  ∃ bytes,
    createIco pngBuffers sizes h0 = (h0 ++ [bytes], inr (length h0))
    ∧ len bytes = 6 + 16 * Z.of_nat (length pngBuffers) + len (concat datas)
    ∧ readUInt16LE bytes 0 = Some 0
    ∧ readUInt16LE bytes 2 = Some 1
    ∧ readUInt16LE bytes 4 = Some (Z.of_nat (length pngBuffers)).
Proof.
  intros Hd Hsizes Hrange _ HN Hfields Htotal.
  pose proof (Forall2_length _ _ _ Hd) as Hlen.
  exists (icoBytes sizes datas). split; [|split].
  - apply createIco_returns; [done|]. unfold icoFits, headerSize, dirEntrySize.
    rewrite len_icoBytes, <-Hlen. unfold headerSize, dirEntrySize.
    split; [lia|]. split; [|done].
    intros i s _ Hs. rewrite Forall_lookup in Hrange.
    specialize (Hrange _ _ Hs). simpl in Hrange. lia.
  - rewrite len_icoBytes, <-Hlen. done.
  - unfold icoBytes, icoHeader. rewrite <-Hlen. split; [done|]. split; [done|].
    rewrite <-!(assoc_L (++)).
    apply (readUInt16LE_le16 [0; 0; 1; 0]); [lia|done].
Qed.

Lemma createIco_length_and_header_witness :
  ∃ bytes,
    createIco (H := node22) [0%nat; 1%nat] [16; 256] [[1; 2; 3]; [4; 5]]
    = ([[1; 2; 3]; [4; 5]] ++ [bytes], inr 2%nat)
    ∧ len bytes = 6 + 16 * 2 + 5
    ∧ readUInt16LE bytes 0 = Some 0
    ∧ readUInt16LE bytes 2 = Some 1
    ∧ readUInt16LE bytes 4 = Some 2.
Proof.
  apply (createIco_length_and_header (H := node22)
           [[1; 2; 3]; [4; 5]] [0%nat; 1%nat] [16; 256] [[1; 2; 3]; [4; 5]]).
  - by repeat constructor.
  - reflexivity.
  - repeat constructor; lia.
  - compute_done.
  - simpl; lia.
  - intros [|[|i]] d [= <-]; vm_compute; split; discriminate.
  - vm_compute. discriminate.
Defined.

(** C1, as stated, fails: one image whose data is 4 GiB long (N = 1, sizes
    distinct) makes [createIco] throw, on a platform where such a buffer
    exists. *)
Lemma createIco_refuses_4GiB_image :
  deref [replicate (Z.to_nat 4294967296) 0] [0%nat]
        [replicate (Z.to_nat 4294967296) 0]
  ∧ 1 ≤ Z.of_nat (length [0%nat]) ≤ 65535
  ∧ NoDup [16]
  ∧ ¬ ∃ h' buffer,
        createIco (H := node22) [0%nat] [16]
          [replicate (Z.to_nat 4294967296) 0] = (h', inr buffer).
Proof.
  assert (deref [replicate (Z.to_nat 4294967296) 0] [0%nat]
            [replicate (Z.to_nat 4294967296) 0]) as Hd
    by (constructor; [reflexivity|constructor]).
  split; [exact Hd|]. split; [cbn [length]; lia|].
  split; [apply NoDup_singleton|].
  apply (createIco_refuses_large _ _ _ _ 0 _ Hd eq_refl).
  unfold len. rewrite length_replicate, Z2Nat.id; lia.
Qed.

Lemma createIco_entry_bytes `{Platform} h0 pngBuffers sizes h' buffer i :
  createIco pngBuffers sizes h0 = (h', inr buffer) →
  (i < length pngBuffers)%nat →
  ∃ datas d bytes A rest,
    deref h0 pngBuffers datas ∧ icoFits sizes datas ∧ datas !! i = Some d
    ∧ h' !! buffer = Some bytes
    ∧ bytes = A ++ dirEntry (sizes !! i) (len d)
                     (6 + 16 * Z.of_nat (length datas)
                      + len (concat (take i datas))) ++ rest
    ∧ len A = 6 + 16 * Z.of_nat i.
Proof.
  intros (datas & Hd & Hfit & Hbytes)%createIco_returned_bytes Hi.
  destruct (lookup_lt_is_Some_2 datas i) as [d Hdi];
    [by rewrite <-(Forall2_length _ _ _ Hd)|].
  destruct (icoBytes_entry sizes _ _ _ Hdi) as (A & rest & HA & HlenA).
  by exists datas, d, (icoBytes sizes datas), A, rest.
Qed.

(** C3.  In the buffer [createIco] returns, the width byte and the height
    byte of the directory entry of an image of size 256 are 0, and those of
    an image of a size in 1..255 are that size. *)
Theorem createIco_width_height_bytes `{Platform} h0 pngBuffers sizes h' buffer
    i s :
  createIco pngBuffers sizes h0 = (h', inr buffer) →
  (i < length pngBuffers)%nat → sizes !! i = Some s →
  ∃ bytes,
    h' !! buffer = Some bytes
    ∧ (s = 256 →
       readUInt8 bytes (6 + 16 * Z.of_nat i) = Some 0
       ∧ readUInt8 bytes (6 + 16 * Z.of_nat i + 1) = Some 0)
    ∧ (1 ≤ s ≤ 255 →
       readUInt8 bytes (6 + 16 * Z.of_nat i) = Some s
       ∧ readUInt8 bytes (6 + 16 * Z.of_nat i + 1) = Some s).
Proof.
  intros Hrun Hi Hs.
  destruct (createIco_entry_bytes _ _ _ _ _ _ Hrun Hi)
    as (datas & d & bytes & A & rest & _ & _ & _ & Hbytes & -> & HA).
  eexists. split; [exact Hbytes|]. rewrite Hs. unfold readUInt8. split.
  - intros ->. split; eapply at_app_mid;
      [by instantiate (1 := 0%nat)|lia|by instantiate (1 := 1%nat)|lia].
  - intros Hrange.
    assert (Z.land (default 0 (clampDim (Some s))) 255 = s) as Hbyte.
    { simpl. destruct (Z.leb_spec 256 s); [lia|]. simpl.
      rewrite land_255. apply Z.mod_small. lia. }
    split; eapply at_app_mid;
      [instantiate (1 := 0%nat)|lia|instantiate (1 := 1%nat)|lia];
      cbn [dirEntry app lookup list_lookup]; by rewrite Hbyte.
Qed.

Lemma createIco_width_height_bytes_witness :
  ∃ bytes,
    [[1; 2; 3]; [4; 5]; icoBytes [16; 256] [[1; 2; 3]; [4; 5]]] !! 2%nat
    = Some bytes
    ∧ (256 = 256 →
       readUInt8 bytes (6 + 16 * Z.of_nat 1) = Some 0
       ∧ readUInt8 bytes (6 + 16 * Z.of_nat 1 + 1) = Some 0)
    ∧ (1 ≤ 256 ≤ 255 →
       readUInt8 bytes (6 + 16 * Z.of_nat 1) = Some 256
       ∧ readUInt8 bytes (6 + 16 * Z.of_nat 1 + 1) = Some 256).
Proof.
  apply (createIco_width_height_bytes (H := node22)
           [[1; 2; 3]; [4; 5]] [0%nat; 1%nat] [16; 256] _ _ 1 256).
  - vm_compute. reflexivity.
  - simpl. lia.
  - reflexivity.
Defined.

(** C4.  In the buffer [createIco] returns, the dataOffset field of entry i
    reads 6 + 16×N + the data lengths of the entries before i, its dataSize
    field reads the length of the data of image i, that data stands at that
    offset, and the data block after the directory is the images' data in
    input order with nothing between. *)
Theorem createIco_directory_offsets_and_data `{Platform} h0 pngBuffers sizes
    datas h' buffer i d :
  createIco pngBuffers sizes h0 = (h', inr buffer) →
  deref h0 pngBuffers datas → datas !! i = Some d →
  ∃ bytes,
    h' !! buffer = Some bytes
    ∧ readUInt32LE bytes (6 + 16 * Z.of_nat i + 12)
      = Some (6 + 16 * Z.of_nat (length datas) + len (concat (take i datas)))
    ∧ readUInt32LE bytes (6 + 16 * Z.of_nat i + 8) = Some (len d)
    ∧ take (length d)
        (drop (Z.to_nat (6 + 16 * Z.of_nat (length datas)
                         + len (concat (take i datas)))) bytes) = d
    ∧ drop (Z.to_nat (6 + 16 * Z.of_nat (length datas))) bytes = concat datas.
Proof.
  intros (datas' & Hd' & Hfit & Hbytes)%createIco_returned_bytes Hd Hi.
  rewrite <-(deref_unique _ _ _ _ Hd Hd') in *. clear datas' Hd'.
  exists (icoBytes sizes datas). split; [done|].
  destruct Hfit as (_ & _ & Hfit & _). destruct (Hfit _ _ Hi) as [Hsize Hoff].
  unfold headerSize, dirEntrySize in *.
  destruct (icoBytes_entry sizes _ _ _ Hi) as (A & rest & HA & HlenA).
  destruct (icoBytes_data sizes _ _ _ Hi) as (B & rest' & HB & HlenB).
  unfold headerSize, dirEntrySize in *.
  split; [|split; [|split]].
  - rewrite HA. unfold dirEntry.
    rewrite <-!(assoc_L (++)), (assoc_L (++) A), (assoc_L (++) _ (le32 (len d))).
    apply readUInt32LE_le32; [unfold len in *; lia|].
    rewrite !len_app, HlenA. unfold len. simpl. lia.
  - rewrite HA. unfold dirEntry. rewrite <-!(assoc_L (++)), (assoc_L (++) A).
    apply readUInt32LE_le32; [unfold len in *; lia|].
    rewrite !len_app, HlenA. unfold len. simpl. lia.
  - rewrite HB, <-HlenB. unfold len. rewrite Nat2Z.id, drop_app_length.
    by rewrite take_app_length.
  - unfold icoBytes. rewrite (assoc_L (++)). apply drop_app_length'.
    rewrite length_app, length_concat_icoDirectory. simpl. lia.
Qed.

Lemma createIco_directory_offsets_and_data_witness :
  ∃ bytes,
    [[1; 2; 3]; [4; 5]; icoBytes [16; 256] [[1; 2; 3]; [4; 5]]] !! 2%nat
    = Some bytes
    ∧ readUInt32LE bytes (6 + 16 * Z.of_nat 1 + 12)
      = Some (6 + 16 * Z.of_nat 2 + len (concat (take 1 [[1; 2; 3]; [4; 5]])))
    ∧ readUInt32LE bytes (6 + 16 * Z.of_nat 1 + 8) = Some (len [4; 5])
    ∧ take 2 (drop (Z.to_nat (6 + 16 * Z.of_nat 2
                              + len (concat (take 1 [[1; 2; 3]; [4; 5]]))))
                 bytes) = [4; 5]
    ∧ drop (Z.to_nat (6 + 16 * Z.of_nat 2)) bytes
      = concat [[1; 2; 3]; [4; 5]].
Proof.
  apply (createIco_directory_offsets_and_data (H := node22)
           [[1; 2; 3]; [4; 5]] [0%nat; 1%nat] [16; 256]
           [[1; 2; 3]; [4; 5]] _ _ 1 [4; 5]).
  - vm_compute. reflexivity.
  - by repeat constructor.
  - reflexivity.
Defined.

(** C7, as amended.  Called with an empty image list, [createIco] raises no
    error: it returns a new 6-byte buffer, the file header with count 0. *)
Theorem createIco_empty_list_returns_header `{Platform} h0 sizes :
  createIco [] sizes h0 = (h0 ++ [[0; 0; 1; 0; 0; 0]], inr (length h0)).
Proof.
  apply (createIco_returns h0 [] sizes []); [constructor|].
  split; [simpl; lia|]. split; [simpl; intros; lia|]. split; [done|].
  pose proof kMaxLength_lower as Hk. change (2 ^ 30 - 1) with 1073741823 in Hk.
  rewrite len_icoBytes. unfold headerSize, dirEntrySize, len. simpl. lia.
Qed.

(** C7, as stated, fails: on the empty list [createIco] returns six bytes
    and throws nothing. *)
Lemma createIco_empty_list_no_error :
  createIco (H := node22) [] [] [] = ([[0; 0; 1; 0; 0; 0]], inr 0%nat)
  ∧ ¬ ∃ e h', createIco (H := node22) [] [] [] = (h', inl e).
Proof. split; [reflexivity|]. by intros (e & h' & [=]). Qed.

Lemma icoBytes_ext sizes sizes' datas :
  (∀ i, (i < length datas)%nat → clampDim (sizes !! i) = clampDim (sizes' !! i)) →
  icoBytes sizes datas = icoBytes sizes' datas.
Proof.
  intros Hclamp. unfold icoBytes, icoDirectory. do 3 f_equal.
  apply list_eq. intros i. rewrite !list_lookup_imap.
  destruct (datas !! i) as [d|] eqn:Hd; [simpl|done].
  unfold dirEntry. by rewrite Hclamp by (by eapply lookup_lt_Some).
Qed.

Lemma icoFits_resize `{Platform} sizes datas i s s' :
  sizes !! i = Some s → 0 ≤ s' →
  icoFits sizes datas → icoFits (<[i := s']> sizes) datas.
Proof.
  intros Hs Hs' (HN & Hsizes & Hdata & Htotal).
  split; [done|]. split; [|split; [done|by rewrite len_icoBytes in *]].
  intros j s0 Hj. destruct (decide (i = j)) as [->|].
  - rewrite list_lookup_insert_eq by (by eapply lookup_lt_Some).
    intros [= <-]. done.
  - rewrite list_lookup_insert_ne by done. by apply Hsizes.
Qed.

(** C9.  For an image of any size from 256 up (300, 512, 1024, not only 256):
    the size raises no error, for when the images fit the container (as
    [icoFits] says: their count, their data lengths and offsets) [createIco]
    returns; in the buffer it returns the width byte and the height byte of
    that directory entry are 0, and the same buffer is returned for every
    other size from 256 up, so these sizes cannot be told apart.  And when
    [createIco] throws, it throws whatever the size of that image is. *)
Theorem createIco_sizes_from_256_written_as_zero `{Platform} h0 pngBuffers
    sizes i s :
  sizes !! i = Some s → 256 ≤ s → (i < length pngBuffers)%nat →
  (∀ datas,
     deref h0 pngBuffers datas → icoFits sizes datas →
     createIco pngBuffers sizes h0
     = (h0 ++ [icoBytes sizes datas], inr (length h0))
     ∧ readUInt8 (icoBytes sizes datas) (6 + 16 * Z.of_nat i) = Some 0
     ∧ readUInt8 (icoBytes sizes datas) (6 + 16 * Z.of_nat i + 1) = Some 0
     ∧ ∀ s', 256 ≤ s' →
         createIco pngBuffers (<[i := s']> sizes) h0
         = (h0 ++ [icoBytes sizes datas], inr (length h0)))
  ∧ (∀ h' buffer,
       createIco pngBuffers sizes h0 = (h', inr buffer) →
       (∃ bytes,
          h' !! buffer = Some bytes
          ∧ readUInt8 bytes (6 + 16 * Z.of_nat i) = Some 0
          ∧ readUInt8 bytes (6 + 16 * Z.of_nat i + 1) = Some 0)
       ∧ ∀ s', 256 ≤ s' →
           createIco pngBuffers (<[i := s']> sizes) h0 = (h', inr buffer))
  ∧ (∀ h' e s',
       createIco pngBuffers sizes h0 = (h', inl e) →
       ∃ h'' e', createIco pngBuffers (<[i := s']> sizes) h0 = (h'', inl e')).
Proof.
  intros Hs Hge Hi.
  assert (∀ h' buffer,
            createIco pngBuffers sizes h0 = (h', inr buffer) →
            (∃ bytes,
               h' !! buffer = Some bytes
               ∧ readUInt8 bytes (6 + 16 * Z.of_nat i) = Some 0
               ∧ readUInt8 bytes (6 + 16 * Z.of_nat i + 1) = Some 0)
            ∧ ∀ s', 256 ≤ s' →
                createIco pngBuffers (<[i := s']> sizes) h0 = (h', inr buffer))
    as Hreturned.
  { intros h' buffer Hrun. split.
    + destruct (createIco_entry_bytes _ _ _ _ _ _ Hrun Hi)
        as (datas & d & bs & A & rest & _ & _ & _ & Hbytes & -> & HA).
      eexists. split; [exact Hbytes|]. rewrite Hs. unfold readUInt8.
      assert (Z.land (default 0 (clampDim (Some s))) 255 = 0) as Hbyte
        by (simpl; by destruct (Z.leb_spec 256 s); [|lia]).
      split; eapply at_app_mid;
        [instantiate (1 := 0%nat)|lia|instantiate (1 := 1%nat)|lia];
        cbn [dirEntry app lookup list_lookup]; by rewrite Hbyte.
    + intros s' Hs'.
      apply createIco_returned in Hrun as (-> & datas & Hd & Hfit & ->).
      rewrite (icoBytes_ext sizes (<[i := s']> sizes) datas).
      { apply createIco_returns; [done|]. eapply icoFits_resize; [done|lia|done]. }
      intros j _. destruct (decide (i = j)) as [<-|].
      * rewrite list_lookup_insert_eq by (by eapply lookup_lt_Some).
        rewrite Hs. simpl.
        by destruct (Z.leb_spec 256 s), (Z.leb_spec 256 s'); try lia.
      * by rewrite list_lookup_insert_ne. }
  split; [|split; [exact Hreturned|]].
  - intros datas Hd Hfit.
    pose proof (createIco_returns _ _ _ _ Hd Hfit) as Hrun.
    destruct (Hreturned _ _ Hrun) as [(bytes & Hbytes & Hwidth & Hheight) Hsame].
    rewrite list_lookup_middle in Hbytes by done.
    injection Hbytes as <-. done.
  - intros h' e s' Hrun.
    destruct (createIco pngBuffers (<[i := s']> sizes) h0)
      as [h'' [e'|buffer]] eqn:Hrun'; [by eauto|].
    apply createIco_returned in Hrun' as (_ & datas & Hd & Hfit & _).
    apply createIco_thrown in Hrun as [Hno _]. destruct (Hno _ Hd).
    assert (sizes = <[i := s]> (<[i := s']> sizes)) as ->
      by (by rewrite list_insert_insert_eq, list_insert_id).
    eapply icoFits_resize; [|lia|done].
    apply list_lookup_insert_eq. by eapply lookup_lt_Some.
Qed.

Lemma createIco_sizes_from_256_written_as_zero_witness :
  (createIco (H := node22) [0%nat; 1%nat] [16; 300] [[1; 2; 3]; [4; 5]]
   = ([[1; 2; 3]; [4; 5]; icoBytes [16; 300] [[1; 2; 3]; [4; 5]]], inr 2%nat)
   ∧ readUInt8 (icoBytes [16; 300] [[1; 2; 3]; [4; 5]]) 22 = Some 0
   ∧ readUInt8 (icoBytes [16; 300] [[1; 2; 3]; [4; 5]]) 23 = Some 0
   ∧ ∀ s', 256 ≤ s' →
       createIco (H := node22) [0%nat; 1%nat] (<[1%nat := s']> [16; 300])
         [[1; 2; 3]; [4; 5]]
       = ([[1; 2; 3]; [4; 5]; icoBytes [16; 300] [[1; 2; 3]; [4; 5]]],
          inr 2%nat))
  ∧ ∀ h' e s',
      createIco (H := node22) [0%nat; 1%nat] [16; 300] [[1; 2; 3]; [4; 5]]
      = (h', inl e) →
      ∃ h'' e',
        createIco (H := node22) [0%nat; 1%nat] (<[1%nat := s']> [16; 300])
          [[1; 2; 3]; [4; 5]] = (h'', inl e').
Proof.
  destruct (createIco_sizes_from_256_written_as_zero (H := node22)
              [[1; 2; 3]; [4; 5]] [0%nat; 1%nat] [16; 300] 1 300)
    as (Hreturns & _ & Hthrows); [reflexivity|lia|simpl; lia|].
  split; [|exact Hthrows].
  apply (Hreturns [[1; 2; 3]; [4; 5]]).
  - by repeat constructor.
  - split; [simpl; lia|]. split; [|split].
    + intros [|[|j]] s0 _ [= <-]; lia.
    + intros [|[|j]] d [= <-]; vm_compute; split; discriminate.
    + vm_compute. discriminate.
Defined.

(** ** The Apple container: what [createIcns] returns *)

Section createIcns_facts.
Context `{Platform} (h0 : heap) (pngsBySize : gmap Z ref).
Context (Hvalid : validRefs h0 pngsBySize).

Lemma createIcns_returned h' icns :
createIcns pngsBySize h0 = (h', inr icns) →
icnsFits (icnsChunks h0 icnsTypes pngsBySize)
∧ h' !! icns = Some (icnsBytes (icnsChunks h0 icnsTypes pngsBySize))
∧ ∃ hs, h' = h0 ++ hs.
Proof.
intros Hrun.
destruct (wp_returned _ _ _ _ _ _ (createIcns_wp h0 pngsBySize Hvalid) Hrun)
  as (-> & Hfit & ->).
split; [done|]. split; [|by eexists].
rewrite (assoc_L (++)). apply list_lookup_middle. by rewrite length_app.
Qed.

Lemma createIcns_thrown h' e :
createIcns pngsBySize h0 = (h', inl e) →
¬ icnsFits (icnsChunks h0 icnsTypes pngsBySize) ∧ ∃ hs, h' = h0 ++ hs.
Proof. apply (wp_thrown _ _ _ _ _ _ (createIcns_wp h0 pngsBySize Hvalid)). Qed.

Lemma createIcns_returns :
icnsFits (icnsChunks h0 icnsTypes pngsBySize) →
createIcns pngsBySize h0
= (h0 ++ icnsChunks h0 icnsTypes pngsBySize
      ++ [icnsBytes (icnsChunks h0 icnsTypes pngsBySize)],
   inr (length h0 + length (icnsChunks h0 icnsTypes pngsBySize))%nat).
Proof.
intros Hfit.
destruct (createIcns pngsBySize h0) as [h' [e|icns]] eqn:Hrun.
- by apply createIcns_thrown in Hrun as [? _].
- by destruct
    (wp_returned _ _ _ _ _ _ (createIcns_wp h0 pngsBySize Hvalid) Hrun)
    as (-> & _ & ->).
Qed.
End createIcns_facts.

Lemma bind_ext {A B} (c : js A) (k k' : A → js B) h :
  (∀ a h', k a h' = k' a h') → bind c k h = bind c k' h.
Proof. intros Hk. unfold bind. by destruct (c h) as [h' [e|a]]. Qed.

(** [createIcns] looks the mapping up at the sizes of [icnsTypes] only. *)
Lemma chunksLoop_agree `{Platform} entries m m' :
  (∀ e n, e ∈ entries → parseInt e.1 = Some n → m !! n = m' !! n) →
  ∀ chunks h, chunksLoop entries m chunks h = chunksLoop entries m' chunks h.
Proof.
  induction entries as [|[size typeCode] entries IH]; intros Hagree chunks h;
    [done|].
  cbn [chunksLoop].
  assert ((parseInt size ≫= λ n, m !! n) = (parseInt size ≫= λ n, m' !! n))
    as <-.
  { destruct (parseInt size) as [n|] eqn:Hn; [|done].
    apply (Hagree (size, typeCode)); [left|done]. }
  assert (∀ chunks h, chunksLoop entries m chunks h
                      = chunksLoop entries m' chunks h) as IH'
    by (apply IH; intros e n He; apply Hagree; by right).
  destruct (parseInt size ≫= λ n, m !! n); [|done].
  do 5 (apply bind_ext; intros). apply IH'.
Qed.

Lemma elem_of_icnsSizes n :
  n ∈ icnsSizes ↔ ∃ e, e ∈ icnsTypes ∧ parseInt e.1 = Some n.
Proof. unfold icnsSizes. by rewrite list_elem_of_omap. Qed.

Lemma icnsSizes_eq : icnsSizes = [16; 32; 64; 128; 256; 512; 1024].
Proof. reflexivity. Qed.

Lemma createIcns_agree `{Platform} m m' h :
  (∀ size, size ∈ icnsSizes → m !! size = m' !! size) →
  createIcns m h = createIcns m' h.
Proof.
  intros Hagree. unfold createIcns, bind at 1 3.
  rewrite (chunksLoop_agree icnsTypes m m'); [done|].
  intros e n He Hn. apply Hagree, elem_of_icnsSizes. eauto.
Qed.

Lemma icnsSelected_agree h entries m m' :
  (∀ e n, e ∈ entries → parseInt e.1 = Some n → m !! n = m' !! n) →
  icnsSelected h entries m = icnsSelected h entries m'.
Proof.
  induction entries as [|[size typeCode] entries IH]; intros Hagree; [done|].
  unfold icnsSelected in *. cbn [omap list_omap].
  rewrite IH by (intros e n He; apply Hagree; by right).
  destruct (parseInt size) as [n|] eqn:Hn; [|done]. simpl.
  by rewrite (Hagree (size, typeCode) n) by (done || left).
Qed.

Lemma icnsChunks_agree h m m' :
  (∀ size, size ∈ icnsSizes → m !! size = m' !! size) →
  icnsChunks h icnsTypes m = icnsChunks h icnsTypes m'.
Proof.
  intros Hagree. unfold icnsChunks. f_equal. apply icnsSelected_agree.
  intros e n He Hn. apply Hagree, elem_of_icnsSizes. eauto.
Qed.

Lemma validRefs_delete h m size : validRefs h m → validRefs h (delete size m).
Proof.
  intros Hvalid size' png Hpng. apply lookup_delete_Some in Hpng as [_ Hpng].
  by eapply Hvalid.
Qed.

Lemma icnsSelected_registry h m :
  icnsSelected h icnsTypes m
  = omap (λ '(size, typeCode),
            png ← m !! size; d ← h !! png; Some (typeCode, d))
         typeCodeRegistry.
Proof. reflexivity. Qed.

Lemma typeCode_length h m typeCode d :
  (typeCode, d) ∈ icnsSelected h icnsTypes m →
  length (charCodes typeCode) = 4%nat.
Proof.
  rewrite icnsSelected_registry, list_elem_of_omap.
  intros ([size typeCode'] & Hin & Hsel).
  assert (typeCode' = typeCode) as <-.
  { destruct (m !! size) as [png|]; [simpl in Hsel|done].
    destruct (h !! png); by simplify_eq/=. }
  assert (Forall (λ e, length (charCodes e.2) = 4%nat) typeCodeRegistry)
    as Hall by (by repeat constructor).
  rewrite Forall_forall in Hall. apply (Hall _ Hin).
Qed.

(** C2.  The buffer [createIcns] returns begins with the four ASCII bytes
    [icns]; its bytes 4 to 7 read, as a big-endian 32-bit integer, the length
    of the buffer itself; after these eight bytes stand the chunks, each a
    4-byte type code, then a length field that reads, big-endian, 8 plus the
    length of the chunk's image data, then that image data. *)
Theorem createIcns_layout `{Platform} h0 pngsBySize h' icns :
  validRefs h0 pngsBySize →
  createIcns pngsBySize h0 = (h', inr icns) →
  ∃ bytes,
    h' !! icns = Some bytes
    ∧ take 4 bytes = charCodes "icns"
    ∧ readUInt32BE bytes 4 = Some (len bytes)
    ∧ drop 8 bytes
      = concat ((λ '(typeCode, d), charCodes typeCode ++ be32 (8 + len d) ++ d)
                  <$> icnsSelected h0 icnsTypes pngsBySize)
    ∧ Forall (λ '(typeCode, d),
                length (charCodes typeCode) = 4%nat
                ∧ readUInt32BE (charCodes typeCode ++ be32 (8 + len d) ++ d) 4
                  = Some (8 + len d))
             (icnsSelected h0 icnsTypes pngsBySize).
Proof.
  intros Hvalid Hrun.
  destruct (createIcns_returned _ _ Hvalid _ _ Hrun) as ([Hfit _] & Hbytes & _).
  eexists. split; [exact Hbytes|]. rewrite len_icnsBytes in *.
  split; [done|]. split; [|split; [done|]].
  - apply readUInt32BE_be32; [unfold len in *; lia|done].
  - rewrite Forall_forall. intros [typeCode d] Hin.
    pose proof (typeCode_length _ _ _ _ Hin) as Hcode. split; [done|].
    apply readUInt32BE_be32; [|unfold len; lia].
    assert (icnsChunk typeCode d ∈ icnsChunks h0 icnsTypes pngsBySize) as Hc
      by (by apply (list_elem_of_fmap_2' _ _ (typeCode, d))).
    apply len_concat_elem_of in Hc. rewrite len_icnsChunk in Hc by done.
    unfold len in *. lia.
Qed.

Lemma createIcns_layout_witness :
  ∃ bytes,
    [[1; 2; 3; 4]; [5; 6];
     icnsChunk "icp4" [1; 2; 3; 4]; icnsChunk "icp5" [5; 6];
     icnsBytes [icnsChunk "icp4" [1; 2; 3; 4]; icnsChunk "icp5" [5; 6]]]
      !! 4%nat = Some bytes
    ∧ take 4 bytes = charCodes "icns"
    ∧ readUInt32BE bytes 4 = Some (len bytes)
    ∧ drop 8 bytes
      = concat ((λ '(typeCode, d), charCodes typeCode ++ be32 (8 + len d) ++ d)
                  <$> icnsSelected [[1; 2; 3; 4]; [5; 6]] icnsTypes
                        (<[32 := 1%nat]> (<[16 := 0%nat]> ∅)))
    ∧ Forall (λ '(typeCode, d),
                length (charCodes typeCode) = 4%nat
                ∧ readUInt32BE (charCodes typeCode ++ be32 (8 + len d) ++ d) 4
                  = Some (8 + len d))
             (icnsSelected [[1; 2; 3; 4]; [5; 6]] icnsTypes
                (<[32 := 1%nat]> (<[16 := 0%nat]> ∅))).
Proof.
  apply (createIcns_layout (H := node22) [[1; 2; 3; 4]; [5; 6]]
           (<[32 := 1%nat]> (<[16 := 0%nat]> ∅))).
  - intros size png Hpng.
    apply lookup_insert_Some in Hpng as [[_ <-]|[_ Hpng]]; [by eexists|].
    apply lookup_insert_Some in Hpng as [[_ <-]|[_ Hpng]]; [by eexists|].
    by rewrite lookup_empty in Hpng.
  - vm_compute. reflexivity.
Defined.

(** C5.  A size of the input mapping that is not in the Type-Code Registry
    {16, 32, 64, 128, 256, 512, 1024} contributes no chunk and raises no
    error: the chunks are those of the mapping without that size, and when
    these fit the container (their total length fits 32 bits and a buffer)
    [createIcns] returns the container of exactly these chunks, whose total
    length field counts them only.  In every case [createIcns] runs as on the
    mapping without that size. *)
Theorem createIcns_skips_unregistered `{Platform} h0 pngsBySize size :
  size ∉ [16; 32; 64; 128; 256; 512; 1024] →
  validRefs h0 pngsBySize →
  icnsChunks h0 icnsTypes pngsBySize
  = icnsChunks h0 icnsTypes (delete size pngsBySize)
  ∧ createIcns pngsBySize h0 = createIcns (delete size pngsBySize) h0
  ∧ (icnsFits (icnsChunks h0 icnsTypes (delete size pngsBySize)) →
     createIcns pngsBySize h0
     = (h0 ++ icnsChunks h0 icnsTypes (delete size pngsBySize)
           ++ [icnsBytes (icnsChunks h0 icnsTypes (delete size pngsBySize))],
        inr (length h0
             + length (icnsChunks h0 icnsTypes (delete size pngsBySize)))%nat)
     ∧ readUInt32BE
         (icnsBytes (icnsChunks h0 icnsTypes (delete size pngsBySize))) 4
       = Some (8 + len (concat (icnsChunks h0 icnsTypes
                                  (delete size pngsBySize))))).
Proof.
  intros Hsize Hvalid. rewrite <-icnsSizes_eq in Hsize.
  assert (∀ size', size' ∈ icnsSizes →
            pngsBySize !! size' = delete size pngsBySize !! size') as Hagree.
  { intros size' Hin. rewrite lookup_delete_ne; [done|]. by intros ->. }
  split; [by apply icnsChunks_agree|].
  split; [by apply createIcns_agree|].
  intros Hfit. rewrite <-(icnsChunks_agree h0 _ _ Hagree) in *. split.
  - by apply createIcns_returns.
  - destruct Hfit as [Hfit _]. rewrite len_icnsBytes in Hfit.
    apply (readUInt32BE_be32 (charCodes "icns")); [unfold len in *; lia|done].
Qed.

Lemma createIcns_skips_unregistered_witness :
  icnsChunks [[1; 2; 3; 4]; [5; 6]] icnsTypes
    (<[33 := 1%nat]> (<[16 := 0%nat]> ∅))
  = icnsChunks [[1; 2; 3; 4]; [5; 6]] icnsTypes
      (delete 33 (<[33 := 1%nat]> (<[16 := 0%nat]> ∅)))
  ∧ createIcns (H := node22) (<[33 := 1%nat]> (<[16 := 0%nat]> ∅))
      [[1; 2; 3; 4]; [5; 6]]
    = ([[1; 2; 3; 4]; [5; 6]; icnsChunk "icp4" [1; 2; 3; 4];
        icnsBytes [icnsChunk "icp4" [1; 2; 3; 4]]], inr 3%nat)
  ∧ readUInt32BE (icnsBytes [icnsChunk "icp4" [1; 2; 3; 4]]) 4
    = Some (8 + len (icnsChunk "icp4" [1; 2; 3; 4])).
Proof.
  destruct (createIcns_skips_unregistered (H := node22) [[1; 2; 3; 4]; [5; 6]]
              (<[33 := 1%nat]> (<[16 := 0%nat]> ∅)) 33)
    as (Hchunks & _ & Hreturns).
  - compute_done.
  - intros size png Hpng.
    apply lookup_insert_Some in Hpng as [[_ <-]|[_ Hpng]]; [by eexists|].
    apply lookup_insert_Some in Hpng as [[_ <-]|[_ Hpng]]; [by eexists|].
    by rewrite lookup_empty in Hpng.
  - split; [exact Hchunks|]. apply Hreturns. split; vm_compute; discriminate.
Defined.

Lemma populate_list_to_map (entries : list (Z * ref)) :
  NoDup entries.*1 → populate entries = list_to_map entries.
Proof.
  unfold populate.
  induction entries as [|[size png] entries IH] using rev_ind; [done|].
  rewrite fmap_app, NoDup_app. intros (Hnd & Hnotin & _).
  rewrite foldl_snoc, IH by done. cbn [fst snd].
  rewrite list_to_map_snoc; [done|]. intros Hin. apply (Hnotin _ Hin).
  simpl. left.
Qed.

Lemma populate_Permutation (entries entries' : list (Z * ref)) :
  NoDup entries.*1 → entries ≡ₚ entries' →
  populate entries = populate entries'.
Proof.
  intros Hnd Hperm. rewrite !populate_list_to_map; [|by rewrite <-Hperm|done].
  by apply list_to_map_proper.
Qed.

(** C6.  The chunks of the buffer [createIcns] returns are those of the
    registry sizes the mapping holds, in ascending order of size (16, 32, 64,
    128, 256, 512, 1024), each under the type code the table
    {16: icp4, 32: icp5, 64: icp6, 128: ic07, 256: ic08, 512: ic09,
    1024: ic10} gives its size; and the order in which the mapping was filled
    does not matter. *)
Theorem createIcns_chunks_ascending `{Platform} h0 :
  StronglySorted Z.lt typeCodeRegistry.*1
  ∧ (∀ pngsBySize h' icns,
       validRefs h0 pngsBySize →
       createIcns pngsBySize h0 = (h', inr icns) →
       h' !! icns
       = Some (icnsBytes
                 ((λ '(typeCode, d), icnsChunk typeCode d)
                    <$> omap (λ '(size, typeCode),
                                png ← pngsBySize !! size; d ← h0 !! png;
                                Some (typeCode, d))
                             typeCodeRegistry)))
  ∧ (∀ entries entries',
       NoDup entries.*1 → entries ≡ₚ entries' →
       createIcns (populate entries) h0 = createIcns (populate entries') h0).
Proof.
  split; [|split].
  - repeat (constructor; [|repeat constructor; lia]). constructor.
  - intros pngsBySize h' icns Hvalid Hrun.
    by destruct (createIcns_returned _ _ Hvalid _ _ Hrun) as (_ & Hbytes & _).
  - intros entries entries' Hnd Hperm.
    by rewrite (populate_Permutation _ _ Hnd Hperm).
Qed.

Lemma createIcns_chunks_ascending_witness :
  [[1; 2; 3; 4]; [5; 6];
   icnsChunk "icp4" [1; 2; 3; 4]; icnsChunk "icp5" [5; 6];
   icnsBytes [icnsChunk "icp4" [1; 2; 3; 4]; icnsChunk "icp5" [5; 6]]]
    !! 4%nat
  = Some (icnsBytes
            ((λ '(typeCode, d), icnsChunk typeCode d)
               <$> omap (λ '(size, typeCode),
                           png ← populate [(32, 1%nat); (16, 0%nat)] !! size;
                           d ← [[1; 2; 3; 4]; [5; 6]] !! png;
                           Some (typeCode, d))
                        typeCodeRegistry))
  ∧ createIcns (H := node22) (populate [(32, 1%nat); (16, 0%nat)])
      [[1; 2; 3; 4]; [5; 6]]
    = createIcns (H := node22) (populate [(16, 0%nat); (32, 1%nat)])
        [[1; 2; 3; 4]; [5; 6]].
Proof.
  destruct (createIcns_chunks_ascending (H := node22) [[1; 2; 3; 4]; [5; 6]])
    as (_ & Hchunks & Horder).
  split.
  - apply Hchunks; [|vm_compute; reflexivity].
    intros size png Hpng. unfold populate in Hpng. cbn [foldl fst snd] in Hpng.
    apply lookup_insert_Some in Hpng as [[_ <-]|[_ Hpng]]; [by eexists|].
    apply lookup_insert_Some in Hpng as [[_ <-]|[_ Hpng]]; [by eexists|].
    by rewrite lookup_empty in Hpng.
  - apply Horder; [compute_done|apply perm_swap].
Defined.

Lemma icnsChunks_none h m :
  (∀ size, size ∈ icnsSizes → m !! size = None) →
  icnsChunks h icnsTypes m = [].
Proof.
  intros Hnone. rewrite (icnsChunks_agree h m ∅); [done|].
  intros size Hsize. by rewrite lookup_empty, Hnone.
Qed.

(** C8.  When the mapping holds none of the registry sizes, so that there is
    no chunk, [createIcns] does not fail: it returns a new 8-byte buffer, the
    magic [icns] followed by the big-endian total length 8. *)
Theorem createIcns_no_chunks `{Platform} h0 pngsBySize :
  (∀ size, size ∈ [16; 32; 64; 128; 256; 512; 1024] →
     pngsBySize !! size = None) →
  ∃ bytes,
    createIcns pngsBySize h0 = (h0 ++ [bytes], inr (length h0))
    ∧ bytes = charCodes "icns" ++ [0; 0; 0; 8]
    ∧ len bytes = 8
    ∧ readUInt32BE bytes 4 = Some 8.
Proof.
  intros Hnone. rewrite <-icnsSizes_eq in Hnone.
  exists (charCodes "icns" ++ [0; 0; 0; 8]). split; [|done].
  rewrite (createIcns_agree pngsBySize ∅)
    by (intros size Hsize; by rewrite lookup_empty, Hnone).
  assert (validRefs h0 ∅) as Hvalid
    by (intros size png Hpng; by rewrite lookup_empty in Hpng).
  rewrite (createIcns_returns _ _ Hvalid).
  - rewrite icnsChunks_none by (intros; apply lookup_empty).
    simpl. by rewrite Nat.add_0_r.
  - rewrite icnsChunks_none by (intros; apply lookup_empty).
    pose proof kMaxLength_lower as Hk.
    change (2 ^ 30 - 1) with 1073741823 in Hk.
    split; rewrite len_icnsBytes; unfold len; simpl; lia.
Qed.

Lemma createIcns_no_chunks_witness :
  ∃ bytes,
    createIcns (H := node22) (<[33 := 0%nat]> ∅) [[1; 2; 3; 4]]
    = ([[1; 2; 3; 4]] ++ [bytes], inr 1%nat)
    ∧ bytes = charCodes "icns" ++ [0; 0; 0; 8]
    ∧ len bytes = 8
    ∧ readUInt32BE bytes 4 = Some 8.
Proof.
  apply (createIcns_no_chunks (H := node22) [[1; 2; 3; 4]] (<[33 := 0%nat]> ∅)).
  intros size Hsize. apply lookup_insert_None. split; [apply lookup_empty|].
  intros <-. revert Hsize. compute_done.
Defined.

(** C10.  Neither encoder writes into a buffer it was given: whether
    [createIco] or [createIcns] returns or throws, every buffer that existed
    before the call holds the same bytes after it. *)
Theorem encoders_leave_inputs_unchanged `{Platform} h0 :
  (∀ pngBuffers sizes h' result,
     createIco pngBuffers sizes h0 = (h', result) →
     ∀ png d, h0 !! png = Some d → h' !! png = Some d)
  ∧ (∀ pngsBySize h' result,
       validRefs h0 pngsBySize →
       createIcns pngsBySize h0 = (h', result) →
       ∀ png d, h0 !! png = Some d → h' !! png = Some d).
Proof.
  split.
  - intros pngBuffers sizes h' [e|buffer] Hrun png d Hpng.
    + apply createIco_thrown in Hrun as (_ & hs & ->).
      by apply lookup_app_l_Some.
    + apply createIco_returned in Hrun as (_ & datas & _ & _ & ->).
      by apply lookup_app_l_Some.
  - intros pngsBySize h' [e|icns] Hvalid Hrun png d Hpng.
    + apply createIcns_thrown in Hrun as (_ & hs & ->); [|done].
      by apply lookup_app_l_Some.
    + apply createIcns_returned in Hrun as (_ & _ & hs & ->); [|done].
      by apply lookup_app_l_Some.
Qed.

Lemma encoders_leave_inputs_unchanged_witness :
  ([[1; 2; 3]; [4; 5]; icoBytes [16; 256] [[1; 2; 3]; [4; 5]]] !! 1%nat
   = Some [4; 5])
  ∧ ([[1; 2; 3; 4]; icnsChunk "icp4" [1; 2; 3; 4];
      icnsBytes [icnsChunk "icp4" [1; 2; 3; 4]]] !! 0%nat
     = Some [1; 2; 3; 4]).
Proof.
  split.
  - destruct (encoders_leave_inputs_unchanged (H := node22)
                [[1; 2; 3]; [4; 5]]) as [Hico _].
    apply (Hico [0%nat; 1%nat] [16; 256] _ (inr 2%nat));
      [vm_compute|]; reflexivity.
  - destruct (encoders_leave_inputs_unchanged (H := node22) [[1; 2; 3; 4]])
      as [_ Hicns].
    apply (Hicns (<[16 := 0%nat]> ∅) _ (inr 2%nat)); [|vm_compute|]; try reflexivity.
    intros size png Hpng.
    apply lookup_insert_Some in Hpng as [[_ <-]|[_ Hpng]]; [by eexists|].
    by rewrite lookup_empty in Hpng.
Defined.

(** ** The scenarios of the specification, run on the model *)

Lemma len_concat_sum (datas : list bytes) :
  len (concat datas) = foldr (λ d total, len d + total) 0 datas.
Proof.
  induction datas as [|d datas IH]; [done|].
  by rewrite concat_cons, len_app, IH.
Qed.

(** Six images of sizes 16, 32, 48, 64, 128 and 256 with ten bytes of data
    each: 162 bytes, header 00 00 01 00 06 00, width and height 0 for 256. *)
Example scenario_ico_six_sizes :
  ∃ bytes,
    createIco (H := node22) (seq 0 6) [16; 32; 48; 64; 128; 256]
      (replicate 6 (replicate 10 7))
    = (replicate 6 (replicate 10 7) ++ [bytes], inr 6%nat)
    ∧ len bytes = 162
    ∧ take 6 bytes = [0; 0; 1; 0; 6; 0]
    ∧ readUInt8 bytes (6 + 16 * 5) = Some 0
    ∧ readUInt8 bytes (6 + 16 * 5 + 1) = Some 0.
Proof. eexists. split; [vm_compute; reflexivity|]. by vm_compute. Qed.

(** Sizes 16 and 32 with 4 and 8 bytes of data: chunk [icp4] of length 12,
    then chunk [icp5] of length 16, 36 bytes in all. *)
Example scenario_icns_two_sizes :
  ∃ bytes,
    createIcns (H := node22) (populate [(16, 0%nat); (32, 1%nat)])
      [[1; 2; 3; 4]; [1; 2; 3; 4; 5; 6; 7; 8]]
    = ([[1; 2; 3; 4]; [1; 2; 3; 4; 5; 6; 7; 8];
        icnsChunk "icp4" [1; 2; 3; 4];
        icnsChunk "icp5" [1; 2; 3; 4; 5; 6; 7; 8]; bytes], inr 4%nat)
    ∧ len bytes = 36
    ∧ readUInt32BE bytes 4 = Some 36
    ∧ readUInt32BE bytes 12 = Some 12
    ∧ readUInt32BE bytes 24 = Some 16.
Proof. eexists. split; [vm_compute; reflexivity|]. by vm_compute. Qed.

(** The unmapped size 33 beside 16: only the chunk for 16, no error. *)
Example scenario_icns_unmapped_size :
  createIcns (H := node22) (populate [(16, 0%nat); (33, 1%nat)])
    [[1; 2; 3; 4]; [9; 9]]
  = ([[1; 2; 3; 4]; [9; 9]; icnsChunk "icp4" [1; 2; 3; 4];
      icnsBytes [icnsChunk "icp4" [1; 2; 3; 4]]], inr 3%nat).
Proof. vm_compute. reflexivity. Qed.

(** * Further properties of the encoders *)

(** ** [createIco]: when it returns and when it throws *)

(** X1.  [createIco] returns a buffer exactly when every element of
    [pngBuffers] is a buffer, there are at most 65535 of them, none of their
    sizes is negative, every data length and every data offset is at most
    4294967295, and the whole container is no longer than a buffer may be;
    in every other case it throws. *)
Theorem createIco_returns_iff `{Platform} h0 pngBuffers sizes :
  (∃ h' buffer, createIco pngBuffers sizes h0 = (h', inr buffer))
  ↔ ∃ datas,
      deref h0 pngBuffers datas
      ∧ Z.of_nat (length pngBuffers) ≤ 65535
      ∧ (∀ i s, (i < length pngBuffers)%nat → sizes !! i = Some s → 0 ≤ s)
      ∧ (∀ i d, datas !! i = Some d →
           len d ≤ 4294967295
           ∧ 6 + 16 * Z.of_nat (length pngBuffers)
               + len (concat (take i datas)) ≤ 4294967295)
      ∧ 6 + 16 * Z.of_nat (length pngBuffers) + len (concat datas)
        ≤ kMaxLength.
Proof.
  split.
  - intros (h' & buffer & Hrun).
    apply createIco_returned in Hrun as (_ & datas & Hd & Hfit & _).
    exists datas. split; [done|]. unfold icoFits in Hfit.
    rewrite len_icoBytes in Hfit. unfold headerSize, dirEntrySize in Hfit.
    by rewrite (Forall2_length _ _ _ Hd).
  - intros (datas & Hd & HN & Hsizes & Hdata & Htotal).
    exists (h0 ++ [icoBytes sizes datas]), (length h0).
    apply createIco_returns; [done|]. unfold icoFits.
    rewrite len_icoBytes. unfold headerSize, dirEntrySize.
    by rewrite <-(Forall2_length _ _ _ Hd).
Qed.

Lemma createIco_total `{Platform} h0 pngBuffers sizes :
  (∃ h' buffer, createIco pngBuffers sizes h0 = (h', inr buffer))
  ∨ (∃ h' e, createIco pngBuffers sizes h0 = (h', inl e)).
Proof. destruct (createIco pngBuffers sizes h0) as [h' [e|buffer]]; eauto. Qed.

(** X2.  A negative size is not truncated into the width byte: when the size
    of one of the images is negative, [createIco] throws. *)
Theorem createIco_negative_size_throws `{Platform} h0 pngBuffers sizes i s :
  (i < length pngBuffers)%nat → sizes !! i = Some s → s < 0 →
  ∃ h' e, createIco pngBuffers sizes h0 = (h', inl e).
Proof.
  intros Hi Hs Hneg.
  destruct (createIco_total h0 pngBuffers sizes)
    as [(h' & buffer & Hrun)|]; [|done].
  apply createIco_returned in Hrun as (_ & datas & Hd & (_ & Hsizes & _) & _).
  rewrite <-(Forall2_length _ _ _ Hd) in Hsizes.
  specialize (Hsizes _ _ Hi Hs). lia.
Qed.

Lemma createIco_negative_size_throws_witness :
  ∃ h' e, createIco (H := node22) [0%nat] [-1] [[1; 2; 3]] = (h', inl e).
Proof.
  apply (createIco_negative_size_throws (H := node22) [[1; 2; 3]] [0%nat] [-1]
           0 (-1)).
  - simpl. lia.
  - reflexivity.
  - lia.
Defined.

(** X3.  The count field has 16 bits: with more than 65535 images
    [createIco] throws. *)
Theorem createIco_too_many_images_throws `{Platform} h0 pngBuffers sizes :
  65535 < Z.of_nat (length pngBuffers) →
  ∃ h' e, createIco pngBuffers sizes h0 = (h', inl e).
Proof.
  intros HN.
  destruct (createIco_total h0 pngBuffers sizes)
    as [(h' & buffer & Hrun)|]; [|done].
  apply createIco_returned in Hrun as (_ & datas & Hd & (Hcount & _) & _).
  rewrite <-(Forall2_length _ _ _ Hd) in Hcount. lia.
Qed.

Lemma createIco_too_many_images_throws_witness :
  ∃ h' e,
    createIco (H := node22) (replicate (Z.to_nat 65536) 0%nat) [] [[1; 2; 3]]
    = (h', inl e).
Proof.
  apply (createIco_too_many_images_throws (H := node22)).
  rewrite length_replicate. lia.
Defined.

(** ** [createIco]: the rest of the directory *)

Lemma icoBytes_fields sizes datas i d :
  datas !! i = Some d →
  len d ≤ 4294967295 →
  6 + 16 * Z.of_nat (length datas) + len (concat (take i datas)) ≤ 4294967295 →
  readUInt32LE (icoBytes sizes datas) (6 + 16 * Z.of_nat i + 8) = Some (len d)
  ∧ readUInt32LE (icoBytes sizes datas) (6 + 16 * Z.of_nat i + 12)
    = Some (6 + 16 * Z.of_nat (length datas) + len (concat (take i datas))).
Proof.
  intros Hi Hsize Hoff.
  destruct (icoBytes_entry sizes _ _ _ Hi) as (A & rest & -> & HlenA).
  unfold headerSize, dirEntrySize, dirEntry in *. split.
  - rewrite <-!(assoc_L (++)), (assoc_L (++) A).
    apply readUInt32LE_le32; [unfold len in *; lia|].
    rewrite !len_app, HlenA. unfold len. simpl. lia.
  - rewrite <-!(assoc_L (++)), (assoc_L (++) A), (assoc_L (++) _ (le32 (len d))).
    apply readUInt32LE_le32; [unfold len in *; lia|].
    rewrite !len_app, HlenA. unfold len. simpl. lia.
Qed.

Ltac entry_at A rest offset j :=
  match goal with
  | |- context [at_ (A ++ ?e ++ rest) offset] =>
      rewrite (at_app_mid A e rest offset j _ eq_refl) by lia
  end.

(** X4.  Every directory entry of the buffer [createIco] returns carries the
    same constants: colour palette 0, reserved 0, colour planes 1 and 32 bits
    per pixel. *)
Theorem createIco_constant_fields `{Platform} h0 pngBuffers sizes h' buffer i :
  createIco pngBuffers sizes h0 = (h', inr buffer) →
  (i < length pngBuffers)%nat →
  ∃ bytes,
    h' !! buffer = Some bytes
    ∧ readUInt8 bytes (6 + 16 * Z.of_nat i + 2) = Some 0
    ∧ readUInt8 bytes (6 + 16 * Z.of_nat i + 3) = Some 0
    ∧ readUInt16LE bytes (6 + 16 * Z.of_nat i + 4) = Some 1
    ∧ readUInt16LE bytes (6 + 16 * Z.of_nat i + 6) = Some 32.
Proof.
  intros Hrun Hi.
  destruct (createIco_entry_bytes _ _ _ _ _ _ Hrun Hi)
    as (datas & d & bs & A & rest & _ & _ & _ & Hbytes & -> & HA).
  eexists. split; [exact Hbytes|]. unfold readUInt8, readUInt16LE.
  entry_at A rest (6 + 16 * Z.of_nat i + 2) 2%nat.
  entry_at A rest (6 + 16 * Z.of_nat i + 3) 3%nat.
  entry_at A rest (6 + 16 * Z.of_nat i + 4) 4%nat.
  entry_at A rest (6 + 16 * Z.of_nat i + 4 + 1) 5%nat.
  entry_at A rest (6 + 16 * Z.of_nat i + 6) 6%nat.
  entry_at A rest (6 + 16 * Z.of_nat i + 6 + 1) 7%nat.
  done.
Qed.

Lemma createIco_constant_fields_witness :
  ∃ bytes,
    [[1; 2; 3]; [4; 5]; icoBytes [16; 256] [[1; 2; 3]; [4; 5]]] !! 2%nat
    = Some bytes
    ∧ readUInt8 bytes (6 + 16 * Z.of_nat 1 + 2) = Some 0
    ∧ readUInt8 bytes (6 + 16 * Z.of_nat 1 + 3) = Some 0
    ∧ readUInt16LE bytes (6 + 16 * Z.of_nat 1 + 4) = Some 1
    ∧ readUInt16LE bytes (6 + 16 * Z.of_nat 1 + 6) = Some 32.
Proof.
  apply (createIco_constant_fields (H := node22)
           [[1; 2; 3]; [4; 5]] [0%nat; 1%nat] [16; 256] _ _ 1).
  - vm_compute. reflexivity.
  - simpl. lia.
Defined.

(** X5.  When [sizes] is shorter than [pngBuffers], an image without a size
    gets, in the returned buffer, the width byte and the height byte 0, as an
    image of size 256 does. *)
Theorem createIco_missing_size_written_as_zero `{Platform} h0 pngBuffers sizes
    h' buffer i :
  createIco pngBuffers sizes h0 = (h', inr buffer) →
  (i < length pngBuffers)%nat → (length sizes ≤ i)%nat →
  ∃ bytes,
    h' !! buffer = Some bytes
    ∧ readUInt8 bytes (6 + 16 * Z.of_nat i) = Some 0
    ∧ readUInt8 bytes (6 + 16 * Z.of_nat i + 1) = Some 0.
Proof.
  intros Hrun Hi Hshort.
  destruct (createIco_entry_bytes _ _ _ _ _ _ Hrun Hi)
    as (datas & d & bs & A & rest & _ & _ & _ & Hbytes & -> & HA).
  eexists. split; [exact Hbytes|].
  rewrite (proj2 (lookup_ge_None sizes i) Hshort). unfold readUInt8.
  entry_at A rest (6 + 16 * Z.of_nat i) 0%nat.
  by entry_at A rest (6 + 16 * Z.of_nat i + 1) 1%nat.
Qed.

Lemma createIco_missing_size_written_as_zero_witness :
  ∃ bytes,
    [[1; 2; 3]; [4; 5]; icoBytes [16] [[1; 2; 3]; [4; 5]]] !! 2%nat
    = Some bytes
    ∧ readUInt8 bytes (6 + 16 * Z.of_nat 1) = Some 0
    ∧ readUInt8 bytes (6 + 16 * Z.of_nat 1 + 1) = Some 0.
Proof.
  apply (createIco_missing_size_written_as_zero (H := node22)
           [[1; 2; 3]; [4; 5]] [0%nat; 1%nat] [16] _ _ 1).
  - vm_compute. reflexivity.
  - simpl. lia.
  - simpl. lia.
Defined.

Lemma length_concat_take_mono (l : list bytes) i j :
  (i ≤ j)%nat → (length (concat (take i l)) ≤ length (concat (take j l)))%nat.
Proof.
  intros Hij. replace (take i l) with (take i (take j l))
    by (rewrite take_take; f_equal; lia).
  apply length_concat_take_le.
Qed.

(** X6.  The data blocks the directory of a returned buffer points to lie
    after the directory, inside the buffer, and do not overlap: the block of
    an earlier image ends no later than the block of a later image starts. *)
Theorem createIco_data_blocks_disjoint `{Platform} h0 pngBuffers sizes h' buffer
    i j :
  createIco pngBuffers sizes h0 = (h', inr buffer) →
  (i < j)%nat → (j < length pngBuffers)%nat →
  ∃ bytes offset_i size_i offset_j size_j,
    h' !! buffer = Some bytes
    ∧ readUInt32LE bytes (6 + 16 * Z.of_nat i + 12) = Some offset_i
    ∧ readUInt32LE bytes (6 + 16 * Z.of_nat i + 8) = Some size_i
    ∧ readUInt32LE bytes (6 + 16 * Z.of_nat j + 12) = Some offset_j
    ∧ readUInt32LE bytes (6 + 16 * Z.of_nat j + 8) = Some size_j
    ∧ 6 + 16 * Z.of_nat (length pngBuffers) ≤ offset_i
    ∧ 0 ≤ size_i
    ∧ offset_i + size_i ≤ offset_j
    ∧ 0 ≤ size_j
    ∧ offset_j + size_j ≤ len bytes.
Proof.
  intros (datas & Hd & Hfit & Hbytes)%createIco_returned_bytes Hij Hj.
  pose proof (Forall2_length _ _ _ Hd) as HN. rewrite HN in *.
  destruct (lookup_lt_is_Some_2 datas i) as [di Hdi]; [lia|].
  destruct (lookup_lt_is_Some_2 datas j) as [dj Hdj]; [lia|].
  destruct Hfit as (_ & _ & Hfit & _). unfold headerSize, dirEntrySize in Hfit.
  destruct (Hfit _ _ Hdi) as [Hsi Hoi], (Hfit _ _ Hdj) as [Hsj Hoj].
  destruct (icoBytes_fields sizes _ _ _ Hdi Hsi Hoi) as [Hri1 Hri2].
  destruct (icoBytes_fields sizes _ _ _ Hdj Hsj Hoj) as [Hrj1 Hrj2].
  do 5 eexists. split; [exact Hbytes|].
  split; [exact Hri2|]. split; [exact Hri1|].
  split; [exact Hrj2|]. split; [exact Hrj1|].
  pose proof (length_concat_take_mono datas (S i) j ltac:(lia)) as Hmono.
  pose proof (length_concat_take_le datas (S j)) as Hend.
  rewrite (take_S_r _ _ _ Hdi), concat_app, concat_cons, concat_nil,
    app_nil_r, length_app in Hmono.
  rewrite (take_S_r _ _ _ Hdj), concat_app, concat_cons, concat_nil,
    app_nil_r, length_app in Hend.
  rewrite len_icoBytes. unfold len, headerSize, dirEntrySize. lia.
Qed.

Lemma createIco_data_blocks_disjoint_witness :
  ∃ bytes offset_i size_i offset_j size_j,
    [[1; 2; 3]; [4; 5]; icoBytes [16; 256] [[1; 2; 3]; [4; 5]]] !! 2%nat
    = Some bytes
    ∧ readUInt32LE bytes (6 + 16 * Z.of_nat 0 + 12) = Some offset_i
    ∧ readUInt32LE bytes (6 + 16 * Z.of_nat 0 + 8) = Some size_i
    ∧ readUInt32LE bytes (6 + 16 * Z.of_nat 1 + 12) = Some offset_j
    ∧ readUInt32LE bytes (6 + 16 * Z.of_nat 1 + 8) = Some size_j
    ∧ 6 + 16 * Z.of_nat (length [0%nat; 1%nat]) ≤ offset_i
    ∧ 0 ≤ size_i
    ∧ offset_i + size_i ≤ offset_j
    ∧ 0 ≤ size_j
    ∧ offset_j + size_j ≤ len bytes.
Proof.
  apply (createIco_data_blocks_disjoint (H := node22)
           [[1; 2; 3]; [4; 5]] [0%nat; 1%nat] [16; 256] _ _ 0 1).
  - vm_compute. reflexivity.
  - lia.
  - simpl. lia.
Defined.

(** ** [createIco]: what it depends on *)

Lemma deref_app h hs refs datas :
  deref h refs datas → deref (h ++ hs) refs datas.
Proof.
  unfold deref. intros Hd. eapply Forall2_impl; [exact Hd|].
  intros r d. apply lookup_app_l_Some.
Qed.

(** X7.  Encoding the same images twice gives the same bytes: after a call
    that returned, a second call with the same arguments returns a further
    buffer with the bytes of the first, which stays in place. *)
Theorem createIco_twice `{Platform} h0 pngBuffers sizes h1 buffer :
  createIco pngBuffers sizes h0 = (h1, inr buffer) →
  ∃ bytes,
    h1 !! buffer = Some bytes
    ∧ createIco pngBuffers sizes h1 = (h1 ++ [bytes], inr (S buffer)).
Proof.
  intros (-> & datas & Hd & Hfit & ->)%createIco_returned.
  exists (icoBytes sizes datas). split; [by apply list_lookup_middle|].
  rewrite (createIco_returns _ _ _ datas); [|by apply deref_app|done].
  do 2 f_equal. rewrite length_app. simpl. lia.
Qed.

Lemma createIco_twice_witness :
  ∃ bytes,
    [[1; 2; 3]; [4; 5]; icoBytes [16; 256] [[1; 2; 3]; [4; 5]]] !! 2%nat
    = Some bytes
    ∧ createIco (H := node22) [0%nat; 1%nat] [16; 256]
        [[1; 2; 3]; [4; 5]; icoBytes [16; 256] [[1; 2; 3]; [4; 5]]]
      = ([[1; 2; 3]; [4; 5]; icoBytes [16; 256] [[1; 2; 3]; [4; 5]]]
           ++ [bytes], inr 3%nat).
Proof.
  apply (createIco_twice (H := node22) [[1; 2; 3]; [4; 5]]).
  vm_compute. reflexivity.
Defined.

Lemma icoFits_ext `{Platform} sizes sizes' datas :
  (∀ i, (i < length datas)%nat → sizes !! i = sizes' !! i) →
  icoFits sizes datas → icoFits sizes' datas.
Proof.
  intros Hsame (HN & Hsizes & Hdata & Htotal).
  split; [done|]. split; [|split; [done|by rewrite len_icoBytes in *]].
  intros i s Hi. rewrite <-Hsame by done. by apply Hsizes.
Qed.

Lemma createIco_returned_ext `{Platform} h0 pngBuffers sizes sizes' h' buffer :
  take (length pngBuffers) sizes = take (length pngBuffers) sizes' →
  createIco pngBuffers sizes h0 = (h', inr buffer) →
  createIco pngBuffers sizes' h0 = (h', inr buffer).
Proof.
  intros Htake (-> & datas & Hd & Hfit & ->)%createIco_returned.
  assert (∀ i, (i < length datas)%nat → sizes !! i = sizes' !! i) as Hsame.
  { intros i Hi. rewrite <-(Forall2_length _ _ _ Hd) in Hi.
    by rewrite <-(lookup_take_lt sizes _ _ Hi), Htake, lookup_take_lt. }
  rewrite (icoBytes_ext sizes sizes' datas)
    by (intros i Hi; by rewrite Hsame).
  apply createIco_returns; [done|by eapply icoFits_ext].
Qed.

(** X8.  [createIco] reads [sizes] at the indices of [pngBuffers] only: two
    size lists that agree on these indices give the same returned buffer, and
    the call throws for both or for neither; sizes past the last image are
    ignored. *)
Theorem createIco_reads_first_sizes `{Platform} h0 pngBuffers sizes sizes' :
  take (length pngBuffers) sizes = take (length pngBuffers) sizes' →
  (∀ h' buffer,
     createIco pngBuffers sizes h0 = (h', inr buffer)
     ↔ createIco pngBuffers sizes' h0 = (h', inr buffer))
  ∧ ((∃ h' e, createIco pngBuffers sizes h0 = (h', inl e))
     ↔ (∃ h' e, createIco pngBuffers sizes' h0 = (h', inl e))).
Proof.
  intros Htake.
  assert (∀ h' buffer,
            createIco pngBuffers sizes h0 = (h', inr buffer)
            ↔ createIco pngBuffers sizes' h0 = (h', inr buffer)) as Hsame
    by (split; by apply createIco_returned_ext).
  split; [done|]. split; intros (h' & e & Hthrown).
  - destruct (createIco_total h0 pngBuffers sizes')
      as [(h'' & buffer & Hrun)|]; [|done]. apply Hsame in Hrun. congruence.
  - destruct (createIco_total h0 pngBuffers sizes)
      as [(h'' & buffer & Hrun)|]; [|done]. apply Hsame in Hrun. congruence.
Qed.

Lemma createIco_reads_first_sizes_witness :
  (∀ h' buffer,
     createIco (H := node22) [0%nat] [16] [[1; 2; 3]] = (h', inr buffer)
     ↔ createIco (H := node22) [0%nat] [16; -5; 700] [[1; 2; 3]]
       = (h', inr buffer))
  ∧ ((∃ h' e, createIco (H := node22) [0%nat] [16] [[1; 2; 3]] = (h', inl e))
     ↔ (∃ h' e,
          createIco (H := node22) [0%nat] [16; -5; 700] [[1; 2; 3]]
          = (h', inl e))).
Proof.
  apply (createIco_reads_first_sizes (H := node22) [[1; 2; 3]] [0%nat]
           [16] [16; -5; 700]).
  reflexivity.
Defined.

(** ** [createIcns]: when it returns, and how long the container is *)

Lemma selected_typeCodes h m :
  Forall (λ e, length (charCodes e.1) = 4%nat) (icnsSelected h icnsTypes m).
Proof.
  rewrite Forall_forall. intros [typeCode d] Hin. by eapply typeCode_length.
Qed.

Lemma len_concat_chunks (selected : list (string * bytes)) :
  Forall (λ e, length (charCodes e.1) = 4%nat) selected →
  len (concat ((λ '(typeCode, d), icnsChunk typeCode d) <$> selected))
  = chunksLength selected.
Proof.
  induction 1 as [|[typeCode d] selected Hcode _ IH]; [done|].
  rewrite fmap_cons, concat_cons, len_app, IH, len_icnsChunk by done.
  simpl. lia.
Qed.

Lemma len_concat_icnsChunks h m :
  len (concat (icnsChunks h icnsTypes m))
  = chunksLength (icnsSelected h icnsTypes m).
Proof. apply len_concat_chunks, selected_typeCodes. Qed.

(** X9.  For a mapping of existing buffers, [createIcns] returns exactly when
    the total length, 8 plus 8 and the data length for each registry size
    the mapping holds, is at most 4294967295 and at most the longest buffer
    the platform allows; otherwise it throws. *)
Theorem createIcns_returns_iff `{Platform} h0 pngsBySize :
  validRefs h0 pngsBySize →
  (∃ h' icns, createIcns pngsBySize h0 = (h', inr icns))
  ↔ 8 + chunksLength (icnsSelected h0 icnsTypes pngsBySize) ≤ 4294967295
    ∧ 8 + chunksLength (icnsSelected h0 icnsTypes pngsBySize) ≤ kMaxLength.
Proof.
  intros Hvalid. rewrite <-len_concat_icnsChunks, <-len_icnsBytes. split.
  - intros (h' & icns & Hrun).
    by destruct (createIcns_returned _ _ Hvalid _ _ Hrun) as (Hfit & _).
  - intros Hfit. rewrite (createIcns_returns _ _ Hvalid Hfit). eauto.
Qed.

Lemma validRefs_two :
  validRefs [[1; 2; 3; 4]; [5; 6]] (<[32 := 1%nat]> (<[16 := 0%nat]> ∅)).
Proof.
  intros size png Hpng.
  apply lookup_insert_Some in Hpng as [[_ <-]|[_ Hpng]]; [by eexists|].
  apply lookup_insert_Some in Hpng as [[_ <-]|[_ Hpng]]; [by eexists|].
  by rewrite lookup_empty in Hpng.
Defined.

Lemma createIcns_returns_iff_witness :
  (∃ h' icns,
     createIcns (H := node22) (<[32 := 1%nat]> (<[16 := 0%nat]> ∅))
       [[1; 2; 3; 4]; [5; 6]] = (h', inr icns))
  ↔ 8 + chunksLength (icnsSelected [[1; 2; 3; 4]; [5; 6]] icnsTypes
                        (<[32 := 1%nat]> (<[16 := 0%nat]> ∅))) ≤ 4294967295
    ∧ 8 + chunksLength (icnsSelected [[1; 2; 3; 4]; [5; 6]] icnsTypes
                          (<[32 := 1%nat]> (<[16 := 0%nat]> ∅)))
      ≤ kMaxLength (Platform := node22).
Proof.
  apply (createIcns_returns_iff (H := node22)). exact validRefs_two.
Defined.

(** X10.  The buffer [createIcns] returns is 8 bytes of file header and, for
    each registry size the mapping holds, 8 bytes of chunk header and the
    image data: its length is the sum of these. *)
Theorem createIcns_length `{Platform} h0 pngsBySize h' icns :
  validRefs h0 pngsBySize →
  createIcns pngsBySize h0 = (h', inr icns) →
  ∃ bytes,
    h' !! icns = Some bytes
    ∧ len bytes = 8 + chunksLength (icnsSelected h0 icnsTypes pngsBySize).
Proof.
  intros Hvalid Hrun.
  destruct (createIcns_returned _ _ Hvalid _ _ Hrun) as (_ & Hbytes & _).
  eexists. split; [exact Hbytes|].
  by rewrite len_icnsBytes, len_concat_icnsChunks.
Qed.

Lemma createIcns_length_witness :
  ∃ bytes,
    [[1; 2; 3; 4]; [5; 6];
     icnsChunk "icp4" [1; 2; 3; 4]; icnsChunk "icp5" [5; 6];
     icnsBytes [icnsChunk "icp4" [1; 2; 3; 4]; icnsChunk "icp5" [5; 6]]]
      !! 4%nat = Some bytes
    ∧ len bytes
      = 8 + chunksLength (icnsSelected [[1; 2; 3; 4]; [5; 6]] icnsTypes
                            (<[32 := 1%nat]> (<[16 := 0%nat]> ∅))).
Proof.
  apply (createIcns_length (H := node22) [[1; 2; 3; 4]; [5; 6]]
           (<[32 := 1%nat]> (<[16 := 0%nat]> ∅))).
  - exact validRefs_two.
  - vm_compute. reflexivity.
Defined.

Lemma validRefs_app h hs m : validRefs h m → validRefs (h ++ hs) m.
Proof.
  intros Hvalid size png Hpng. destruct (Hvalid _ _ Hpng) as [d Hd].
  exists d. by apply lookup_app_l_Some.
Qed.

Lemma icnsSelected_app h hs entries m :
  validRefs h m →
  icnsSelected (h ++ hs) entries m = icnsSelected h entries m.
Proof.
  intros Hvalid. unfold icnsSelected.
  induction entries as [|[size typeCode] entries IH]; [done|].
  cbn [omap list_omap]. rewrite IH.
  destruct (parseInt size) as [n|]; [simpl|done].
  destruct (m !! n) as [png|] eqn:Hpng; [simpl|done].
  destruct (Hvalid _ _ Hpng) as [d Hd].
  by rewrite Hd, (lookup_app_l_Some _ _ _ _ Hd).
Qed.

(** X11.  Encoding the same mapping twice gives the same bytes: after a call
    of [createIcns] that returned, a second call with the same mapping
    returns another buffer, with the bytes of the first, which still holds
    them. *)
Theorem createIcns_twice `{Platform} h0 pngsBySize h1 icns :
  validRefs h0 pngsBySize →
  createIcns pngsBySize h0 = (h1, inr icns) →
  ∃ bytes h2 icns2,
    h1 !! icns = Some bytes
    ∧ createIcns pngsBySize h1 = (h2, inr icns2)
    ∧ icns2 ≠ icns
    ∧ h2 !! icns2 = Some bytes
    ∧ h2 !! icns = Some bytes.
Proof.
  intros Hvalid Hrun.
  destruct (createIcns_returned _ _ Hvalid _ _ Hrun) as (Hfit & Hbytes & hs & ->).
  pose proof (validRefs_app _ hs _ Hvalid) as Hvalid1.
  assert (icnsChunks (h0 ++ hs) icnsTypes pngsBySize
          = icnsChunks h0 icnsTypes pngsBySize) as Hsame
    by (unfold icnsChunks; by rewrite icnsSelected_app).
  pose proof (createIcns_returns _ _ Hvalid1) as Hrun2.
  rewrite Hsame in Hrun2. specialize (Hrun2 Hfit).
  do 3 eexists. split; [exact Hbytes|]. split; [exact Hrun2|].
  pose proof (lookup_lt_Some _ _ _ Hbytes). split; [lia|]. split.
  - rewrite (assoc_L (++) (h0 ++ hs)). apply list_lookup_middle.
    by rewrite (length_app (h0 ++ hs)).
  - by apply lookup_app_l_Some.
Qed.

Lemma createIcns_twice_witness :
  ∃ bytes h2 icns2,
    [[1; 2; 3; 4]; [5; 6];
     icnsChunk "icp4" [1; 2; 3; 4]; icnsChunk "icp5" [5; 6];
     icnsBytes [icnsChunk "icp4" [1; 2; 3; 4]; icnsChunk "icp5" [5; 6]]]
      !! 4%nat = Some bytes
    ∧ createIcns (H := node22) (<[32 := 1%nat]> (<[16 := 0%nat]> ∅))
        [[1; 2; 3; 4]; [5; 6];
         icnsChunk "icp4" [1; 2; 3; 4]; icnsChunk "icp5" [5; 6];
         icnsBytes [icnsChunk "icp4" [1; 2; 3; 4]; icnsChunk "icp5" [5; 6]]]
      = (h2, inr icns2)
    ∧ icns2 ≠ 4%nat
    ∧ h2 !! icns2 = Some bytes
    ∧ h2 !! 4%nat = Some bytes.
Proof.
  apply (createIcns_twice (H := node22) [[1; 2; 3; 4]; [5; 6]]
           (<[32 := 1%nat]> (<[16 := 0%nat]> ∅))).
  - exact validRefs_two.
  - vm_compute. reflexivity.
Defined.

Lemma chunksLength_nonneg selected : 0 ≤ chunksLength selected.
Proof.
  induction selected as [|[typeCode d] selected IH]; [done|].
  simpl. unfold len. lia.
Qed.

(** X12.  The returned container can be walked chunk by chunk: the k-th
    chunk starts right after the file header and the chunks before it; there
    stand its four type-code bytes, then the length field, which reads 8 plus
    the data length, then the image data. *)
Theorem createIcns_chunk_at `{Platform} h0 pngsBySize h' icns k typeCode d :
  validRefs h0 pngsBySize →
  createIcns pngsBySize h0 = (h', inr icns) →
  icnsSelected h0 icnsTypes pngsBySize !! k = Some (typeCode, d) →
  ∃ bytes,
    h' !! icns = Some bytes
    ∧ take 4 (drop (Z.to_nat
                      (8 + chunksLength
                             (take k (icnsSelected h0 icnsTypes pngsBySize))))
                   bytes)
      = charCodes typeCode
    ∧ readUInt32BE bytes
        (8 + chunksLength (take k (icnsSelected h0 icnsTypes pngsBySize)) + 4)
      = Some (8 + len d)
    ∧ take (length d)
        (drop (Z.to_nat
                 (8 + chunksLength
                        (take k (icnsSelected h0 icnsTypes pngsBySize)) + 8))
              bytes)
      = d.
Proof.
  intros Hvalid Hrun Hk.
  destruct (createIcns_returned _ _ Hvalid _ _ Hrun) as ([Hfit _] & Hbytes & _).
  eexists. split; [exact Hbytes|].
  pose proof (selected_typeCodes h0 pngsBySize) as Hcodes.
  set (selected := icnsSelected h0 icnsTypes pngsBySize) in *.
  assert (length (charCodes typeCode) = 4%nat) as Hcode
    by (rewrite Forall_lookup in Hcodes; apply (Hcodes _ _ Hk)).
  assert (icnsChunk typeCode d ∈ icnsChunks h0 icnsTypes pngsBySize) as Hin.
  { apply (list_elem_of_fmap_2' _ _ (typeCode, d)); [|done].
    by eapply list_elem_of_lookup_2. }
  apply len_concat_elem_of in Hin. rewrite len_icnsChunk in Hin by done.
  rewrite len_icnsBytes in Hfit.
  set (A := charCodes "icns"
            ++ be32 (8 + len (concat (icnsChunks h0 icnsTypes pngsBySize)))
            ++ concat ((λ '(typeCode, d), icnsChunk typeCode d)
                         <$> take k selected)).
  assert (len A = 8 + chunksLength (take k selected)) as HA.
  { unfold A. rewrite !len_app, len_concat_chunks by (by apply Forall_take).
    unfold len. simpl. lia. }
  assert (icnsBytes (icnsChunks h0 icnsTypes pngsBySize)
          = A ++ charCodes typeCode ++ be32 (8 + len d) ++ d
              ++ concat ((λ '(typeCode, d), icnsChunk typeCode d)
                           <$> drop (S k) selected)) as ->.
  { unfold icnsBytes, icnsChunks, A. fold selected.
    rewrite <-(take_drop_middle _ _ _ Hk) at 2.
    rewrite fmap_app, fmap_cons, concat_app, concat_cons. unfold icnsChunk.
    by rewrite <-!(assoc_L (++)). }
  pose proof (chunksLength_nonneg (take k selected)).
  rewrite <-HA. unfold len at 1 4. rewrite Nat2Z.id. split; [|split].
  - rewrite drop_app_length. by apply take_app_length'.
  - rewrite (assoc_L (++) A). apply readUInt32BE_be32; [unfold len in *; lia|].
    rewrite len_app. unfold len. rewrite Hcode. lia.
  - rewrite !(assoc_L (++)), <-(assoc_L (++) _ d).
    rewrite drop_app_length'
      by (rewrite !length_app, Hcode; unfold len; simpl; lia).
    apply take_app_length.
Qed.

Lemma createIcns_chunk_at_witness :
  ∃ bytes,
    [[1; 2; 3; 4]; [5; 6];
     icnsChunk "icp4" [1; 2; 3; 4]; icnsChunk "icp5" [5; 6];
     icnsBytes [icnsChunk "icp4" [1; 2; 3; 4]; icnsChunk "icp5" [5; 6]]]
      !! 4%nat = Some bytes
    ∧ take 4 (drop (Z.to_nat
                      (8 + chunksLength
                             (take 1 (icnsSelected [[1; 2; 3; 4]; [5; 6]]
                                        icnsTypes
                                        (<[32 := 1%nat]> (<[16 := 0%nat]> ∅))))))
                   bytes)
      = charCodes "icp5"
    ∧ readUInt32BE bytes
        (8 + chunksLength
               (take 1 (icnsSelected [[1; 2; 3; 4]; [5; 6]] icnsTypes
                          (<[32 := 1%nat]> (<[16 := 0%nat]> ∅)))) + 4)
      = Some (8 + len [5; 6])
    ∧ take (length [5; 6])
        (drop (Z.to_nat
                 (8 + chunksLength
                        (take 1 (icnsSelected [[1; 2; 3; 4]; [5; 6]] icnsTypes
                                   (<[32 := 1%nat]> (<[16 := 0%nat]> ∅))))
                  + 8))
              bytes)
      = [5; 6].
Proof.
  apply (createIcns_chunk_at (H := node22) [[1; 2; 3; 4]; [5; 6]]
           (<[32 := 1%nat]> (<[16 := 0%nat]> ∅)) _ _ 1 "icp5" [5; 6]).
  - exact validRefs_two.
  - vm_compute. reflexivity.
  - reflexivity.
Defined.

(** * The orchestrator *)

Lemma twp_resolve {A} (a : A) Q E w : Q a w → twp (resolve a) Q E w.
Proof. done. Qed.

Lemma twp_andThen {A B} (c : task A) (k : A → task B) Q E w :
  twp c (λ a w', twp (k a) Q E w') E w → twp (andThen c k) Q E w.
Proof. unfold twp, andThen. by destruct (c w) as [w' [e|a]]. Qed.

Lemma twp_returned {A} (c : task A) Q E w w' a :
  twp c Q E w → c w = (w', inr a) → Q a w'.
Proof. unfold twp. intros Hwp Hrun. by rewrite Hrun in Hwp. Qed.

Lemma twp_thrown {A} (c : task A) Q E w w' e :
  twp c Q E w → c w = (w', inl e) → E e w'.
Proof. unfold twp. intros Hwp Hrun. by rewrite Hrun in Hwp. Qed.

Lemma written_snoc `{Host} svg fs done p ops d :
  png svg ops = Some d →
  written svg fs (done ++ [(p, ops)]) = <[p := d]> (written svg fs done).
Proof. intros Hd. unfold written. rewrite foldl_app. simpl. by rewrite Hd. Qed.

Lemma lookup_after {A} (l1 l2 : list A) i :
  (l1 ++ l2) !! (i + length l1)%nat = l2 !! i.
Proof. rewrite lookup_app_r by lia. f_equal. lia. Qed.

Lemma deref_seq (h : heap) (datas : list bytes) :
  deref (h ++ datas) (seq (length h) (length datas)) datas.
Proof.
  apply Forall2_same_length_lookup. split; [by rewrite length_seq|].
  intros i r d Hr Hd. apply lookup_seq in Hr as [-> _].
  by rewrite Nat.add_comm, lookup_after.
Qed.

(** The stages of [generateIcons], from the world [w0] it started in. *)
Section stages.
Context `{Host} `{Platform} (w0 : world) (svg : bytes).
Context (E : exception → world → Prop).
Context (Hinterrupted : ∀ e w, interrupted w0 svg w → E e w).
Context (HicoStage : ∀ e w, icoStage w0 svg w → E e w).

Lemma pngStage_svgBuffer done w :
  pngStage w0 svg done w → buffers w !! length (buffers w0) = Some svg.
Proof. intros [[hs ->] _]. by apply list_lookup_middle. Qed.

Lemma pngStage_stopped done rest e w :
  pngFiles = done ++ rest → pngStage w0 svg done w → E e w.
Proof. intros Hplan Hw. apply Hinterrupted. exists done. by split; [exists rest|]. Qed.

Lemma toFile_stage done p ops rest w (Q : unit → world → Prop) :
  pngFiles = done ++ (p, ops) :: rest →
  pngStage w0 svg done w →
  (∀ w', pngStage w0 svg (done ++ [(p, ops)]) w' → Q () w') →
  twp (toFile (length (buffers w0)) ops p) Q E w.
Proof.
  intros Hplan Hw HQ.
  pose proof (pngStage_stopped _ _ SharpError _ Hplan Hw) as Hstop.
  unfold twp, toFile, andThen, render.
  rewrite (pngStage_svgBuffer _ _ Hw).
  destruct (png svg ops) as [out|] eqn:Hout; [|done].
  destruct (writable w p); [|done].
  apply HQ. destruct Hw as (Hb & Hd & Hall & Hf).
  split_and!; simpl; [done..| |].
  - apply Forall_app. split; [done|]. constructor; [by simpl; rewrite Hout|done].
  - by rewrite (written_snoc _ _ _ _ _ _ Hout), Hf.
Qed.

(** [if (!existsSync(p)) mkdirSync(p, { recursive: true })] *)
Lemma ensure_stage done rest p w (Q : unit → world → Prop)
    (k : task unit) :
  pngFiles = done ++ rest →
  pngStage w0 svg done w →
  (∀ w', pngStage w0 svg done w' → twp k Q E w') →
  twp (await present <- existsSync p;
       (if negb present then mkdirSync p else resolve ());;; k) Q E w.
Proof.
  intros Hplan Hw Hk. apply twp_andThen. unfold twp at 1, existsSync.
  apply twp_andThen.
  destruct (negb _); [|by apply Hk].
  unfold twp at 1, mkdirSync.
  destruct (_ && _); [|by eapply pngStage_stopped].
  apply Hk. destruct Hw as (Hb & Hd & Hall & Hf).
  split_and!; simpl; [done| |done..].
  etrans; [exact Hd|apply union_subseteq_l].
Qed.

Lemma forOf_stage (g : Z * string → list (list string * list operation))
    (body : Z * string → task unit) :
  (∀ done x rest w (Q : unit → world → Prop),
     pngFiles = done ++ g x ++ rest → pngStage w0 svg done w →
     (∀ w', pngStage w0 svg (done ++ g x) w' → Q () w') →
     twp (body x) Q E w) →
  ∀ L done rest w (Q : unit → world → Prop),
    pngFiles = done ++ (L ≫= g) ++ rest → pngStage w0 svg done w →
    (∀ w', pngStage w0 svg (done ++ (L ≫= g)) w' → Q () w') →
    twp (forOf L body) Q E w.
Proof.
  intros Hbody L. induction L as [|x L IH]; intros done rest w Q Hplan Hw HQ.
  - apply HQ. by rewrite app_nil_r.
  - cbn [forOf]. apply twp_andThen.
    rewrite bind_cons, <-(assoc_L (++)) in Hplan.
    apply (Hbody done x ((L ≫= g) ++ rest)); [done..|].
    intros w' Hw'. apply (IH (done ++ g x) rest); [by rewrite <-(assoc_L (++))|done|].
    intros w'' Hw''. apply HQ. by rewrite bind_cons, (assoc_L (++)).
Qed.

Lemma pushRendered_stage sizes : ∀ icoPngs w (Q : list ref → world → Prop),
  buffers w !! length (buffers w0) = Some svg →
  (∀ e hs, E e (World (buffers w ++ hs) (files w) (directories w))) →
  (∀ datas, renders svg sizes datas →
     Q (icoPngs ++ seq (length (buffers w)) (length sizes))
       (World (buffers w ++ datas) (files w) (directories w))) →
  twp (pushRendered (length (buffers w0)) sizes icoPngs) Q E w.
Proof.
  induction sizes as [|size sizes IH]; intros icoPngs w Q Hsvg HE HQ.
  - specialize (HQ [] ltac:(constructor)). rewrite !app_nil_r in HQ.
    by destruct w.
  - cbn [pushRendered]. apply twp_andThen.
    unfold twp at 1, toBuffer, andThen, render. rewrite Hsvg.
    destruct (png svg [resize size size]) as [out|] eqn:Hout.
    2:{ specialize (HE SharpError []). rewrite app_nil_r in HE. by destruct w. }
    apply IH; simpl.
    + by apply lookup_app_l_Some.
    + intros e hs. rewrite <-(assoc_L (++)). apply HE.
    + intros datas Hdatas. rewrite <-!(assoc_L (++)), length_app. simpl.
      rewrite Nat.add_1_r. apply (HQ (out :: datas)). by constructor.
Qed.

Lemma assignRendered_stage sizes : ∀ icnsPngs w (Q : gmap Z ref → world → Prop),
  buffers w !! length (buffers w0) = Some svg →
  (∀ e hs, E e (World (buffers w ++ hs) (files w) (directories w))) →
  (∀ datas, renders svg sizes datas →
     Q (foldl (λ pngsBySize e, <[e.1 := e.2]> pngsBySize) icnsPngs
          (zip sizes (seq (length (buffers w)) (length sizes))))
       (World (buffers w ++ datas) (files w) (directories w))) →
  twp (assignRendered (length (buffers w0)) sizes icnsPngs) Q E w.
Proof.
  induction sizes as [|size sizes IH]; intros icnsPngs w Q Hsvg HE HQ.
  - specialize (HQ [] ltac:(constructor)). rewrite !app_nil_r in HQ.
    by destruct w.
  - cbn [assignRendered]. apply twp_andThen.
    unfold twp at 1, toBuffer, andThen, render. rewrite Hsvg.
    destruct (png svg [resize size size]) as [out|] eqn:Hout.
    2:{ specialize (HE SharpError []). rewrite app_nil_r in HE. by destruct w. }
    apply IH; simpl.
    + by apply lookup_app_l_Some.
    + intros e hs. rewrite <-(assoc_L (++)). apply HE.
    + intros datas Hdatas. rewrite <-!(assoc_L (++)), length_app. simpl.
      rewrite Nat.add_1_r. apply (HQ (out :: datas)). by constructor.
Qed.

End stages.

Lemma pngStage_buffers `{Host} w0 svg done w h :
  pngStage w0 svg done w → (∃ hs, h = buffers w ++ hs) →
  pngStage w0 svg done (World h (files w) (directories w)).
Proof.
  intros ([hs Hb] & Hd & Hall & Hf) [hs' ->]. split_and!; [|done..].
  exists (hs ++ hs'). simpl. by rewrite Hb, <-(assoc_L (++)).
Qed.

Lemma icoStage_buffers `{Host} `{Platform} w0 svg w h :
  icoStage w0 svg w → (∃ hs, h = buffers w ++ hs) →
  icoStage w0 svg (World h (files w) (directories w)).
Proof.
  intros (icos & Hicos & Hfit & [hs Hb] & Hd & Hall & Hf) [hs' ->].
  exists icos. split_and!; [done..| |done|done|done].
  exists (hs ++ hs'). simpl. by rewrite Hb, <-(assoc_L (++)).
Qed.

Lemma populate_values (entries : list (Z * ref)) size r :
  populate entries !! size = Some r → r ∈ entries.*2.
Proof.
  unfold populate.
  induction entries as [|[size' r'] entries IH] using rev_ind; [done|].
  rewrite foldl_snoc, fmap_app, elem_of_app. cbn [fst snd].
  intros [[_ <-]|[_ Hr]]%lookup_insert_Some; [right; by left|left; auto].
Qed.

(** The mapping [generateIcons] fills for [createIcns] names the seven renders,
    and each becomes the chunk of its size. *)
Lemma icnsChunks_rendered `{Host} svg (h : heap) (datas : list bytes) :
  renders svg [16; 32; 64; 128; 256; 512; 1024] datas →
  let icnsPngs :=
    populate (zip [16; 32; 64; 128; 256; 512; 1024] (seq (length h) 7)) in
  validRefs (h ++ datas) icnsPngs
  ∧ Forall2 (λ '(size, typeCode) chunk,
               ∃ d, png svg [resize size size] = Some d
                    ∧ chunk = icnsChunk typeCode d)
      typeCodeRegistry (icnsChunks (h ++ datas) icnsTypes icnsPngs).
Proof.
  intros Hdatas icnsPngs. pose proof (Forall2_length _ _ _ Hdatas) as Hlen.
  split.
  - intros size r Hr%populate_values. apply lookup_lt_is_Some.
    apply list_elem_of_fmap in Hr as ([size' r'] & -> & Hin).
    apply elem_of_zip_r, elem_of_seq in Hin. rewrite length_app. simpl in *. lia.
  - repeat (apply Forall2_cons_inv_l in Hdatas as (? & ? & ? & Hdatas & ->)).
    apply Forall2_nil_inv_l in Hdatas as ->.
    unfold icnsChunks. rewrite icnsSelected_registry.
    assert (icnsPngs !! 16 = Some (0 + length h)%nat
            ∧ icnsPngs !! 32 = Some (1 + length h)%nat
            ∧ icnsPngs !! 64 = Some (2 + length h)%nat
            ∧ icnsPngs !! 128 = Some (3 + length h)%nat
            ∧ icnsPngs !! 256 = Some (4 + length h)%nat
            ∧ icnsPngs !! 512 = Some (5 + length h)%nat
            ∧ icnsPngs !! 1024 = Some (6 + length h)%nat)
      as (H16 & H32 & H64 & H128 & H256 & H512 & H1024).
    { subst icnsPngs. generalize (length h). intros b. by vm_compute. }
    unfold typeCodeRegistry. cbn [omap list_omap].
    rewrite H16, H32, H64, H128, H256, H512, H1024. cbn [mbind option_bind].
    rewrite !lookup_after. cbn [lookup list_lookup mbind option_bind fmap list_fmap].
    repeat constructor; eauto.
Qed.

Section generateIcons_run.
Context `{Host} `{Platform} (w0 : world) (svg : bytes).
Context (Hsvg : files w0 !! SVG_PATH = Some svg).

(** Every run of [generateIcons] that has read the SVG ends in one of three
    states: everything written; stopped before [icon.ico] with a prefix of the
    PNG files written; stopped after [icon.ico] and before [icon.icns]. *)
Lemma generateIcons_twp :
  twp generateIcons (λ _ w, icnsStage w0 svg w)
    (λ _ w, interrupted w0 svg w ∨ icoStage w0 svg w) w0.
Proof.
  set (E := λ (_ : exception) w, interrupted w0 svg w ∨ icoStage w0 svg w).
  assert (∀ e w, interrupted w0 svg w → E e w) as Hint by (intros; by left).
  assert (∀ e w, icoStage w0 svg w → E e w) as Hico by (intros; by right).
  unfold generateIcons. apply twp_andThen.
  unfold twp at 1, readFileSync. rewrite Hsvg.
  set (w1 := World _ _ _).
  assert (pngStage w0 svg [] w1) as Hw1 by (by split_and!; [exists []|..]).
  assert (∀ dir : list string,
            let g := λ '(size, name), [(join dir name, [resize size size])] in
            ∀ done x rest w (Q : unit → world → Prop),
              pngFiles = done ++ g x ++ rest → pngStage w0 svg done w →
              (∀ w', pngStage w0 svg (done ++ g x) w' → Q () w') →
              twp (let '(size, name) := x in
                   toFile (length (buffers w0)) [resize size size]
                     (join dir name)) Q E w) as Hbody.
  { intros dir g done [size name] rest w Q Hplan Hw HQ.
    eapply (toFile_stage w0 svg E Hint); [exact Hplan|exact Hw|exact HQ]. }
  (* standard icons *)
  apply twp_andThen.
  eapply (forOf_stage w0 svg E _ _ (Hbody ICONS_DIR) _ []);
    [reflexivity|exact Hw1|]. clear w1 Hw1. intros w Hw.
  (* Windows icons *)
  apply twp_andThen.
  eapply (forOf_stage w0 svg E _ _ (Hbody ICONS_DIR));
    [|exact Hw|]; [reflexivity|]. clear w Hw. intros w Hw.
  (* iOS icons *)
  cbv zeta.
  eapply (λ Hp, ensure_stage w0 svg E Hint _ _ _ _ _ _ Hp Hw); [reflexivity|].
  clear w Hw. intros w Hw.
  apply twp_andThen.
  eapply (forOf_stage w0 svg E _ _ (Hbody (join ICONS_DIR "ios")));
    [|exact Hw|]; [reflexivity|]. clear w Hw. intros w Hw.
  (* Android icons *)
  apply twp_andThen.
  eapply (forOf_stage w0 svg E
            (λ '(size, dir),
               let dirPath := join (join ICONS_DIR "android") dir in
               [ (join dirPath "ic_launcher.png", [resize size size]);
                 (join dirPath "ic_launcher_round.png", [resize size size]);
                 (join dirPath "ic_launcher_foreground.png",
                  foreground size) ])); [| |exact Hw|]; [|reflexivity|].
  { clear w Hw. intros done [size dir] rest w Q Hplan Hw HQ. cbv zeta in *.
    eapply (ensure_stage w0 svg E Hint _ _ _ _ _ _ Hplan Hw).
    clear w Hw. intros w Hw.
    apply twp_andThen.
    eapply (toFile_stage w0 svg E Hint); [exact Hplan|exact Hw|].
    clear w Hw. intros w Hw.
    apply twp_andThen.
    eapply (λ Hp, toFile_stage w0 svg E Hint _ _ _ _ _ _ Hp Hw);
      [rewrite <-!(assoc_L (++)); exact Hplan|].
    clear w Hw. intros w Hw.
    eapply (λ Hp, toFile_stage w0 svg E Hint _ _ _ _ _ _ Hp Hw);
      [rewrite <-!(assoc_L (++)); exact Hplan|].
    clear w Hw. intros w Hw. apply HQ. by rewrite <-!(assoc_L (++)) in Hw. }
  clear w Hw. intros w Hw. change (pngStage w0 svg pngFiles w) in Hw.
  (* the ICO container *)
  pose proof (pngStage_svgBuffer _ _ _ _ Hw) as Hbuf.
  apply twp_andThen. apply (pushRendered_stage w0 svg E); [done| |].
  { intros e hs. left. exists pngFiles. split; [done|].
    apply pngStage_buffers; [done|by exists hs]. }
  intros icos Hicos.
  apply twp_andThen. unfold twp at 1, call at 1.
  cbn [buffers files directories].
  rewrite app_nil_l, (Forall2_length _ _ _ Hicos).
  destruct (createIco _ icoSizes (buffers w ++ icos))
    as [h [e|icoBuffer]] eqn:Hrun.
  { apply createIco_thrown in Hrun as [_ [hs ->]].
    left. exists pngFiles. split; [done|].
    apply pngStage_buffers; [done|]. exists (icos ++ hs).
    by rewrite (assoc_L (++)). }
  apply createIco_returned in Hrun as (-> & datas & Hderef & Hfit & ->).
  rewrite (deref_unique _ _ _ _ Hderef (deref_seq _ _)) in *. clear Hderef.
  apply twp_andThen. unfold twp at 1, writeFileSync at 1.
  cbn [buffers files directories]. rewrite list_lookup_middle by done.
  destruct (writable _ _).
  2:{ left. exists pngFiles. split; [done|].
      apply pngStage_buffers; [done|]. exists (icos ++ [icoBytes icoSizes icos]).
      by rewrite (assoc_L (++)). }
  set (w3 := World _ _ _).
  assert (icoStage w0 svg w3) as Hw3.
  { destruct Hw as ([hs Hb] & Hd & Hall & Hf). exists icos.
    split; [exact Hicos|]. split; [exact Hfit|].
    split; [|split; [exact Hd|split; [exact Hall|]]].
    - exists (hs ++ icos ++ [icoBytes icoSizes icos]). unfold w3.
      cbn [buffers]. by rewrite Hb, <-!(assoc_L (++)).
    - unfold w3. cbn [files]. rewrite Hf. reflexivity. }
  assert (buffers w3 !! length (buffers w0) = Some svg) as Hbuf3
    by (by do 2 apply lookup_app_l_Some).
  clearbody w3. clear dependent w. clear datas.
  (* the ICNS container *)
  cbv zeta. apply twp_andThen. apply (assignRendered_stage w0 svg E); [done| |].
  { intros e hs. right. apply icoStage_buffers; [done|by exists hs]. }
  intros datas Hdatas.
  destruct (icnsChunks_rendered svg (buffers w3) datas Hdatas)
    as [Hvalid Hchunks].
  change (foldl _ ∅ ?entries) with (populate entries).
  set (icnsPngs := populate _) in *.
  apply twp_andThen. unfold twp at 1, call at 1.
  cbn [buffers files directories].
  destruct (createIcns icnsPngs (buffers w3 ++ datas))
    as [h [e|icnsBuffer]] eqn:Hrun.
  { apply createIcns_thrown in Hrun as [_ [hs ->]]; [|done].
    right. apply icoStage_buffers; [done|]. exists (datas ++ hs).
    by rewrite (assoc_L (++)). }
  apply createIcns_returned in Hrun as (Hfit2 & Hicns & [hs ->]); [|done].
  unfold twp, writeFileSync. cbn [buffers files directories]. rewrite Hicns.
  destruct (writable _ _).
  2:{ right. apply icoStage_buffers; [done|]. exists (datas ++ hs).
      by rewrite (assoc_L (++)). }
  destruct Hw3 as (icos' & Hicos' & Hfit' & [hs' Hb] & Hd & Hall & Hf).
  exists icos', (icnsChunks (buffers w3 ++ datas) icnsTypes icnsPngs).
  split; [exact Hicos'|]. split; [exact Hfit'|].
  split; [exact Hchunks|]. split; [exact Hfit2|].
  split; [|split; [exact Hd|split; [exact Hall|]]].
  - exists (hs' ++ datas ++ hs). cbn [buffers].
    by rewrite Hb, <-!(assoc_L (++)).
  - cbn [files]. rewrite Hf. reflexivity.
Qed.

Lemma generateIcons_outcome w e_or_unit :
  generateIcons w0 = (w, e_or_unit) →
  match e_or_unit with
  | inr _ => icnsStage w0 svg w
  | inl _ => interrupted w0 svg w ∨ icoStage w0 svg w
  end.
Proof.
  intros Hrun. pose proof generateIcons_twp as Hwp. unfold twp in Hwp.
  rewrite Hrun in Hwp. by destruct e_or_unit.
Qed.

End generateIcons_run.

(** ** The paths [generateIcons] writes *)

Lemma targets_relative `{Host} : targets = (ICONS_DIR ++.) <$> relativeTargets.
Proof.
  unfold targets, pngFiles, icoPath, icnsPath, join.
  cbn [STANDARD_ICONS WINDOWS_ICONS IOS_ICONS ANDROID_ICONS mbind list_bind
       app fmap list_fmap fst].
  rewrite <-!(assoc_L (++)). reflexivity.
Qed.

Lemma NoDup_relativeTargets :
  NoDup (["doggy-logo.svg"]%string :: relativeTargets).
Proof. compute_done. Qed.

Lemma NoDup_targets `{Host} : NoDup (SVG_PATH :: targets).
Proof.
  rewrite targets_relative.
  change (NoDup ((ICONS_DIR ++.)
                   <$> (["doggy-logo.svg"]%string :: relativeTargets))).
  apply NoDup_fmap_2; [|apply NoDup_relativeTargets].
  intros p q. apply app_inv_head.
Qed.

Lemma NoDup_pngFiles `{Host} : NoDup pngFiles.*1.
Proof.
  pose proof NoDup_targets as Hnd. apply NoDup_cons in Hnd as [_ Hnd].
  by apply NoDup_app in Hnd as [? _].
Qed.

Lemma icoPath_fresh `{Host} :
  (icoPath ∉ pngFiles.*1) ∧ icoPath ≠ icnsPath ∧ icoPath ≠ SVG_PATH.
Proof.
  pose proof NoDup_targets as Hnd. apply NoDup_cons in Hnd as [Hsvg Hnd].
  apply NoDup_app in Hnd as (_ & Hpng & Hnd).
  apply NoDup_cons in Hnd as [Hico _]. split_and!.
  - intros Hin. apply (Hpng _ Hin). by left.
  - intros Heq. apply Hico. rewrite <-Heq. by left.
  - intros Heq. apply Hsvg. unfold targets. rewrite <-Heq, elem_of_app.
    right. by left.
Qed.

Lemma icnsPath_fresh `{Host} :
  (icnsPath ∉ pngFiles.*1) ∧ icnsPath ≠ SVG_PATH.
Proof.
  pose proof NoDup_targets as Hnd. apply NoDup_cons in Hnd as [Hsvg Hnd].
  apply NoDup_app in Hnd as (_ & Hpng & _). split.
  - intros Hin. apply (Hpng _ Hin). right. by left.
  - intros Heq. apply Hsvg. unfold targets. rewrite <-Heq, elem_of_app.
    right. right. by left.
Qed.

Lemma lookup_written_notin `{Host} svg fs done p :
  p ∉ done.*1 → written svg fs done !! p = fs !! p.
Proof.
  induction done as [|[q ops] done IH] using rev_ind; [done|].
  rewrite fmap_app, not_elem_of_app. intros [Hdone Hq].
  unfold written. rewrite foldl_snoc. fold (written svg fs done).
  destruct (png svg ops); [|by apply IH].
  rewrite lookup_insert_ne; [by apply IH|].
  intros ->. apply Hq. by left.
Qed.

Lemma lookup_written_in `{Host} svg fs done p ops :
  NoDup done.*1 → Forall (λ t, is_Some (png svg t.2)) done →
  (p, ops) ∈ done → written svg fs done !! p = png svg ops.
Proof.
  induction done as [|[q ops'] done IH] using rev_ind;
    [by intros _ _ ?%elem_of_nil|].
  rewrite fmap_app, NoDup_app, Forall_app, Forall_singleton, elem_of_app.
  intros (Hnd & Hdisj & _) [Hall [d Hd]] Hin. simpl in Hd.
  rewrite (written_snoc _ _ _ _ _ _ Hd).
  destruct Hin as [Hin|[= -> ->]%list_elem_of_singleton].
  - rewrite lookup_insert_ne; [by apply IH|].
    intros ->. apply (Hdisj p); [|by left].
    apply list_elem_of_fmap. by exists (p, ops).
  - by rewrite lookup_insert_eq.
Qed.

Lemma written_union `{Host} svg fs done :
  written svg fs done = written svg ∅ done ∪ fs.
Proof.
  induction done as [|[q ops] done IH] using rev_ind.
  - unfold written. simpl. by rewrite (left_id_L ∅ (∪)).
  - unfold written. rewrite !foldl_snoc. fold (written svg fs done).
    fold (written svg ∅ done). rewrite IH.
    destruct (png svg ops); [|done]. by rewrite insert_union_l.
Qed.

Lemma renders_unique `{Host} svg sizes datas datas' :
  renders svg sizes datas → renders svg sizes datas' → datas = datas'.
Proof.
  intros Hd Hd'. eapply Forall2_unique; [done..|]. intros; congruence.
Qed.

(** What a run of [generateIcons] ends in. *)
Lemma generateIcons_cases `{Host} `{Platform} w0 w result :
  generateIcons w0 = (w, result) →
  (files w0 !! SVG_PATH = None ∧ w = w0 ∧ result = inl SystemError)
  ∨ ∃ svg, files w0 !! SVG_PATH = Some svg
           ∧ match result with
             | inr _ => icnsStage w0 svg w
             | inl _ => interrupted w0 svg w ∨ icoStage w0 svg w
             end.
Proof.
  intros Hrun. destruct (files w0 !! SVG_PATH) as [svg|] eqn:Hsvg.
  - right. exists svg. split; [done|]. by apply generateIcons_outcome.
  - left. split; [done|].
    unfold generateIcons, andThen at 1, readFileSync in Hrun.
    rewrite Hsvg in Hrun. by simplify_eq.
Qed.

Lemma run_eq {A} (c : task A) w result :
  (c w).2 = result → c w = ((c w).1, result).
Proof. destruct (c w). simpl. by intros ->. Qed.

(** X13.  Without the SVG logo nothing happens: when no file stands at
    [SVG_PATH], [generateIcons] rejects with the error of [readFileSync] and
    leaves buffers, files and directories as they were. *)
Theorem generateIcons_unreadable_svg `{Host} `{Platform} w0 :
  files w0 !! SVG_PATH = None →
  generateIcons w0 = (w0, inl SystemError).
Proof.
  intros Hsvg. unfold generateIcons, andThen at 1, readFileSync.
  by rewrite Hsvg.
Qed.

Lemma generateIcons_unreadable_svg_witness :
  @generateIcons echoHost node22 noLogo = (noLogo, inl SystemError).
Proof.
  apply (@generateIcons_unreadable_svg echoHost node22 noLogo).
  vm_compute. reflexivity.
Defined.

(** X14.  When [generateIcons] resolves, every path of the four tables (the
    standard, Windows and iOS names, and the three launcher files of each
    Android directory) holds the PNG sharp makes of the logo through the
    operations of that entry; no later write has replaced it. *)
Theorem generateIcons_png_files `{Host} `{Platform} w0 w :
  generateIcons w0 = (w, inr ()) →
  ∃ svg, files w0 !! SVG_PATH = Some svg
    ∧ ∀ p ops, (p, ops) ∈ pngFiles →
        ∃ d, png svg ops = Some d ∧ files w !! p = Some d.
Proof.
  intros Hrun.
  destruct (generateIcons_cases _ _ _ Hrun)
    as [(_ & _ & [=])|(svg & Hsvg & Hstage)].
  exists svg. split; [done|]. intros p ops Hin.
  destruct Hstage as (icos & chunks & _ & _ & _ & _ & _ & _ & Hall & ->).
  assert (p ∈ pngFiles.*1) as Hp
    by (apply list_elem_of_fmap; by exists (p, ops)).
  rewrite !lookup_insert_ne.
  - rewrite (lookup_written_in _ _ _ _ ops NoDup_pngFiles Hall Hin).
    rewrite Forall_forall in Hall. destruct (Hall _ Hin) as [d Hd].
    exists d. by rewrite <-Hd.
  - intros <-. by apply icoPath_fresh in Hp.
  - intros <-. by apply icnsPath_fresh in Hp.
Qed.

Lemma generateIcons_png_files_witness :
  ∃ svg, files logoOnly !! SVG_PATH (H := echoHost) = Some svg
    ∧ ∀ p ops, (p, ops) ∈ pngFiles (H := echoHost) →
        ∃ d, png (Host := echoHost) svg ops = Some d
             ∧ files (@generateIcons echoHost node22 logoOnly).1 !! p = Some d.
Proof.
  apply (@generateIcons_png_files echoHost node22 logoOnly).
  apply run_eq. vm_compute. reflexivity.
Defined.

(** X15.  When [generateIcons] resolves, [icon.ico] holds the container of
    [createIco] for the renders at 16, 24, 32, 48, 64, 128 and 256 pixels in
    that order, and [icon.icns] holds the container of [createIcns] with one
    chunk for every size of the registry: each of the seven sizes it renders
    is a key [createIcns] looks up, so none is skipped. *)
Theorem generateIcons_containers `{Host} `{Platform} w0 w :
  generateIcons w0 = (w, inr ()) →
  ∃ svg icos chunks,
    files w0 !! SVG_PATH = Some svg
    ∧ renders svg icoSizes icos
    ∧ files w !! icoPath = Some (icoBytes icoSizes icos)
    ∧ Forall2 (λ '(size, typeCode) chunk,
                 ∃ d, png svg [resize size size] = Some d
                      ∧ chunk = icnsChunk typeCode d) typeCodeRegistry chunks
    ∧ files w !! icnsPath = Some (icnsBytes chunks).
Proof.
  intros Hrun.
  destruct (generateIcons_cases _ _ _ Hrun)
    as [(_ & _ & [=])|(svg & Hsvg & Hstage)].
  destruct Hstage as (icos & chunks & Hicos & _ & Hchunks & _ & _ & _ & _ & ->).
  exists svg, icos, chunks.
  split; [exact Hsvg|]. split; [exact Hicos|].
  split; [|split; [exact Hchunks|apply lookup_insert_eq]].
  rewrite lookup_insert_ne; [apply lookup_insert_eq|].
  intros Heq. by destruct icoPath_fresh as (_ & Hne & _).
Qed.

Lemma generateIcons_containers_witness :
  ∃ svg icos chunks,
    files logoOnly !! SVG_PATH (H := echoHost) = Some svg
    ∧ renders (H := echoHost) svg icoSizes icos
    ∧ files (@generateIcons echoHost node22 logoOnly).1
        !! icoPath (H := echoHost) = Some (icoBytes icoSizes icos)
    ∧ Forall2 (λ '(size, typeCode) chunk,
                 ∃ d, png (Host := echoHost) svg [resize size size] = Some d
                      ∧ chunk = icnsChunk typeCode d) typeCodeRegistry chunks
    ∧ files (@generateIcons echoHost node22 logoOnly).1
        !! icnsPath (H := echoHost) = Some (icnsBytes chunks).
Proof.
  apply (@generateIcons_containers echoHost node22 logoOnly).
  apply run_eq. vm_compute. reflexivity.
Defined.

Lemma stage_frame `{Host} w0 svg done w :
  done `prefix_of` pngFiles → pngStage w0 svg done w →
  (∀ p, p ∉ pngFiles.*1 → files w !! p = files w0 !! p)
  ∧ buffers w0 `prefix_of` buffers w ∧ directories w0 ⊆ directories w.
Proof.
  intros [rest Hplan] ([hs Hb] & Hd & _ & ->). split_and!; [|by eexists|done].
  intros p Hp. apply lookup_written_notin.
  rewrite Hplan, fmap_app, not_elem_of_app in Hp. tauto.
Qed.

(** X16.  [generateIcons] touches nothing but its targets: however a run
    ends, every file at a path outside [targets] is as it was, the logo among
    them; the buffers that existed are unchanged, and no directory has gone. *)
Theorem generateIcons_frame `{Host} `{Platform} w0 w result :
  generateIcons w0 = (w, result) →
  (∀ p, p ∉ targets → files w !! p = files w0 !! p)
  ∧ files w !! SVG_PATH = files w0 !! SVG_PATH
  ∧ buffers w0 `prefix_of` buffers w
  ∧ directories w0 ⊆ directories w.
Proof.
  intros Hrun.
  assert ((∀ p, p ∉ targets → files w !! p = files w0 !! p)
          ∧ buffers w0 `prefix_of` buffers w
          ∧ directories w0 ⊆ directories w) as (Hfiles & Hbuffers & Hdirs).
  { destruct (generateIcons_cases _ _ _ Hrun)
      as [(_ & -> & _)|(svg & Hsvg & Hstage)]; [done|].
    assert (∀ p, p ∉ targets →
              (p ∉ pngFiles.*1) ∧ p ≠ icoPath ∧ p ≠ icnsPath) as Hout.
    { intros p. unfold targets.
      rewrite not_elem_of_app, !not_elem_of_cons. tauto. }
    destruct result as [e|[]].
    - destruct Hstage as [(done & Hprefix & Hstage)|Hstage].
      + destruct (stage_frame _ _ _ _ Hprefix Hstage) as (Hf & Hb & Hd).
        split_and!; [|done..]. intros p Hp. by apply Hf, Hout.
      + destruct Hstage as (icos & _ & _ & [hs Hb] & Hd & _ & ->).
        split_and!; [|by eexists|done].
        intros p (Hpng & Hico & _)%Hout.
        rewrite lookup_insert_ne by done. by apply lookup_written_notin.
    - destruct Hstage
        as (icos & chunks & _ & _ & _ & _ & [hs Hb] & Hd & _ & ->).
      split_and!; [|by eexists|done].
      intros p (Hpng & Hico & Hicns)%Hout.
      rewrite !lookup_insert_ne by done. by apply lookup_written_notin. }
  split_and!; [done| |done..].
  apply Hfiles. pose proof NoDup_targets as Hnd.
  by apply NoDup_cons in Hnd as [? _].
Qed.

Lemma generateIcons_frame_witness :
  (∀ p, p ∉ targets (H := echoHost) →
     files (@generateIcons echoHost node22 logoOnly).1 !! p
     = files logoOnly !! p)
  ∧ files (@generateIcons echoHost node22 logoOnly).1
      !! SVG_PATH (H := echoHost)
    = files logoOnly !! SVG_PATH (H := echoHost)
  ∧ buffers logoOnly
      `prefix_of` buffers (@generateIcons echoHost node22 logoOnly).1
  ∧ directories logoOnly
      ⊆ directories (@generateIcons echoHost node22 logoOnly).1.
Proof.
  apply (@generateIcons_frame echoHost node22 logoOnly _ (inr ())).
  apply run_eq. vm_compute. reflexivity.
Defined.

(** X17.  The files are written in the order of the tables and [icon.icns]
    comes last: when [generateIcons] rejects, [icon.icns] is as it was, and
    the PNG files split at some position of the plan: each before it holds
    its render, each from it on is as it was. *)
Theorem generateIcons_rejected `{Host} `{Platform} w0 w e :
  generateIcons w0 = (w, inl e) →
  files w !! icnsPath = files w0 !! icnsPath
  ∧ ∃ n : nat,
      (∀ i p ops, (i < n)%nat → pngFiles !! i = Some (p, ops) →
         ∃ svg d, files w0 !! SVG_PATH = Some svg
                  ∧ png svg ops = Some d ∧ files w !! p = Some d)
      ∧ (∀ i p ops, (n ≤ i)%nat → pngFiles !! i = Some (p, ops) →
           files w !! p = files w0 !! p).
Proof.
  intros Hrun.
  destruct (generateIcons_cases _ _ _ Hrun)
    as [(_ & -> & _)|(svg & Hsvg & Hstage)].
  { split; [done|]. exists 0%nat. split; [intros; lia|done]. }
  pose proof NoDup_pngFiles as Hnd.
  destruct icnsPath_fresh as [Hicns _]. destruct icoPath_fresh as (Hico & Hne & _).
  assert (∀ done rest, pngFiles = done ++ rest →
            Forall (λ t, is_Some (png svg t.2)) done →
            (∀ i p ops, (i < length done)%nat →
               pngFiles !! i = Some (p, ops) →
               ∃ d, png svg ops = Some d
                    ∧ written svg (files w0) done !! p = Some d)
            ∧ (∀ i p ops, (length done ≤ i)%nat →
                 pngFiles !! i = Some (p, ops) →
                 written svg (files w0) done !! p = files w0 !! p))
    as Hsplit.
  { intros done rest Hplan Hall. rewrite Hplan, fmap_app in Hnd.
    apply NoDup_app in Hnd as (Hnd & Hdisj & _). rewrite Hplan. split.
    - intros i p ops Hi Hlook. rewrite lookup_app_l in Hlook by done.
      apply list_elem_of_lookup_2 in Hlook.
      rewrite (lookup_written_in _ _ _ _ ops Hnd Hall Hlook).
      rewrite Forall_forall in Hall. destruct (Hall _ Hlook) as [d Hd].
      by exists d.
    - intros i p ops Hi Hlook. rewrite lookup_app_r in Hlook by done.
      apply list_elem_of_lookup_2 in Hlook. apply lookup_written_notin.
      intros Hp. apply (Hdisj _ Hp). apply list_elem_of_fmap.
      by exists (p, ops). }
  destruct Hstage as [(done & [rest Hplan] & Hstage)|Hstage].
  - destruct Hstage as (_ & _ & Hall & ->).
    split.
    + apply lookup_written_notin. intros Hin. apply Hicns.
      rewrite Hplan, fmap_app, elem_of_app. by left.
    + destruct (Hsplit done rest Hplan Hall) as [Hbefore Hafter].
      exists (length done). split; [|done].
      intros i p ops Hi Hlook.
      destruct (Hbefore i p ops Hi Hlook) as (d & Hd & Hp). by exists svg, d.
  - destruct Hstage as (icos & _ & _ & _ & _ & Hall & ->).
    split.
    + rewrite lookup_insert_ne by done. by apply lookup_written_notin.
    + destruct (Hsplit pngFiles [] (eq_sym (app_nil_r _)) Hall)
        as [Hbefore _].
      exists (length pngFiles). split.
      * intros i p ops Hi Hlook.
        destruct (Hbefore i p ops Hi Hlook) as (d & Hd & Hp).
        exists svg, d. split_and!; [done..|].
        rewrite lookup_insert_ne; [done|]. intros <-. apply Hico.
        apply list_elem_of_fmap. exists (icoPath, ops).
        split; [done|]. by apply list_elem_of_lookup_2 in Hlook.
      * intros i p ops Hi Hlook%lookup_lt_Some. lia.
Qed.

Lemma generateIcons_rejected_witness :
  files (@generateIcons no24Host node22 logoOnly).1 !! icnsPath (H := no24Host)
  = files logoOnly !! icnsPath (H := no24Host)
  ∧ ∃ n : nat,
      (∀ i p ops, (i < n)%nat → pngFiles (H := no24Host) !! i = Some (p, ops) →
         ∃ svg d, files logoOnly !! SVG_PATH (H := no24Host) = Some svg
                  ∧ png (Host := no24Host) svg ops = Some d
                  ∧ files (@generateIcons no24Host node22 logoOnly).1 !! p
                    = Some d)
      ∧ (∀ i p ops, (n ≤ i)%nat →
           pngFiles (H := no24Host) !! i = Some (p, ops) →
           files (@generateIcons no24Host node22 logoOnly).1 !! p
           = files logoOnly !! p).
Proof.
  apply (@generateIcons_rejected no24Host node22 logoOnly _ SharpError).
  apply run_eq. vm_compute. reflexivity.
Defined.

(** X18.  A size of the ICO container that sharp cannot render stops the run
    before either container is written: [generateIcons] rejects, and
    [icon.ico] and [icon.icns] are as they were. *)
Theorem generateIcons_ico_render_rejected `{Host} `{Platform} w0 svg size :
  files w0 !! SVG_PATH = Some svg →
  size ∈ icoSizes →
  png svg [resize size size] = None →
  ∃ w e, generateIcons w0 = (w, inl e)
         ∧ files w !! icoPath = files w0 !! icoPath
         ∧ files w !! icnsPath = files w0 !! icnsPath.
Proof.
  intros Hsvg Hsize Hnone.
  assert (∀ icos, ¬ renders svg icoSizes icos) as Hno.
  { intros icos Hicos. apply list_elem_of_lookup in Hsize as [i Hi].
    destruct (Forall2_lookup_l _ _ _ _ _ Hicos Hi) as (d & _ & Hd).
    congruence. }
  destruct (generateIcons w0) as [w result] eqn:Hrun.
  destruct (generateIcons_cases _ _ _ Hrun)
    as [(? & _ & _)|(svg' & Hsvg' & Hstage)]; [congruence|].
  assert (svg' = svg) as -> by congruence.
  destruct result as [e|[]].
  2:{ destruct Hstage as (icos & _ & Hicos & _). by destruct (Hno icos). }
  destruct Hstage as [(done & [rest Hplan] & Hstage)|(icos & Hicos & _)];
    [|by destruct (Hno icos)].
  exists w, e. split; [done|]. destruct Hstage as (_ & _ & _ & ->).
  destruct icnsPath_fresh as [Hicns _]. destruct icoPath_fresh as [Hico _].
  rewrite Hplan, fmap_app, not_elem_of_app in Hicns, Hico.
  split; apply lookup_written_notin; tauto.
Qed.

Lemma generateIcons_ico_render_rejected_witness :
  ∃ w e, @generateIcons no24Host node22 logoOnly = (w, inl e)
         ∧ files w !! icoPath (H := no24Host)
           = files logoOnly !! icoPath (H := no24Host)
         ∧ files w !! icnsPath (H := no24Host)
           = files logoOnly !! icnsPath (H := no24Host).
Proof.
  apply (@generateIcons_ico_render_rejected no24Host node22 logoOnly
           [60; 115; 118; 103; 47; 62] 24).
  - vm_compute. reflexivity.
  - right. left.
  - reflexivity.
Defined.

(** X19.  The numbers [generateIcons] computes for the pipeline of the
    adaptive-icon foreground, for a size of magnitude up to 2^51, where the
    arithmetic of the code is exact: [Math.round(size * 1.5)] is
    (3 size + 1) / 2 rounded down, and this number and twice the padding
    [Math.round((size * 2 - foregroundSize) / 2)] add up to 2 size, or to
    2 size + 1 when size leaves remainder 2 or 3 modulo 4.  For the five
    Android sizes they add up to exactly 2 size. *)
Theorem foreground_canvas (size : Z) :
  Z.abs size ≤ 2 ^ 51 →
  foregroundSize size = (3 * size + 1) / 2
  ∧ foregroundSize size + 2 * foregroundPadding size
    = 2 * size + (if size `mod` 4 <? 2 then 0 else 1)
  ∧ Forall (λ entry, foregroundSize entry.1 + 2 * foregroundPadding entry.1
                     = 2 * entry.1) ANDROID_ICONS.
Proof.
  intros _.
  assert (∀ s, foregroundSize s = (3 * s + 1) / 2) as Hsize.
  { intros s. unfold foregroundSize, Math_round, Qfloor. cbn.
    Z.div_mod_to_equations. lia. }
  assert (∀ s, foregroundPadding s = (2 * s - foregroundSize s + 1) / 2)
    as Hpadding.
  { intros s. unfold foregroundPadding, Math_round, Qfloor. cbn.
    generalize (foregroundSize s). intros f.
    Z.div_mod_to_equations. lia. }
  split; [apply Hsize|]. split.
  - rewrite Hpadding, Hsize. destruct (Z.ltb_spec (size `mod` 4) 2);
      Z.div_mod_to_equations; lia.
  - repeat constructor.
Qed.

Lemma foreground_canvas_witness :
  foregroundSize 48 = (3 * 48 + 1) / 2
  ∧ foregroundSize 48 + 2 * foregroundPadding 48
    = 2 * 48 + (if 48 `mod` 4 <? 2 then 0 else 1)
  ∧ Forall (λ entry, foregroundSize entry.1 + 2 * foregroundPadding entry.1
                     = 2 * entry.1) ANDROID_ICONS.
Proof. apply (foreground_canvas 48). vm_compute. discriminate. Defined.

(** X20.  A second run rewrites what the first wrote: when [generateIcons]
    resolves and, run again on the files it left, resolves again, the files
    after the second run are those after the first. *)
Theorem generateIcons_twice `{Host} `{Platform} w0 w1 w2 :
  generateIcons w0 = (w1, inr ()) →
  generateIcons w1 = (w2, inr ()) →
  files w2 = files w1.
Proof.
  intros Hfirst Hsecond.
  destruct (generateIcons_cases _ _ _ Hfirst)
    as [(_ & _ & [=])|(svg & Hsvg & Hstage)].
  destruct (generateIcons_cases _ _ _ Hsecond)
    as [(_ & _ & [=])|(svg' & Hsvg' & Hstage')].
  destruct Hstage
    as (icos & chunks & Hicos & _ & Hchunks & _ & _ & _ & _ & Hfiles).
  destruct Hstage'
    as (icos' & chunks' & Hicos' & _ & Hchunks' & _ & _ & _ & _ & ->).
  assert (svg' = svg) as ->.
  { pose proof NoDup_targets as Hnd. apply NoDup_cons in Hnd as [Hout _].
    unfold targets in Hout. rewrite not_elem_of_app, !not_elem_of_cons in Hout.
    rewrite Hfiles, !lookup_insert_ne, lookup_written_notin in Hsvg'
      by (tauto || (intros Heq; symmetry in Heq; tauto)).
    congruence. }
  rewrite <-(renders_unique _ _ _ _ Hicos Hicos').
  assert (chunks' = chunks) as ->.
  { eapply Forall2_unique; [exact Hchunks'|exact Hchunks|].
    intros [size typeCode] c c' (d & Hd & ->) (d' & Hd' & ->). congruence. }
  rewrite (written_union svg (files w0)), !insert_union_l in Hfiles.
  rewrite (written_union svg (files w1)), !insert_union_l, Hfiles.
  by rewrite (assoc_L (∪)), (idemp_L (∪)).
Qed.

Lemma generateIcons_twice_witness :
  files (@generateIcons echoHost node22
           (@generateIcons echoHost node22 logoOnly).1).1
  = files (@generateIcons echoHost node22 logoOnly).1.
Proof.
  apply (@generateIcons_twice echoHost node22 logoOnly).
  - apply run_eq. vm_compute. reflexivity.
  - apply run_eq. vm_compute. reflexivity.
Defined.

(** ** When [generateIcons] resolves *)

Lemma parent_join dir name : parent (join dir name) = dir.
Proof.
  unfold parent, join. rewrite length_app. simpl.
  by rewrite Nat.add_sub, take_app_length.
Qed.

Lemma elem_of_ancestors_self p : p ∈ ancestors p.
Proof.
  unfold ancestors. apply list_elem_of_fmap. exists (length p).
  split; [by rewrite take_ge|]. apply elem_of_seq. lia.
Qed.

Lemma madeDirectories_relative `{Host} :
  madeDirectories = (ICONS_DIR ++.) <$> relativeDirectories.
Proof.
  unfold madeDirectories, join.
  cbn [ANDROID_ICONS mbind list_bind app fmap list_fmap].
  rewrite <-!(assoc_L (++)). reflexivity.
Qed.

Lemma relativeTargets_not_prefix :
  Forall (λ t, Forall (λ rel, ¬ t `prefix_of` rel) relativeDirectories)
    relativeTargets.
Proof. compute_done. Qed.

(** No target is a directory that [generateIcons] makes, or one above. *)
Lemma target_not_ancestor `{Host} p a :
  p ∈ targets → a ∈ madeDirectories ≫= ancestors → p ≠ a.
Proof.
  rewrite targets_relative, madeDirectories_relative.
  intros (t & -> & Ht)%list_elem_of_fmap (m & Ha & Hm)%list_elem_of_bind.
  apply list_elem_of_fmap in Hm as (rel & -> & Hrel).
  apply list_elem_of_fmap in Ha as (n & -> & _).
  intros Heq.
  pose proof relativeTargets_not_prefix as Hno.
  rewrite Forall_forall in Hno. specialize (Hno _ Ht).
  rewrite Forall_forall in Hno. apply (Hno _ Hrel).
  apply (prefix_app_inv ICONS_DIR). rewrite Heq.
  exists (drop n (ICONS_DIR ++ rel)). by rewrite take_drop.
Qed.

Lemma len_concat_bounded (bound : Z) (datas : list bytes) :
  Forall (λ d, len d ≤ bound) datas →
  len (concat datas) ≤ bound * Z.of_nat (length datas).
Proof.
  induction 1 as [|d datas Hd _ IH]; [simpl; unfold len; simpl; lia|].
  rewrite concat_cons, len_app. simpl length. lia.
Qed.

Lemma icoFits_bounded `{Platform} sizes datas :
  (length datas ≤ 7)%nat → Forall (λ size, 0 ≤ size) sizes →
  Forall (λ d, len d ≤ 2 ^ 26) datas → icoFits sizes datas.
Proof.
  intros Hlen Hsizes Hdatas.
  pose proof (len_concat_bounded _ _ Hdatas) as Hall.
  pose proof kMaxLength_lower as Hmax.
  change (2 ^ 30 - 1) with 1073741823 in Hmax.
  change (2 ^ 26) with 67108864 in *.
  split_and!.
  - lia.
  - intros i s _ Hs. rewrite Forall_forall in Hsizes.
    by apply list_elem_of_lookup_2, Hsizes in Hs.
  - intros i d Hd. split.
    + rewrite Forall_forall in Hdatas.
      apply list_elem_of_lookup_2, Hdatas in Hd. lia.
    + pose proof (length_concat_take_le datas i).
      unfold headerSize, dirEntrySize, len in *. lia.
  - rewrite len_icoBytes. unfold headerSize, dirEntrySize. lia.
Qed.

Lemma icnsFits_bounded `{Platform} `{Host} svg chunks :
  Forall2 (λ '(size, typeCode) chunk,
             ∃ d, png svg [resize size size] = Some d
                  ∧ chunk = icnsChunk typeCode d) typeCodeRegistry chunks →
  Forall (λ size, ∃ d, png svg [resize size size] = Some d ∧ len d ≤ 2 ^ 26)
    typeCodeRegistry.*1 →
  icnsFits chunks.
Proof.
  intros Hchunks Hbound.
  assert (Forall (λ chunk, len chunk ≤ 8 + 2 ^ 26) chunks) as Hall.
  { apply Forall_lookup_2. intros i chunk Hchunk.
    destruct (Forall2_lookup_r _ _ _ _ _ Hchunks Hchunk)
      as ([size typeCode] & Hentry & d & Hd & ->).
    rewrite Forall_forall in Hbound.
    destruct (Hbound size) as (d' & Hd' & Hlen).
    { apply list_elem_of_fmap. exists (size, typeCode).
      split; [done|]. by apply list_elem_of_lookup_2 in Hentry. }
    assert (d' = d) as -> by congruence.
    rewrite len_icnsChunk; [lia|].
    assert (Forall (λ e, length (charCodes e.2) = 4%nat) typeCodeRegistry)
      as Hcodes by (by repeat constructor).
    rewrite Forall_forall in Hcodes.
    by apply list_elem_of_lookup_2, Hcodes in Hentry. }
  apply len_concat_bounded in Hall.
  rewrite <-(Forall2_length _ _ _ Hchunks) in Hall. simpl length in Hall.
  pose proof kMaxLength_lower as Hmax.
  change (2 ^ 30 - 1) with 1073741823 in Hmax.
  change (2 ^ 26) with 67108864 in *.
  unfold icnsFits. rewrite len_icnsBytes. lia.
Qed.

Section resolves.
Context `{Host} `{Platform} (w0 : world) (svg : bytes).
Context (E : exception → world → Prop).

Lemma toFile_ok w p ops (Q : unit → world → Prop) :
  buffers w !! length (buffers w0) = Some svg → ready w →
  p ∈ targets → is_Some (png svg ops) → parent p ∈ directories w →
  (∀ w', buffers w' = buffers w → directories w' = directories w →
         ready w' → Q () w') →
  twp (toFile (length (buffers w0)) ops p) Q E w.
Proof.
  intros Hbuf (Hdir & Htargets & Hfiles & Hperm) Hp [d Hd] Hparent HQ.
  unfold twp, toFile, andThen, render. rewrite Hbuf, Hd.
  assert (writable w p = true) as ->.
  { unfold writable. rewrite Forall_forall in Hperm, Htargets.
    rewrite Hperm by (apply elem_of_app; by left).
    rewrite !bool_decide_eq_true_2; [done|by apply Htargets|done]. }
  apply HQ; [done..|]. split_and!; [done..| |done].
  cbn [files]. rewrite Forall_forall in Hfiles |- *. intros a Ha.
  rewrite lookup_insert_ne; [by apply Hfiles|].
  by apply target_not_ancestor.
Qed.

Lemma ensure_ok w p (Q : unit → world → Prop) (k : task unit) :
  ready w → p ∈ madeDirectories →
  (∀ w', buffers w' = buffers w → directories w ⊆ directories w' →
         p ∈ directories w' → ready w' → twp k Q E w') →
  twp (await present <- existsSync p;
       (if negb present then mkdirSync p else resolve ());;; k) Q E w.
Proof.
  intros Hready Hp Hk. pose proof Hready as (Hdir & Htargets & Hfiles & Hperm).
  assert (∀ a, a ∈ ancestors p → a ∈ madeDirectories ≫= ancestors)
    as Hancestors by (intros a Ha; apply list_elem_of_bind; by exists p).
  rewrite Forall_forall in Hfiles.
  apply twp_andThen. unfold twp at 1, existsSync. apply twp_andThen.
  rewrite (Hfiles p) by apply Hancestors, elem_of_ancestors_self.
  rewrite (bool_decide_eq_false_2 (is_Some None)) by (by intros [? ?]).
  rewrite orb_false_r.
  destruct (decide (p ∈ directories w)) as [Hin|Hout].
  { rewrite bool_decide_eq_true_2 by done. cbn [negb].
    by apply twp_resolve, Hk. }
  rewrite bool_decide_eq_false_2 by done. cbn [negb].
  unfold twp at 1, mkdirSync.
  assert (permitted p
          && forallb (λ a, bool_decide (files w !! a = None)) (ancestors p)
          = true) as ->.
  { rewrite Forall_forall in Hperm.
    rewrite Hperm by (apply elem_of_app; by right).
    apply forallb_forall. intros a Ha%list_elem_of_In.
    apply bool_decide_eq_true_2. by apply Hfiles, Hancestors. }
  apply Hk; cbn [buffers files directories]; [done|apply union_subseteq_l| |].
  - apply elem_of_union. right. apply elem_of_list_to_set.
    apply elem_of_ancestors_self.
  - split_and!; [|
      |by apply Forall_forall|done]; cbn [buffers files directories].
    + apply elem_of_union. by left.
    + rewrite Forall_forall in Htargets |- *. intros t Ht.
      rewrite not_elem_of_union, elem_of_list_to_set.
      split; [by apply Htargets|]. intros Ha.
      by apply (target_not_ancestor t t Ht (Hancestors t Ha)).
Qed.

Lemma forOf_ok {A} (I : world → Prop) (L : list A) (body : A → task unit) :
  (∀ x w (Q : unit → world → Prop),
     x ∈ L → I w → (∀ w', I w' → Q () w') → twp (body x) Q E w) →
  ∀ w (Q : unit → world → Prop),
    I w → (∀ w', I w' → Q () w') → twp (forOf L body) Q E w.
Proof.
  induction L as [|x L IH]; intros Hbody w Q Hw HQ; [by apply HQ|].
  cbn [forOf]. apply twp_andThen. apply Hbody; [by left|done|].
  intros w' Hw'. apply IH; [|done..].
  intros y w'' Q' Hy. apply Hbody. by right.
Qed.

Lemma pushRendered_ok sizes : ∀ datas icoPngs w (Q : list ref → world → Prop),
  buffers w !! length (buffers w0) = Some svg →
  renders svg sizes datas →
  Q (icoPngs ++ seq (length (buffers w)) (length sizes))
    (World (buffers w ++ datas) (files w) (directories w)) →
  twp (pushRendered (length (buffers w0)) sizes icoPngs) Q E w.
Proof.
  induction sizes as [|size sizes IH]; intros datas icoPngs w Q Hsvg Hdatas HQ.
  - apply Forall2_nil_inv_l in Hdatas as ->. rewrite !app_nil_r in HQ.
    by destruct w.
  - apply Forall2_cons_inv_l in Hdatas as (d & datas' & Hd & Hdatas & ->).
    cbn [pushRendered]. apply twp_andThen.
    unfold twp at 1, toBuffer, andThen, render. rewrite Hsvg, Hd.
    apply (IH datas'); cbn [buffers files directories];
      [by apply lookup_app_l_Some|done|].
    rewrite <-!(assoc_L (++)), length_app. simpl length.
    by rewrite Nat.add_1_r.
Qed.

Lemma assignRendered_ok sizes :
  ∀ datas icnsPngs w (Q : gmap Z ref → world → Prop),
  buffers w !! length (buffers w0) = Some svg →
  renders svg sizes datas →
  Q (foldl (λ pngsBySize e, <[e.1 := e.2]> pngsBySize) icnsPngs
       (zip sizes (seq (length (buffers w)) (length sizes))))
    (World (buffers w ++ datas) (files w) (directories w)) →
  twp (assignRendered (length (buffers w0)) sizes icnsPngs) Q E w.
Proof.
  induction sizes as [|size sizes IH]; intros datas icnsPngs w Q Hsvg Hdatas HQ.
  - apply Forall2_nil_inv_l in Hdatas as ->. rewrite !app_nil_r in HQ.
    by destruct w.
  - apply Forall2_cons_inv_l in Hdatas as (d & datas' & Hd & Hdatas & ->).
    cbn [assignRendered]. apply twp_andThen.
    unfold twp at 1, toBuffer, andThen, render. rewrite Hsvg, Hd.
    apply (IH datas'); cbn [buffers files directories];
      [by apply lookup_app_l_Some|done|].
    rewrite <-!(assoc_L (++)), length_app. simpl length.
    by rewrite Nat.add_1_r.
Qed.

End resolves.

Lemma writeFileSync_ok `{Host} E w p data d (Q : unit → world → Prop) :
  buffers w !! data = Some d → ready w →
  p ∈ targets → parent p ∈ directories w →
  (∀ w', buffers w' = buffers w → directories w' = directories w →
         ready w' → Q () w') →
  twp (writeFileSync p data) Q E w.
Proof.
  intros Hbuf (Hdir & Htargets & Hfiles & Hperm) Hp Hparent HQ.
  unfold twp, writeFileSync. rewrite Hbuf.
  assert (writable w p = true) as ->.
  { unfold writable. rewrite Forall_forall in Hperm, Htargets.
    rewrite Hperm by (apply elem_of_app; by left).
    rewrite !bool_decide_eq_true_2; [done|by apply Htargets|done]. }
  apply HQ; [done..|]. split_and!; [done..| |done].
  cbn [files]. rewrite Forall_forall in Hfiles |- *. intros a Ha.
  rewrite lookup_insert_ne; [by apply Hfiles|].
  by apply target_not_ancestor.
Qed.

Lemma pngFiles_elem `{Host} :
  (∀ size name, (size, name) ∈ STANDARD_ICONS ∨ (size, name) ∈ WINDOWS_ICONS →
     (join ICONS_DIR name, [resize size size]) ∈ pngFiles)
  ∧ (∀ size name, (size, name) ∈ IOS_ICONS →
       (join (join ICONS_DIR "ios") name, [resize size size]) ∈ pngFiles)
  ∧ (∀ size dir, (size, dir) ∈ ANDROID_ICONS →
       let dirPath := join (join ICONS_DIR "android") dir in
       (join dirPath "ic_launcher.png", [resize size size]) ∈ pngFiles
       ∧ (join dirPath "ic_launcher_round.png", [resize size size]) ∈ pngFiles
       ∧ (join dirPath "ic_launcher_foreground.png", foreground size)
         ∈ pngFiles).
Proof.
  unfold pngFiles. split_and!.
  - intros size name Hin. rewrite !elem_of_app, !list_elem_of_bind.
    destruct Hin; [left|right; left]; exists (size, name);
      (split; [by left|done]).
  - intros size name Hin. rewrite !elem_of_app, !list_elem_of_bind.
    right. right. left. exists (size, name). split; [by left|done].
  - intros size dir Hin. cbv zeta. rewrite !elem_of_app, !list_elem_of_bind.
    split_and!; right; right; right; exists (size, dir);
      (split; [|done]); cbv zeta.
    + by left.
    + right. by left.
    + right. right. by left.
Qed.

Lemma pngFiles_target `{Host} p ops : (p, ops) ∈ pngFiles → p ∈ targets.
Proof.
  intros Hin. apply elem_of_app. left. apply list_elem_of_fmap.
  by exists (p, ops).
Qed.

Lemma renders_bounded `{Host} svg bound sizes :
  Forall (λ size, ∃ d, png svg [resize size size] = Some d ∧ len d ≤ bound)
    sizes →
  ∃ datas, renders svg sizes datas ∧ Forall (λ d, len d ≤ bound) datas.
Proof.
  induction 1 as [|size sizes (d & Hd & Hlen) _ (datas & Hdatas & Hall)].
  - exists []. by split; constructor.
  - exists (d :: datas). by split; constructor.
Qed.

(** X21.  [generateIcons] resolves whenever nothing stands in its way: the
    logo is there, [ICONS_DIR] is a directory, no target is a directory, no
    file lies at [ios], at a mipmap directory or at a directory above them,
    the process may write the targets and make these directories, and sharp
    renders every pipeline, the images of the two containers in at most
    64 MiB each.  Missing directories are made on the way. *)
Theorem generateIcons_resolves `{Host} `{Platform} w0 svg :
  files w0 !! SVG_PATH = Some svg → ready w0 → renderable svg →
  ∃ w, generateIcons w0 = (w, inr ()).
Proof.
  intros Hsvg Hready [Hpng Hsizes].
  enough (twp generateIcons (λ _ _, True) (λ _ _, False) w0) as Hwp.
  { unfold twp in Hwp. destruct (generateIcons w0) as [w [e|[]]]; [done|].
    by exists w. }
  set (E := λ (_ : exception) (_ : world), False).
  set (J := λ w, buffers w !! length (buffers w0) = Some svg ∧ ready w).
  rewrite Forall_forall in Hpng.
  destruct pngFiles_elem as (Hflat & Hios & Handroid).
  assert (∀ dir (I : world → Prop) p ops w (Q : unit → world → Prop),
            (∀ w, I w → J w ∧ dir ∈ directories w) →
            (∀ w w', I w → buffers w' = buffers w →
                     directories w' = directories w → ready w' → I w') →
            (p, ops) ∈ pngFiles → parent p = dir →
            I w → (∀ w', I w' → Q () w') →
            twp (toFile (length (buffers w0)) ops p) Q E w) as Hstep.
  { intros dir I p ops w Q HI Hkeep Hin Hparent Hw HQ.
    destruct (HI _ Hw) as [[Hbuf Hr] Hdir].
    apply (toFile_ok w0 svg E); [done|done|by eapply pngFiles_target
      |by apply (Hpng (p, ops))|by rewrite Hparent|].
    intros w' Hb Hd Hr'. by apply HQ, (Hkeep w). }
  unfold generateIcons. apply twp_andThen.
  unfold twp at 1, readFileSync. rewrite Hsvg.
  set (w1 := World _ _ _).
  assert (J w1) as Hw1 by (split; [by apply list_lookup_middle|done]).
  set (I := λ w, J w ∧ ICONS_DIR ∈ directories w).
  assert (∀ w, J w → I w) as HJI.
  { intros w [Hbuf Hr]. split; [done|apply Hr]. }
  assert (∀ w w', I w → buffers w' = buffers w →
                  directories w' = directories w → ready w' → I w') as HI.
  { intros w w' [[Hbuf _] Hdir] Hb Hd Hr. unfold I, J. by rewrite Hb, Hd. }
  (* standard icons *)
  apply twp_andThen. apply (forOf_ok E I); [|by apply HJI|].
  { intros [size name] w Q Hin Hw HQ.
    apply (Hstep ICONS_DIR I); [done|done|apply Hflat; by left
      |apply parent_join|done|done]. }
  clear w1 Hw1. intros w Hw.
  (* Windows icons *)
  apply twp_andThen. apply (forOf_ok E I); [|done|].
  { intros [size name] w' Q Hin Hw' HQ.
    apply (Hstep ICONS_DIR I); [done|done|apply Hflat; by right
      |apply parent_join|done|done]. }
  clear w Hw. intros w [[Hbuf Hr] _].
  (* iOS icons *)
  cbv zeta. apply (ensure_ok E); [done|by left|].
  intros w' Hb _ Hdir Hr'. rewrite <-Hb in Hbuf. clear w Hr Hb.
  set (I' := λ w, J w ∧ join ICONS_DIR "ios" ∈ directories w).
  apply twp_andThen. apply (forOf_ok E I'); [|done|].
  { intros [size name] w Q Hin Hw HQ.
    apply (Hstep (join ICONS_DIR "ios") I'); [done| |by apply Hios
      |apply parent_join|done|done].
    intros w1 w2 [[Hbuf1 _] Hdir1] Hb Hd Hr2. unfold I', J.
    by rewrite Hb, Hd. }
  clear w' Hbuf Hdir Hr'. intros w [Hw _].
  (* Android icons *)
  apply twp_andThen. apply (forOf_ok E J); [|done|].
  { clear w Hw. intros [size dir] w Q Hin [Hbuf Hr] HQ. cbv zeta.
    destruct (Handroid size dir Hin) as (Hlauncher & Hround & Hforeground).
    apply (ensure_ok E); [done| |].
    { right. apply list_elem_of_bind. exists (size, dir).
      split; [by left|done]. }
    intros w' Hb _ Hdir Hr'. rewrite <-Hb in Hbuf. clear w Hr Hb.
    set (dirPath := join (join ICONS_DIR "android") dir) in *.
    set (I'' := λ w, J w ∧ dirPath ∈ directories w).
    assert (∀ w1 w2, I'' w1 → buffers w2 = buffers w1 →
                     directories w2 = directories w1 → ready w2 → I'' w2)
      as Hkeep.
    { intros w1 w2 [[Hbuf1 _] Hdir1] Hb Hd Hr2. unfold I'', J.
      by rewrite Hb, Hd. }
    apply twp_andThen.
    apply (Hstep dirPath I''); [done|done|done|apply parent_join|done|].
    intros w Hw. apply twp_andThen.
    apply (Hstep dirPath I''); [done|done|done|apply parent_join|done|].
    clear w Hw. intros w Hw.
    apply (Hstep dirPath I''); [done|done|done|apply parent_join|done|].
    clear w Hw. intros w [Hw _]. by apply HQ. }
  clear w Hw. intros w [Hbuf Hr].
  (* the ICO container *)
  apply Forall_app in Hsizes as [Hico Hicns].
  destruct (renders_bounded _ _ _ Hico) as (icos & Hicos & Hicos_len).
  destruct (renders_bounded _ _ _ Hicns) as (datas & Hdatas & Hdatas_len).
  apply twp_andThen. apply (pushRendered_ok w0 svg E _ icos); [done..|].
  apply twp_andThen. unfold twp at 1, call at 1.
  cbn [buffers files directories].
  rewrite app_nil_l, (Forall2_length _ _ _ Hicos).
  rewrite (createIco_returns _ _ _ icos);
    [|apply deref_seq|apply icoFits_bounded; [|by repeat constructor|done]].
  2:{ rewrite <-(Forall2_length _ _ _ Hicos). simpl. lia. }
  apply twp_andThen.
  eapply (writeFileSync_ok E);
    [by apply list_lookup_middle|exact Hr
    |apply elem_of_app; right; by left
    |rewrite parent_join; apply Hr|].
  cbn [buffers files directories]. intros w3 Hb3 _ Hr3.
  assert (buffers w3 !! length (buffers w0) = Some svg) as Hbuf3.
  { rewrite Hb3. by do 2 apply lookup_app_l_Some. }
  clear dependent w.
  (* the ICNS container *)
  cbv zeta. apply twp_andThen.
  apply (assignRendered_ok w0 svg E _ datas); [done..|].
  destruct (icnsChunks_rendered svg (buffers w3) datas Hdatas)
    as [Hvalid Hchunks].
  change (foldl _ ∅ ?entries) with (populate entries).
  set (icnsPngs := populate _) in *.
  apply twp_andThen. unfold twp at 1, call at 1.
  cbn [buffers files directories].
  rewrite (createIcns_returns _ _ Hvalid)
    by (by eapply icnsFits_bounded).
  eapply (writeFileSync_ok E);
    [|exact Hr3|apply elem_of_app; right; right; by left
     |rewrite parent_join; apply Hr3|done].
  cbn [buffers]. rewrite (assoc_L (++)).
  apply list_lookup_middle. rewrite !length_app. lia.
Qed.

Lemma generateIcons_resolves_witness :
  ∃ w, @generateIcons echoHost node22 logoOnly = (w, inr ()).
Proof.
  apply (@generateIcons_resolves echoHost node22 logoOnly
           [60; 115; 118; 103; 47; 62]).
  - vm_compute. reflexivity.
  - split_and!; compute_done.
  - split; [compute_done|].
    repeat (constructor; [eexists; split; [reflexivity|by vm_compute]|]).
    constructor.
Defined.
